(** * Generalised Tic-Tac-Toe (m x m board, k in a row): game rules,
    positional heuristic and the three searches of [search.py]
    (minimax, alpha-beta minimax, depth-limited alpha-beta).

    The Python modules [game.py], [heuristic.py] and [search.py] are embedded
    as executable Rocq functions.  Python integers are [Z].  A Python float
    is an IEEE 754 binary64 number: the arithmetic of [heuristic.py]
    (conversion of an integer, addition, division, negation) is the
    arithmetic of that format, with its rounding, its overflow to an infinity
    and the [OverflowError] of a conversion.  Where [search.py] compares
    floats or takes their [max] and [min], a float is read as the number it
    is equal to: a rational number, or one of the two infinities
    [float('inf')] and [float('-inf')].  Exceptions are modelled by a result
    type, the mutable instrumentation counter by explicit state passing, and
    Python's bounded recursion depth by a recursion budget. *)

From Stdlib Require Import ZArith QArith List Bool Lia String.
From Stdlib Require Import Floats.SpecFloat.
From Stdlib Require Import Permutation Sorting.Sorted.
Import ListNotations.
Open Scope Z_scope.

(* ================================================================= *)
(** ** Exceptions and results *)

Inductive exn : Type :=
| IndexError
| ValueError (msg : string)
| RecursionError
| OverflowError
| ZeroDivisionError.

Inductive Res (A : Type) : Type :=
| Ok (a : A)
| Err (e : exn).

Arguments Ok {A} a.
Arguments Err {A} e.

Definition rbind {A B} (m : Res A) (k : A -> Res B) : Res B :=
  match m with
  | Ok a => k a
  | Err e => Err e
  end.

Declare Scope res_scope.
Delimit Scope res_scope with res.
Notation "x <- m ;; k" := (rbind m (fun x => k))
  (at level 61, m at next level, right associativity) : res_scope.
Notation "' pat <- m ;; k" := (rbind m (fun x => match x with pat => k end))
  (at level 61, pat pattern, m at next level, right associativity) : res_scope.
Open Scope res_scope.

(** [[f(x) for x in xs]], stopping at the first exception. *)
Fixpoint mapM {A B} (f : A -> Res B) (xs : list A) : Res (list B) :=
  match xs with
  | [] => Ok []
  | x :: r => y <- f x ;; ys <- mapM f r ;; Ok (y :: ys)
  end.

(** A [for] loop over [xs] that threads an accumulator. *)
Fixpoint foldM {A S} (body : S -> A -> Res S) (xs : list A) (acc : S) : Res S :=
  match xs with
  | [] => Ok acc
  | x :: r => acc' <- body acc x ;; foldM body r acc'
  end.

(** A [for] loop whose body may [return] a value: the loop stops at the
    first iteration that returns [Some] (or raises). *)
Fixpoint for_return {A R} (xs : list A) (body : A -> Res (option R)) : Res (option R) :=
  match xs with
  | [] => Ok None
  | x :: r =>
      o <- body x ;;
      match o with
      | Some v => Ok (Some v)
      | None => for_return r body
      end
  end.

(** Sequencing of two blocks the first of which may [return]. *)
Definition or_else {R} (first : Res (option R)) (next : unit -> Res (option R)) : Res (option R) :=
  o <- first ;;
  match o with
  | Some v => Ok (Some v)
  | None => next tt
  end.

(* ================================================================= *)
(** ** Python sequences *)

(** [range(n)] and [range(a, b)]. *)
Definition range (n : Z) : list Z := map Z.of_nat (seq 0 (Z.to_nat n)).
Definition range_from (a b : Z) : list Z := map (fun i => a + Z.of_nat i) (seq 0 (Z.to_nat (b - a))).

Definition len {A} (l : list A) : Z := Z.of_nat (List.length l).

(** [l[i]]: a negative index counts from the end, an index out of range
    raises [IndexError]. *)
Definition py_index {A} (l : list A) (i : Z) : Res A :=
  let j := if i <? 0 then i + len l else i in
  if (0 <=? j) && (j <? len l) then
    match nth_error l (Z.to_nat j) with
    | Some x => Ok x
    | None => Err IndexError
    end
  else Err IndexError.

(** [l[start:stop]]: negative bounds count from the end, bounds are clamped
    to the sequence, an empty or reversed interval gives the empty slice. *)
Definition clamp_bound (n i : Z) : Z :=
  if i <? 0 then Z.max (i + n) 0 else Z.min i n.

Definition py_slice {A} (l : list A) (start stop : Z) : list A :=
  let a := clamp_bound (len l) start in
  let b := clamp_bound (len l) stop in
  firstn (Z.to_nat (b - a)) (skipn (Z.to_nat a) l).

(** [l[i] = x] on a list. *)
Fixpoint set_nth {A} (l : list A) (n : nat) (x : A) : list A :=
  match l, n with
  | [], _ => []
  | _ :: r, 0%nat => x :: r
  | y :: r, S n' => y :: set_nth r n' x
  end.

(* ================================================================= *)
(** ** game.py *)

Inductive Mark : Type := X | O.

Definition Cell := option Mark.
Definition Board := list (list Cell).
Definition BoardMeta := (Board * Z * Z)%type.
Definition Action := (Z * Z)%type.

Definition mark_eqb (a b : Mark) : bool :=
  match a, b with
  | X, X | O, O => true
  | _, _ => false
  end.

(** [cell == 'X'] for a cell that may be [None]. *)
Definition cell_is (p : Mark) (c : Cell) : bool :=
  match c with
  | Some q => mark_eqb q p
  | None => false
  end.

Definition is_none (c : Cell) : bool :=
  match c with
  | None => true
  | Some _ => false
  end.

(** Natural (lexicographic) order of the action tuples. *)
Definition action_ltb (a b : Action) : bool :=
  (fst a <? fst b) || ((fst a =? fst b) && (snd a <? snd b)).

Definition action_eqb (a b : Action) : bool :=
  (fst a =? fst b) && (snd a =? snd b).

(** [moves.sort()]: a stable sort by the natural order. *)
Fixpoint insert_action (a : Action) (l : list Action) : list Action :=
  match l with
  | [] => [a]
  | b :: r => if action_ltb b a then b :: insert_action a r else a :: b :: r
  end.

Definition sort_actions (l : list Action) : list Action :=
  fold_right insert_action [] l.

Definition initial_state (m k : Z) : BoardMeta :=
  (map (fun _ => map (fun _ => @None Mark) (range m)) (range m), m, k).

(** [board[r][c]]. *)
Definition cell_at (board : Board) (r c : Z) : Res Cell :=
  row <- py_index board r ;; py_index row c.

(** The pairs [(r, c)] of [for r in range(m) for c in range(m)]. *)
Definition coords (m : Z) : list Action :=
  flat_map (fun r => map (fun c => (r, c)) (range m)) (range m).

Definition player (state : BoardMeta) : Res Mark :=
  let '(board, m, k) := state in
  filled <- foldM (fun n rc =>
                     x <- cell_at board (fst rc) (snd rc) ;;
                     Ok (if is_none x then n else n + 1))
                  (coords m) 0 ;;
  Ok (if filled mod 2 =? 0 then X else O).

Definition actions (state : BoardMeta) : Res (list Action) :=
  let '(board, m, k) := state in
  moves <- foldM (fun acc rc =>
                    x <- cell_at board (fst rc) (snd rc) ;;
                    Ok (if is_none x then acc ++ [rc] else acc))
                 (coords m) [] ;;
  Ok (sort_actions moves).

Definition result (state : BoardMeta) (action : Action) : Res BoardMeta :=
  let '(board, m, k) := state in
  let '(r, c) := action in
  if negb ((0 <=? r) && (r <? m) && (0 <=? c) && (c <? m)) then
    Err (ValueError "Action out of bounds")
  else
    x <- cell_at board r c ;;
    if negb (is_none x) then Err (ValueError "Action not legal")
    else
      cur <- player state ;;
      row <- py_index board r ;;
      let new_row := set_nth row (Z.to_nat c) (Some cur) in
      let new_board := set_nth board (Z.to_nat r) new_row in
      Ok (new_board, m, k).

Definition _window_winner (window : list Cell) : option Mark :=
  if forallb (cell_is X) window then Some X
  else if forallb (cell_is O) window then Some O
  else None.

(** The two [while] loops that collect one diagonal: the walk goes down
    one row at a time, to the right ([r < m and c < m]) or to the left
    ([r < m and c >= 0]). *)
Inductive diag_dir : Type := To_right | To_left.

Definition diag_guard (d : diag_dir) (m r c : Z) : bool :=
  match d with
  | To_right => (r <? m) && (c <? m)
  | To_left => (r <? m) && (c >=? 0)
  end.

Definition diag_step (d : diag_dir) (c : Z) : Z :=
  match d with
  | To_right => c + 1
  | To_left => c - 1
  end.

(** [r] starts at a non-negative row and grows by one per iteration, so the
    loop body runs at most [m] times: [steps] is that bound. *)
Fixpoint walk_diag (steps : nat) (d : diag_dir) (board : Board) (m r c : Z) : Res (list Cell) :=
  match steps with
  | 0%nat => Ok []
  | S n =>
      if diag_guard d m r c then
        x <- cell_at board r c ;;
        rest <- walk_diag n d board m (r + 1) (diag_step d c) ;;
        Ok (x :: rest)
      else Ok []
  end.

Definition diag_from (d : diag_dir) (board : Board) (m r c : Z) : Res (list Cell) :=
  walk_diag (Z.to_nat m) d board m r c.

(** The scan of the windows of one diagonal (no length test on the window:
    the enclosing [if len(diag) >= k] stands for it). *)
Definition diag_scan (k : Z) (diag : list Cell) : Res (option Mark) :=
  if len diag >=? k then
    for_return (range (len diag - k + 1))
      (fun s => Ok (_window_winner (py_slice diag s (s + k))))
  else Ok None.

(** The scan of the windows of a row or a column. *)
Definition line_scan (m k : Z) (line : list Cell) : Res (option Mark) :=
  for_return (range (m - k + 1))
    (fun s =>
       let w := py_slice line s (s + k) in
       if len w =? k then Ok (_window_winner w) else Ok None).

Definition winner (state : BoardMeta) : Res (option Mark) :=
  let '(board, m, k) := state in
  or_else (for_return (range m)
             (fun r => row <- py_index board r ;; line_scan m k row))
  (fun _ =>
  or_else (for_return (range m)
             (fun c => col <- mapM (fun r => cell_at board r c) (range m) ;;
                       line_scan m k col))
  (fun _ =>
  or_else (for_return (range m)
             (fun start_col => diag <- diag_from To_right board m 0 start_col ;;
                               diag_scan k diag))
  (fun _ =>
  or_else (for_return (range_from 1 m)
             (fun start_row => diag <- diag_from To_right board m start_row 0 ;;
                               diag_scan k diag))
  (fun _ =>
  or_else (for_return (range m)
             (fun start_col => diag <- diag_from To_left board m 0 start_col ;;
                               diag_scan k diag))
  (fun _ =>
  for_return (range_from 1 m)
             (fun start_col => diag <- diag_from To_left board m start_col (m - 1) ;;
                               diag_scan k diag)))))).

Definition terminal (state : BoardMeta) : Res bool :=
  w <- winner state ;;
  match w with
  | Some _ => Ok true
  | None =>
      let '(board, m, k) := state in
      found <- for_return (coords m)
                 (fun rc => x <- cell_at board (fst rc) (snd rc) ;;
                            Ok (if is_none x then Some false else None)) ;;
      match found with
      | Some b => Ok b
      | None => Ok true
      end
  end.

Definition utility (state : BoardMeta) : Res (option Z) :=
  w <- winner state ;;
  match w with
  | Some X => Ok (Some 1)
  | Some O => Ok (Some (-1))
  | None =>
      t <- terminal state ;;
      if t then Ok (Some 0) else Ok None
  end.

(* ================================================================= *)
(** ** Python floats *)

(** A float is a binary64 number: 53 bits of precision, every result
    rounded to the nearest float, ties to even. *)
Definition float : Type := spec_float.

Definition prec : Z := 53.
Definition emax : Z := 1024.

(** [0.0]. *)
Definition float_zero : float := S754_zero false.

(** [x + y] and [-x] on floats. *)
Definition float_add (x y : float) : float := SFadd prec emax x y.
Definition float_neg (x : float) : float := SFopp x.

(** The conversion of an integer to the nearest float, which the mixed
    arithmetic of a float with an integer applies to the integer: it raises
    [OverflowError] when the integer is too large for a float. *)
Definition float_of_int (n : Z) : Res float :=
  match binary_normalize prec emax n 0 false with
  | S754_infinity _ => Err OverflowError
  | f => Ok f
  end.

Definition float_is_zero (x : float) : bool :=
  match x with
  | S754_zero _ => true
  | _ => false
  end.

(** [x / n] for a float [x] and an integer [n]. *)
Definition float_div_int (x : float) (n : Z) : Res float :=
  y <- float_of_int n ;;
  if float_is_zero y then Err ZeroDivisionError
  else Ok (SFdiv prec emax x y).

(** A Python number: an [int] or a [float]. *)
Inductive number : Type :=
| Int (n : Z)
| Float (f : float).

(** [x + v] for a float [x] and a number [v]. *)
Definition float_add_number (x : float) (v : number) : Res float :=
  match v with
  | Int n => y <- float_of_int n ;; Ok (float_add x y)
  | Float y => Ok (float_add x y)
  end.

(* ================================================================= *)
(** ** heuristic.py *)

Definition count_mark (p : Mark) (window : list Cell) : Z :=
  len (filter (cell_is p) window).

Definition window_value (window : list Cell) : number :=
  let x_count := count_mark X window in
  let o_count := count_mark O window in
  if (x_count >? 0) && (o_count >? 0) then Float float_zero
  else if x_count >? 0 then Int (10 ^ x_count)
  else if o_count >? 0 then Int (- (10 ^ o_count))
  else Float float_zero.

(** The running pair [(total, windows)] of [evaluate]. *)
Definition tally := (float * Z)%type.

(** [total += window_value(w)] and [windows += 1]. *)
Definition add_window (acc : tally) (w : list Cell) : Res tally :=
  total <- float_add_number (fst acc) (window_value w) ;;
  Ok (total, snd acc + 1).

Definition eval_line (m k : Z) (acc : tally) (line : list Cell) : Res tally :=
  foldM (fun acc s => add_window acc (py_slice line s (s + k)))
        (range (m - k + 1)) acc.

Definition eval_diag (k : Z) (acc : tally) (diag : list Cell) : Res tally :=
  if len diag >=? k then
    foldM (fun acc s => add_window acc (py_slice diag s (s + k)))
          (range (len diag - k + 1)) acc
  else Ok acc.

Definition evaluate (state : BoardMeta) (perspective : Mark) : Res float :=
  let '(board, m, k) := state in
  acc <- foldM (fun acc r => row <- py_index board r ;; eval_line m k acc row)
               (range m) (float_zero, 0) ;;
  acc <- foldM (fun acc c => col <- mapM (fun r => cell_at board r c) (range m) ;;
                             eval_line m k acc col)
               (range m) acc ;;
  acc <- foldM (fun acc start_col => diag <- diag_from To_right board m 0 start_col ;;
                                     eval_diag k acc diag)
               (range m) acc ;;
  acc <- foldM (fun acc start_row => diag <- diag_from To_right board m start_row 0 ;;
                                     eval_diag k acc diag)
               (range_from 1 m) acc ;;
  acc <- foldM (fun acc start_col => diag <- diag_from To_left board m 0 start_col ;;
                                     eval_diag k acc diag)
               (range m) acc ;;
  acc <- foldM (fun acc start_col => diag <- diag_from To_left board m start_col (m - 1) ;;
                                     eval_diag k acc diag)
               (range_from 1 m) acc ;;
  let '(total, windows) := acc in
  if windows =? 0 then Ok float_zero
  else
    score <- float_div_int total windows ;;
    Ok (match perspective with X => score | O => float_neg score end).

(* ================================================================= *)
(** ** Numbers and the two infinities *)

(** The comparisons of a numeric type. *)
Class Number (A : Type) : Type :=
  { num_ltb : A -> A -> bool;
    num_leb : A -> A -> bool;
    num_eqb : A -> A -> bool }.

#[export] Instance Number_Z : Number Z :=
  {| num_ltb := Z.ltb; num_leb := Z.leb; num_eqb := Z.eqb |}.

Definition Qltb (x y : Q) : bool :=
  match Qcompare x y with Lt => true | _ => false end.

#[export] Instance Number_Q : Number Q :=
  {| num_ltb := Qltb; num_leb := Qle_bool; num_eqb := Qeq_bool |}.

(** A search value: a number, [float('-inf')] or [float('inf')]. *)
Inductive ext (A : Type) : Type :=
| NegInf
| Fin (a : A)
| PosInf.

Arguments NegInf {A}.
Arguments Fin {A} a.
Arguments PosInf {A}.

Section ExtOrder.
Context {A : Type} `{Number A}.

Definition ext_ltb (x y : ext A) : bool :=
  match x, y with
  | NegInf, NegInf => false
  | NegInf, _ => true
  | Fin a, Fin b => num_ltb a b
  | Fin _, PosInf => true
  | _, _ => false
  end.

Definition ext_leb (x y : ext A) : bool :=
  match x, y with
  | NegInf, _ => true
  | Fin a, Fin b => num_leb a b
  | _, PosInf => true
  | _, _ => false
  end.

Definition ext_eqb (x y : ext A) : bool :=
  match x, y with
  | NegInf, NegInf => true
  | Fin a, Fin b => num_eqb a b
  | PosInf, PosInf => true
  | _, _ => false
  end.

(** [max(v, w)] keeps its first argument unless the second is greater. *)
Definition ext_max (v w : ext A) : ext A := if ext_ltb v w then w else v.

(** [min(v, w)] keeps its first argument unless the second is smaller. *)
Definition ext_min (v w : ext A) : ext A := if ext_ltb w v then w else v.
End ExtOrder.

(** The number a float is equal to: [0.0] and [-0.0] are both 0, a finite
    float of mantissa [m] and exponent [e] is the rational [m * 2^e] in
    lowest terms.  (A NaN is not a number; no operation of [evaluate]
    produces one, and it is read as 0.) *)
Definition float_value (x : float) : ext Q :=
  match x with
  | S754_zero _ => Fin 0%Q
  | S754_infinity s => if s then NegInf else PosInf
  | S754_nan => Fin 0%Q
  | S754_finite s m e =>
      let n := if s then Z.neg m else Z.pos m in
      Fin (match e with
           | Z0 => inject_Z n
           | Z.pos p => inject_Z (n * 2 ^ e)
           | Z.neg p => Qred (n # 2 ^ p)
           end)
  end.

(* ================================================================= *)
(** ** search.py: instrumentation *)

Record Instrument : Type := mkInstrument { node_count : Z }.

(** [Instrument()], [tick] and [reset]. *)
Definition Instrument_new : Instrument := mkInstrument 0.
Definition tick (i : Instrument) : Instrument := mkInstrument (node_count i + 1).
Definition reset (i : Instrument) : Instrument := mkInstrument 0.

(** Computations that may raise and that update the shared sink. *)
Definition M (A : Type) : Type := Instrument -> Res (A * Instrument).

Definition mret {A} (a : A) : M A := fun i => Ok (a, i).

Definition mbind {A B} (m : M A) (k : A -> M B) : M B :=
  fun i => match m i with
           | Ok (a, i') => k a i'
           | Err e => Err e
           end.

Definition lift {A} (r : Res A) : M A :=
  fun i => match r with
           | Ok a => Ok (a, i)
           | Err e => Err e
           end.

Definition do_tick : M unit := fun i => Ok (tt, tick i).

Definition raise {A} (e : exn) : M A := fun _ => Err e.

Declare Scope sink_scope.
Delimit Scope sink_scope with M.
Notation "x <- m ;; k" := (mbind m (fun x => k))
  (at level 61, m at next level, right associativity) : sink_scope.
Notation "m ;;; k" := (mbind m (fun _ => k))
  (at level 61, right associativity) : sink_scope.

(* ================================================================= *)
(** ** search.py: move ordering *)

(** The sort key [(base, -probe, a)] of [priority]; the float [-probe] is
    given by its value. *)
Definition Key := (Z * ext Q * Action)%type.

(** Tuple comparison: the first component that differs decides. *)
Definition key_ltb (x y : Key) : bool :=
  let '(b1, p1, a1) := x in
  let '(b2, p2, a2) := y in
  if negb (b1 =? b2) then b1 <? b2
  else if negb (ext_eqb p1 p2) then ext_ltb p1 p2
  else action_ltb a1 a2.

(** [list.sort(key=...)]: the keys are computed once, the sort is stable. *)
Fixpoint insert_keyed (x : Key * Action) (l : list (Key * Action)) : list (Key * Action) :=
  match l with
  | [] => [x]
  | y :: r => if key_ltb (fst y) (fst x) then y :: insert_keyed x r else x :: y :: r
  end.

Definition sort_by_key (key : Action -> Key) (l : list Action) : list Action :=
  map snd (fold_right insert_keyed [] (map (fun a => (key a, a)) l)).

Section MoveOrdering.
(** The names [result] and [evaluate] that [_order_moves] calls. *)
Variable result_fn : BoardMeta -> Action -> Res BoardMeta.
Variable evaluate_fn : BoardMeta -> Res float.

Definition priority (state : BoardMeta) (use_heuristic_probe : bool) (a : Action) : Key :=
  let '(board, m, k) := state in
  let center := (m / 2, m / 2) in
  let '(r, c) := a in
  let on_edge (x : Z) := (x =? 0) || (x =? m - 1) in
  let base :=
    if action_eqb a center then 0
    else if on_edge r && on_edge c then 1
    else if on_edge r || on_edge c then 2
    else 3 in
  let probe :=
    if use_heuristic_probe then
      match (s' <- result_fn state a ;; evaluate_fn s') with
      | Ok p => p
      | Err _ => float_zero
      end
    else float_zero in
  (base, float_value (float_neg probe), a).

Definition _order_moves_with (state : BoardMeta) (use_heuristic_probe : bool) : Res (list Action) :=
  moves <- actions state ;;
  Ok (sort_by_key (priority state use_heuristic_probe) moves).
End MoveOrdering.

Definition _order_moves (state : BoardMeta) (use_heuristic_probe : bool) : Res (list Action) :=
  _order_moves_with result (fun s => evaluate s X) state use_heuristic_probe.

(* ================================================================= *)
(** ** search.py: the loops shared by the three searches *)

Section Loops.
Context {A : Type} `{Number A}.

Let Value : Type := ext A.

(** The condition under which the top-level loop of the side [X] replaces
    its best action. *)
Definition improves_max (val : Value) (a : Action) (best_val : Value) (best_action : option Action) : bool :=
  ext_ltb best_val val
  || (ext_eqb val best_val
      && match best_action with
         | None => true
         | Some b => action_ltb a b
         end).

(** The same for the side [O]. *)
Definition improves_min (val : Value) (a : Action) (best_val : Value) (best_action : option Action) : bool :=
  ext_ltb val best_val
  || (ext_eqb val best_val
      && match best_action with
         | None => true
         | Some b => action_ltb a b
         end).

(** [for a in actions(s): v = max(v, min_value(result(s, a)))]. *)
Fixpoint plain_loop_max (child : BoardMeta -> M Value) (s : BoardMeta)
         (moves : list Action) (v : Value) : M Value :=
  match moves with
  | [] => mret v
  | a :: rest =>
      (s' <- lift (result s a) ;;
       w <- child s' ;;
       plain_loop_max child s rest (ext_max v w))%M
  end.

Fixpoint plain_loop_min (child : BoardMeta -> M Value) (s : BoardMeta)
         (moves : list Action) (v : Value) : M Value :=
  match moves with
  | [] => mret v
  | a :: rest =>
      (s' <- lift (result s a) ;;
       w <- child s' ;;
       plain_loop_min child s rest (ext_min v w))%M
  end.

(** The top-level loops of [minimax]. *)
Fixpoint plain_top_max (child : BoardMeta -> M Value) (state : BoardMeta)
         (moves : list Action) (best_val : Value) (best_action : option Action)
  : M (Value * option Action) :=
  match moves with
  | [] => mret (best_val, best_action)
  | a :: rest =>
      (s' <- lift (result state a) ;;
       v <- child s' ;;
       if improves_max v a best_val best_action
       then plain_top_max child state rest v (Some a)
       else plain_top_max child state rest best_val best_action)%M
  end.

Fixpoint plain_top_min (child : BoardMeta -> M Value) (state : BoardMeta)
         (moves : list Action) (best_val : Value) (best_action : option Action)
  : M (Value * option Action) :=
  match moves with
  | [] => mret (best_val, best_action)
  | a :: rest =>
      (s' <- lift (result state a) ;;
       v <- child s' ;;
       if improves_min v a best_val best_action
       then plain_top_min child state rest v (Some a)
       else plain_top_min child state rest best_val best_action)%M
  end.

(** The pruned loop of a maximising node: a value [>= beta] returns at
    once, otherwise [alpha] is raised. *)
Fixpoint ab_loop_max (child : BoardMeta -> Value -> Value -> M Value) (s : BoardMeta)
         (moves : list Action) (v alpha beta : Value) : M Value :=
  match moves with
  | [] => mret v
  | a :: rest =>
      (s' <- lift (result s a) ;;
       w <- child s' alpha beta ;;
       let v := ext_max v w in
       if ext_leb beta v then mret v
       else ab_loop_max child s rest v (ext_max alpha v) beta)%M
  end.

(** The pruned loop of a minimising node. *)
Fixpoint ab_loop_min (child : BoardMeta -> Value -> Value -> M Value) (s : BoardMeta)
         (moves : list Action) (v alpha beta : Value) : M Value :=
  match moves with
  | [] => mret v
  | a :: rest =>
      (s' <- lift (result s a) ;;
       w <- child s' alpha beta ;;
       let v := ext_min v w in
       if ext_leb v alpha then mret v
       else ab_loop_min child s rest v alpha (ext_min beta v))%M
  end.

(** The top-level loops of [minimax_ab] and [search]. *)
Fixpoint ab_top_max (child : BoardMeta -> Value -> Value -> M Value) (state : BoardMeta)
         (moves : list Action) (best_val : Value) (best_action : option Action)
         (alpha beta : Value) : M (Value * option Action) :=
  match moves with
  | [] => mret (best_val, best_action)
  | a :: rest =>
      (s' <- lift (result state a) ;;
       val <- child s' alpha beta ;;
       if improves_max val a best_val best_action
       then ab_top_max child state rest val (Some a) (ext_max alpha val) beta
       else ab_top_max child state rest best_val best_action (ext_max alpha best_val) beta)%M
  end.

Fixpoint ab_top_min (child : BoardMeta -> Value -> Value -> M Value) (state : BoardMeta)
         (moves : list Action) (best_val : Value) (best_action : option Action)
         (alpha beta : Value) : M (Value * option Action) :=
  match moves with
  | [] => mret (best_val, best_action)
  | a :: rest =>
      (s' <- lift (result state a) ;;
       val <- child s' alpha beta ;;
       if improves_min val a best_val best_action
       then ab_top_min child state rest val (Some a) alpha (ext_min beta val)
       else ab_top_min child state rest best_val best_action alpha (ext_min beta best_val))%M
  end.
End Loops.

(** The optional sink argument: [None] makes a fresh [Instrument]; the sink
    is reset before the search starts. *)
Definition prepare_sink (instrument : option Instrument) : Instrument :=
  let instrument :=
    match instrument with
    | None => Instrument_new
    | Some i => i
    end in
  reset instrument.

(* ================================================================= *)
(** ** search.py: minimax *)

Module MM.
Definition Value := ext Z.

(** The nested functions [max_value] and [min_value] of [minimax];
    [fuel] is the number of nested calls the interpreter still allows. *)
Fixpoint max_value (fuel : nat) (s : BoardMeta) {struct fuel} : M Value :=
  match fuel with
  | 0%nat => raise RecursionError
  | S f =>
      (do_tick ;;;
       u <- lift (utility s) ;;
       match u with
       | Some u => mret (Fin u)
       | None =>
           moves <- lift (actions s) ;;
           plain_loop_max (min_value f) s moves NegInf
       end)%M
  end
with min_value (fuel : nat) (s : BoardMeta) {struct fuel} : M Value :=
  match fuel with
  | 0%nat => raise RecursionError
  | S f =>
      (do_tick ;;;
       u <- lift (utility s) ;;
       match u with
       | Some u => mret (Fin u)
       | None =>
           moves <- lift (actions s) ;;
           plain_loop_min (max_value f) s moves PosInf
       end)%M
  end.
End MM.

Definition minimax (fuel : nat) (state : BoardMeta) (instrument : option Instrument)
  : Res ((MM.Value * option Action) * Instrument) :=
  let instrument := prepare_sink instrument in
  (cur <- lift (player state) ;;
   match cur with
   | X =>
       moves <- lift (actions state) ;;
       plain_top_max (MM.min_value fuel) state moves NegInf None
   | O =>
       moves <- lift (actions state) ;;
       plain_top_min (MM.max_value fuel) state moves PosInf None
   end)%M instrument.

(* ================================================================= *)
(** ** search.py: minimax_ab *)

Module AB.
Definition Value := ext Z.

Fixpoint max_value (use_ordering : bool) (fuel : nat) (s : BoardMeta) (alpha beta : Value)
         {struct fuel} : M Value :=
  match fuel with
  | 0%nat => raise RecursionError
  | S f =>
      (do_tick ;;;
       u <- lift (utility s) ;;
       match u with
       | Some u => mret (Fin u)
       | None =>
           moves <- lift (_order_moves s use_ordering) ;;
           ab_loop_max (min_value use_ordering f) s moves NegInf alpha beta
       end)%M
  end
with min_value (use_ordering : bool) (fuel : nat) (s : BoardMeta) (alpha beta : Value)
         {struct fuel} : M Value :=
  match fuel with
  | 0%nat => raise RecursionError
  | S f =>
      (do_tick ;;;
       u <- lift (utility s) ;;
       match u with
       | Some u => mret (Fin u)
       | None =>
           moves <- lift (_order_moves s use_ordering) ;;
           ab_loop_min (max_value use_ordering f) s moves PosInf alpha beta
       end)%M
  end.
End AB.

Definition minimax_ab (fuel : nat) (state : BoardMeta) (instrument : option Instrument)
           (use_ordering : bool) : Res ((AB.Value * option Action) * Instrument) :=
  let instrument := prepare_sink instrument in
  (cur <- lift (player state) ;;
   match cur with
   | X =>
       moves <- lift (_order_moves state use_ordering) ;;
       ab_top_max (AB.min_value use_ordering fuel) state moves NegInf None NegInf PosInf
   | O =>
       moves <- lift (_order_moves state use_ordering) ;;
       ab_top_min (AB.max_value use_ordering fuel) state moves PosInf None NegInf PosInf
   end)%M instrument.

(* ================================================================= *)
(** ** search.py: search (depth-limited) *)

Module DL.
Definition Value := ext Q.

Section WithEval.
Variable eval_fn : BoardMeta -> Res float.
Variable use_ordering : bool.

Fixpoint max_value (fuel : nat) (s : BoardMeta) (alpha beta : Value) (d : Z)
         {struct fuel} : M Value :=
  match fuel with
  | 0%nat => raise RecursionError
  | S f =>
      (do_tick ;;;
       u <- lift (utility s) ;;
       match u with
       | Some u => mret (Fin (inject_Z u))
       | None =>
           if d =? 0 then (x <- lift (eval_fn s) ;; mret (float_value x))
           else
             moves <- lift (_order_moves s use_ordering) ;;
             ab_loop_max (fun s' al be => min_value f s' al be (d - 1))
                         s moves NegInf alpha beta
       end)%M
  end
with min_value (fuel : nat) (s : BoardMeta) (alpha beta : Value) (d : Z)
         {struct fuel} : M Value :=
  match fuel with
  | 0%nat => raise RecursionError
  | S f =>
      (do_tick ;;;
       u <- lift (utility s) ;;
       match u with
       | Some u => mret (Fin (inject_Z u))
       | None =>
           if d =? 0 then (x <- lift (eval_fn s) ;; mret (float_value x))
           else
             moves <- lift (_order_moves s use_ordering) ;;
             ab_loop_min (fun s' al be => max_value f s' al be (d - 1))
                         s moves PosInf alpha beta
       end)%M
  end.
End WithEval.
End DL.

Definition search (fuel : nat) (state : BoardMeta) (depth : Z) (eval_fn : BoardMeta -> Res float)
           (instrument : option Instrument) (use_ordering : bool)
  : Res ((DL.Value * option Action) * Instrument) :=
  let instrument := prepare_sink instrument in
  (cur <- lift (player state) ;;
   match cur with
   | X =>
       moves <- lift (_order_moves state use_ordering) ;;
       ab_top_max (fun s' al be => DL.min_value eval_fn use_ordering fuel s' al be (depth - 1))
                  state moves NegInf None NegInf PosInf
   | O =>
       moves <- lift (_order_moves state use_ordering) ;;
       ab_top_min (fun s' al be => DL.max_value eval_fn use_ordering fuel s' al be (depth - 1))
                  state moves PosInf None NegInf PosInf
   end)%M instrument.

(* ================================================================= *)
(** ** play.py: the move of the agent *)

(** The choice of the agent in [human_vs_agent] when X is to move:
    [minimax_ab(state)] when no depth is given (in both branches that test
    [depth is None]), [search(state, depth)] otherwise.  Of the pair
    (value, action) that the call returns only the action is used. *)
Definition agent_move (fuel : nat) (m k : Z) (depth : option Z) (state : BoardMeta)
  : Res (option Action) :=
  match depth with
  | None =>
      if (m =? 3) && (k =? 3) then
        '(val, a, _) <- minimax_ab fuel state None true ;; Ok a
      else
        '(val, a, _) <- minimax_ab fuel state None true ;; Ok a
  | Some depth =>
      '(val, a, _) <- search fuel state depth (fun s => evaluate s X) None true ;; Ok a
  end.

(* ================================================================= *)
(** ** benchmark.py *)

(** The three runs of [bench_empty_3x3] on the one [Instrument] that the
    function creates and resets between the runs; a line of the report is
    the node count, the value and the action of a run (the clock readings
    are left out). *)
Definition bench_empty_3x3 (fuel : nat) : Res (list (Z * ext Z * option Action)) :=
  let state := initial_state 3 3 in
  let instr := Instrument_new in
  '(v1, a1, instr) <- minimax fuel state (Some instr) ;;
  let nm_minimax := node_count instr in
  let instr := reset instr in
  '(v2, a2, instr) <- minimax_ab fuel state (Some instr) false ;;
  let nm_ab_noord := node_count instr in
  let instr := reset instr in
  '(v3, a3, instr) <- minimax_ab fuel state (Some instr) true ;;
  let nm_ab_ord := node_count instr in
  Ok [(nm_minimax, v1, a1); (nm_ab_noord, v2, a2); (nm_ab_ord, v3, a3)].

(* ================================================================= *)
(** * Vocabulary of the properties *)

(** Well-formed states: an [m] x [m] grid. *)
Definition wf (state : BoardMeta) : Prop :=
  let '(board, m, k) := state in
  List.length board = Z.to_nat m /\
  Forall (fun row : list Cell => List.length row = Z.to_nat m) board.

(** The cell at [(r, c)] of a grid, read without bound checks. *)
Definition grid_get (board : Board) (r c : Z) : Cell :=
  nth (Z.to_nat c) (nth (Z.to_nat r) board []) None.

Definition count_none (row : list Cell) : nat := List.length (filter is_none row).

Definition empties (state : BoardMeta) : nat :=
  let '(board, m, k) := state in count_none (List.concat board).

(** The empty cells in the order of the scan. *)
Definition empty_cells (board : Board) (m : Z) : list Action :=
  filter (fun rc => is_none (grid_get board (fst rc) (snd rc))) (coords m).

(** The grid after the mover [p] has played [(r, c)]. *)
Definition place (board : Board) (r c : Z) (p : Mark) : Board :=
  set_nth board (Z.to_nat r) (set_nth (nth (Z.to_nat r) board []) (Z.to_nat c) (Some p)).

(** The order of the keys as a proposition. *)
Definition action_lt (a b : Action) : Prop :=
  fst a < fst b \/ (fst a = fst b /\ snd a < snd b).

(** The order and the equality of the numbers that floats are equal to:
    [-inf] is below every other number, [inf] above, and the rational
    numbers are in their usual order. *)
Definition number_lt (x y : ext Q) : Prop :=
  match x, y with
  | NegInf, NegInf => False
  | NegInf, _ => True
  | Fin a, Fin b => (a < b)%Q
  | Fin _, PosInf => True
  | _, _ => False
  end.

Definition number_eq (x y : ext Q) : Prop :=
  match x, y with
  | NegInf, NegInf => True
  | Fin a, Fin b => (a == b)%Q
  | PosInf, PosInf => True
  | _, _ => False
  end.

(** The opposite of a number. *)
Definition number_opp (x : ext Q) : ext Q :=
  match x with
  | NegInf => PosInf
  | Fin a => Fin (- a)%Q
  | PosInf => NegInf
  end.

(** The lexicographic order of the keys: by the first component, then by
    the second, then by the action. *)
Definition key_lt (x y : Key) : Prop :=
  let '(b1, p1, a1) := x in
  let '(b2, p2, a2) := y in
  b1 < b2 \/ (b1 = b2 /\ (number_lt p1 p2 \/ (number_eq p1 p2 /\ action_lt a1 a2))).

(** [x] may stand before [y] in a list sorted by key. *)
Definition key_le (x y : Key) : Prop := key_ltb y x = false.

(** The game a state belongs to: the size [m] of its board and the length
    [k] of a winning line. *)
Definition game_of (state : BoardMeta) : Z * Z := (snd (fst state), snd state).

(** The sink after [n] further ticks. *)
Definition bump (i : Instrument) (n : Z) : Instrument := mkInstrument (node_count i + n).

(** The value and the number of ticks of a computation started on a fresh
    sink. *)
Definition value_of {A} (d : A) (m : M A) : A :=
  match m Instrument_new with
  | Ok (v, _) => v
  | Err _ => d
  end.

Definition count_of {A} (m : M A) : Z :=
  match m Instrument_new with
  | Ok (_, i) => node_count i
  | Err _ => 0
  end.

(** A computation that returns, whose value does not depend on the sink and
    that adds a fixed number of ticks to it. *)
Definition steady {A} (m : M A) : Prop :=
  exists v n, 0 <= n /\ forall i, m i = Ok (v, bump i n).

(** The successor state of an action (the state itself if the action is
    refused). *)
Definition succ_state (s : BoardMeta) (a : Action) : BoardMeta :=
  match result s a with
  | Ok s' => s'
  | Err _ => s
  end.

Definition total (f : Action -> Z) (moves : list Action) : Z :=
  fold_right Z.add 0 (map f moves).

(** The evaluator [minimax] applies to the successors of a state whose
    mover is [p]. *)
Definition MM_child (p : Mark) (fuel : nat) : BoardMeta -> M MM.Value :=
  match p with
  | X => MM.min_value fuel
  | O => MM.max_value fuel
  end.

(** The nodes [minimax] visits from [state]: those below its successors. *)
Definition MM_nodes (p : Mark) (fuel : nat) (state : BoardMeta) (moves : list Action) : Z :=
  total (fun a => count_of (MM_child p fuel (succ_state state a))) moves.

(** The value and the number of ticks of the evaluation of the successor of
    [a]. *)
Definition child_value {A} (child : BoardMeta -> M (ext A)) (s : BoardMeta) (a : Action) : ext A :=
  value_of NegInf (child (succ_state s a)).

Definition child_count {A} (child : BoardMeta -> M (ext A)) (s : BoardMeta) (a : Action) : Z :=
  count_of (child (succ_state s a)).

(** Every listed action is accepted and its successor is evaluated by a
    steady computation. *)
Definition children_steady {A} (child : BoardMeta -> M (ext A)) (s : BoardMeta)
           (moves : list Action) : Prop :=
  forall a, In a moves -> exists s', result s a = Ok s' /\ steady (child s').

(** Every listed action is accepted and the evaluation of its successor
    returns after at most [cn a] ticks, whatever the window and the sink. *)
Definition children_bounded {A} (child : BoardMeta -> ext A -> ext A -> M (ext A))
           (s : BoardMeta) (cn : Action -> Z) (moves : list Action) : Prop :=
  forall a, In a moves ->
    exists s', result s a = Ok s' /\
      forall alpha beta i, exists w n,
        child s' alpha beta i = Ok (w, bump i n) /\ 0 <= n <= cn a.

(** The geometric band of a cell as the specification words it: the centre
    cell is 0, a corner is 1, any other cell of the border is 2, every
    other cell is 3. *)
Definition geometric_band (m : Z) (a : Action) : Z :=
  let '(r, c) := a in
  let row_on_border := (r =? 0) || (r =? m - 1) in
  let col_on_border := (c =? 0) || (c =? m - 1) in
  if (r =? m / 2) && (c =? m / 2) then 0
  else if row_on_border && col_on_border then 1
  else if row_on_border || col_on_border then 2
  else 3.

(** The probe term of the key: the heuristic score of the successor, or the
    neutral score when the flag is unset or the probe raised. *)
Definition probe_score (result_fn : BoardMeta -> Action -> Res BoardMeta)
           (evaluate_fn : BoardMeta -> Res float) (state : BoardMeta) (flag : bool) (a : Action)
  : float :=
  if flag then
    match result_fn state a with
    | Ok s' => match evaluate_fn s' with Ok p => p | Err _ => float_zero end
    | Err _ => float_zero
    end
  else float_zero.

(** An oracle whose [apply] operation refuses every action. *)
Definition refusing_result (state : BoardMeta) (a : Action) : Res BoardMeta :=
  Err (ValueError "Action not legal").

(** A game that X has won on the first row while four cells are empty. *)
Definition won_with_empties : BoardMeta :=
  ([[Some X; Some X; Some X]; [Some O; Some O; None]; [None; None; None]], 3, 3).


(** The full board of the draw of [test_draw]: the moves (0,0), (0,1),
    (0,2), (1,1), (1,0), (1,2), (2,1), (2,0), (2,2) played in turn. *)
Definition full_draw : BoardMeta :=
  ([[Some X; Some O; Some X]; [Some X; Some O; Some O]; [Some O; Some X; Some X]], 3, 3).

(** The position after X (2,2), O (1,1), X (2,0), O (1,0), X (1,2), O (0,2):
    X is to move and wins at once with (2,1), and with no other move. *)
Definition one_winning_move : BoardMeta :=
  ([[None; None; Some O]; [Some O; Some O; Some X]; [Some X; None; Some X]], 3, 3).

(** The position after X (0,0), O (1,1), X (2,0), O (1,0), X (1,2), O (2,2),
    X (2,1): O is to move, and each of its two moves leads to a draw. *)
Definition tied_replies : BoardMeta :=
  ([[Some X; None; None]; [Some O; Some O; Some X]; [Some X; Some X; Some O]], 3, 3).

(** The default heuristic of [search]. *)
Definition default_eval (s : BoardMeta) : Res float := evaluate s X.

(** The value [minimax] gives to the successor of [a] when [p] is to move. *)
Definition minimax_value_of_move (p : Mark) (fuel : nat) (state : BoardMeta) (a : Action) : MM.Value :=
  value_of NegInf (MM_child p fuel (succ_state state a)).

(** The laws of the comparisons of a numeric type: [<] is a strict weak
    order and [==] is its equivalence. *)
Class NumberLaws (A : Type) `{Number A} : Prop :=
  { num_ltb_irrefl : forall x, num_ltb x x = false;
    num_ltb_trans : forall x y z, num_ltb x y = true -> num_ltb y z = true -> num_ltb x z = true;
    num_ltb_negtrans : forall x y z,
        num_ltb x y = false -> num_ltb y z = false -> num_ltb x z = false;
    num_eqb_total : forall x y, num_ltb x y = false -> num_ltb y x = false -> num_eqb x y = true;
    num_eqb_sym : forall x y, num_eqb x y = true -> num_eqb y x = true;
    num_eqb_trans : forall x y z, num_eqb x y = true -> num_eqb y z = true -> num_eqb x z = true;
    num_ltb_eqb_l : forall x y z, num_eqb x y = true -> num_ltb x z = num_ltb y z;
    num_ltb_eqb_r : forall x y z, num_eqb x y = true -> num_ltb z x = num_ltb z y;
    num_leb_ltb : forall x y, num_leb x y = negb (num_ltb y x) }.

(** The replacement test of the top-level loops, for a side whose strictly
    better values are given by [better]. *)
Definition improves {V} (better eqb : V -> V -> bool) (val : V) (a : Action)
           (best_val : V) (best_action : option Action) : bool :=
  better val best_val
  || (eqb val best_val
      && match best_action with
         | None => true
         | Some b => action_ltb a b
         end).

(** One round of a top-level loop on the pair (best value, best action),
    and the rounds for a list of explored pairs (action, value). *)
Definition pick_step {V} (better eqb : V -> V -> bool)
           (best : V * option Action) (x : Action * V) : V * option Action :=
  if improves better eqb (snd x) (fst x) (fst best) (snd best)
  then (snd x, Some (fst x))
  else best.

Definition pick {V} (better eqb : V -> V -> bool)
           (trace : list (Action * V)) (best : V * option Action) : V * option Action :=
  fold_left (pick_step better eqb) trace best.

(** Strictly better values of the maximising and of the minimising side. *)
Definition better_max {A} `{Number A} (val best_val : ext A) : bool := ext_ltb best_val val.
Definition better_min {A} `{Number A} (val best_val : ext A) : bool := ext_ltb val best_val.

(** The pairs (action, value) that the top-level loops of [minimax_ab] and
    [search] explore, in the order of exploration: the loop is replayed
    with its running best value, best action and window. *)
Fixpoint ab_top_max_trace {A} `{Number A}
         (child : BoardMeta -> ext A -> ext A -> M (ext A)) (state : BoardMeta)
         (moves : list Action) (best_val : ext A) (best_action : option Action)
         (alpha beta : ext A) (i : Instrument) : Res (list (Action * ext A)) :=
  match moves with
  | [] => Ok []
  | a :: rest =>
      s' <- result state a ;;
      r <- child s' alpha beta i ;;
      let best := pick_step better_max ext_eqb (best_val, best_action) (a, fst r) in
      rest' <- ab_top_max_trace child state rest (fst best) (snd best)
                                (ext_max alpha (fst best)) beta (snd r) ;;
      Ok ((a, fst r) :: rest')
  end.

Fixpoint ab_top_min_trace {A} `{Number A}
         (child : BoardMeta -> ext A -> ext A -> M (ext A)) (state : BoardMeta)
         (moves : list Action) (best_val : ext A) (best_action : option Action)
         (alpha beta : ext A) (i : Instrument) : Res (list (Action * ext A)) :=
  match moves with
  | [] => Ok []
  | a :: rest =>
      s' <- result state a ;;
      r <- child s' alpha beta i ;;
      let best := pick_step better_min ext_eqb (best_val, best_action) (a, fst r) in
      rest' <- ab_top_min_trace child state rest (fst best) (snd best)
                                alpha (ext_min beta (fst best)) (snd r) ;;
      Ok ((a, fst r) :: rest')
  end.

Definition minimax_ab_trace (fuel : nat) (state : BoardMeta) (use_ordering : bool)
  : Res (list (Action * AB.Value)) :=
  cur <- player state ;;
  moves <- _order_moves state use_ordering ;;
  match cur with
  | X => ab_top_max_trace (AB.min_value use_ordering fuel) state moves
                          NegInf None NegInf PosInf (prepare_sink None)
  | O => ab_top_min_trace (AB.max_value use_ordering fuel) state moves
                          PosInf None NegInf PosInf (prepare_sink None)
  end.

(** The score [search] gives to a successor that it does not expand: the
    exact utility of a terminal state, the heuristic score otherwise. *)
Definition one_ply_score (eval_fn : BoardMeta -> Res float) (s : BoardMeta) : Res DL.Value :=
  u <- utility s ;;
  match u with
  | Some u => Ok (Fin (inject_Z u))
  | None => x <- eval_fn s ;; Ok (float_value x)
  end.

(** Every listed action is accepted and the evaluation of its successor
    returns the score of the action after a single tick, whatever the
    window. *)
Definition children_scored {A} (child : BoardMeta -> ext A -> ext A -> M (ext A))
           (state : BoardMeta) (score : Action -> ext A) (moves : list Action) : Prop :=
  forall a, In a moves ->
    exists s', result state a = Ok s' /\
               forall alpha beta i, child s' alpha beta i = Ok (score a, tick i).

(** Every listed action is accepted and the evaluation of its successor
    returns, whatever the window and the sink. *)
Definition children_return {A} (child : BoardMeta -> ext A -> ext A -> M (ext A))
           (state : BoardMeta) (moves : list Action) : Prop :=
  forall a, In a moves ->
    exists s', result state a = Ok s' /\
               forall alpha beta i, exists w i', child s' alpha beta i = Ok (w, i').

(** The state reached by playing the listed moves in turn. *)
Definition play_moves (moves : list Action) (state : BoardMeta) : Res BoardMeta :=
  foldM result moves state.

(** The pruned search with move ordering disabled as section 4.3 of the
    specification words it ("when disabled, actions are visited in the
    Rules Oracle's natural legal-action order"): the loops of [minimax_ab]
    over [actions(s)] instead of [_order_moves(s, False)].  It is compared
    with [minimax_ab] under [use_ordering=False]. *)
Module SpecUnordered.
Fixpoint max_value (fuel : nat) (s : BoardMeta) (alpha beta : AB.Value)
         {struct fuel} : M AB.Value :=
  match fuel with
  | 0%nat => raise RecursionError
  | S f =>
      (do_tick ;;;
       u <- lift (utility s) ;;
       match u with
       | Some u => mret (Fin u)
       | None =>
           moves <- lift (actions s) ;;
           ab_loop_max (min_value f) s moves NegInf alpha beta
       end)%M
  end
with min_value (fuel : nat) (s : BoardMeta) (alpha beta : AB.Value)
         {struct fuel} : M AB.Value :=
  match fuel with
  | 0%nat => raise RecursionError
  | S f =>
      (do_tick ;;;
       u <- lift (utility s) ;;
       match u with
       | Some u => mret (Fin u)
       | None =>
           moves <- lift (actions s) ;;
           ab_loop_min (max_value f) s moves PosInf alpha beta
       end)%M
  end.

Definition minimax_ab (fuel : nat) (state : BoardMeta) (instrument : option Instrument)
  : Res ((AB.Value * option Action) * Instrument) :=
  let instrument := prepare_sink instrument in
  (cur <- lift (player state) ;;
   match cur with
   | X =>
       moves <- lift (actions state) ;;
       ab_top_max (min_value fuel) state moves NegInf None NegInf PosInf
   | O =>
       moves <- lift (actions state) ;;
       ab_top_min (max_value fuel) state moves PosInf None NegInf PosInf
   end)%M instrument.
End SpecUnordered.

(** [x] is at most [y]. *)
Definition ext_le {A} `{Number A} (x y : ext A) : Prop := ext_ltb y x = false.

(** What a pruned evaluation with the window [(alpha, beta)] tells about
    the exact value: a returned value below [beta] is an upper bound of it,
    a returned value above [alpha] is a lower bound of it (so a value
    strictly inside the window is exact). *)
Definition window_sound {A} `{Number A} (alpha beta v exact : ext A) : Prop :=
  (ext_ltb v beta = true -> ext_le exact v) /\
  (ext_ltb alpha v = true -> ext_le v exact).

(** Every listed action is accepted and whatever the evaluation of its
    successor returns is sound for its window with respect to the exact
    value [exact a]. *)
Definition children_sound {A} `{Number A}
           (child : BoardMeta -> ext A -> ext A -> M (ext A))
           (s : BoardMeta) (exact : Action -> ext A) (moves : list Action) : Prop :=
  forall a, In a moves ->
    exists s', result s a = Ok s' /\
      forall alpha beta i w i',
        child s' alpha beta i = Ok (w, i') -> window_sound alpha beta w (exact a).

(** The other player. *)
Definition opponent (p : Mark) : Mark :=
  match p with
  | X => O
  | O => X
  end.

(** The grid of a state. *)
Definition board_of (state : BoardMeta) : Board := fst (fst state).

(** The number of marks on the grid. *)
Definition is_mark (c : Cell) : bool := negb (is_none c).

Definition marks (state : BoardMeta) : nat :=
  let '(board, m, k) := state in List.length (filter is_mark (List.concat board)).

(** The four directions of a line: along a row, down a column, down to the
    right and down to the left. *)
Definition directions : list (Z * Z) := [(0, 1); (1, 0); (1, 1); (1, -1)].

(** The player [p] has [k] marks in a row: from some cell and in some
    direction, the [k] cells of the line lie on the grid and all hold [p]. *)
Definition k_in_a_row (board : Board) (m k : Z) (p : Mark) : Prop :=
  exists r c dr dc,
    In (dr, dc) directions /\
    forall i, 0 <= i < k ->
      0 <= r + i * dr < m /\ 0 <= c + i * dc < m /\
      grid_get board (r + i * dr) (c + i * dc) = Some p.

(** The number of cells that the walk of a diagonal from [(r, c)] collects,
    and the column of its [i]-th cell. *)
Definition diag_len (d : diag_dir) (m r c : Z) : Z :=
  match d with
  | To_right => Z.min (m - r) (m - c)
  | To_left => Z.min (m - r) (c + 1)
  end.

Definition diag_col (d : diag_dir) (c i : Z) : Z :=
  match d with
  | To_right => c + i
  | To_left => c - i
  end.

(** The state in which every X is an O and every O an X. *)
Definition swap_cell (c : Cell) : Cell := option_map opponent c.

Definition swap_marks (state : BoardMeta) : BoardMeta :=
  let '(board, m, k) := state in (map (map swap_cell) board, m, k).

(** The integer [n] converts to a float. *)
Definition converts (n : Z) : bool :=
  match float_of_int n with
  | Ok _ => true
  | Err _ => false
  end.

(** The largest exponent [n] for which [10 ** n] converts to a float, and
    with it the largest board on which no window of [evaluate] can hold
    more equal marks. *)
Definition max_power : Z := 308.

(** A board of 309 x 309 cells whose first row is filled with X, in the
    game of 309 in a row: its first window holds 309 equal marks. *)
Definition long_row : BoardMeta :=
  (map (fun r => map (fun c => if r =? 0 then Some X else @None Mark) (range 309)) (range 309),
   309, 309).

(** A float that is a number: not a NaN. *)
Definition is_number (x : float) : Prop := x <> S754_nan.

(** A float that is finite: a zero or a finite number. *)
Definition is_finite (x : float) : bool :=
  match x with
  | S754_zero _ | S754_finite _ _ _ => true
  | _ => false
  end.

(** Two floats that are opposite: one is the negation of the other, or
    both are zeros (of either sign). *)
Definition opposite (x y : float) : Prop :=
  y = float_neg x \/ (float_is_zero x = true /\ float_is_zero y = true).

(** Two running pairs (total, windows) of [evaluate] with opposite totals
    and the same number of windows. *)
Definition mirrored (acc acc' : tally) : Prop :=
  opposite (fst acc) (fst acc') /\ snd acc' = snd acc.

(** A value of [minimax_ab] read as a value of [search]: [float(u)] for a
    utility [u], the infinities as they are; and the outcome of a node and
    of a whole search read in this way. *)
Definition as_float (v : ext Z) : ext Q :=
  match v with
  | NegInf => NegInf
  | Fin u => Fin (inject_Z u)
  | PosInf => PosInf
  end.

Definition float_node (r : Res (AB.Value * Instrument)) : Res (DL.Value * Instrument) :=
  match r with
  | Ok (v, i) => Ok (as_float v, i)
  | Err e => Err e
  end.

Definition float_answer (r : Res ((AB.Value * option Action) * Instrument))
  : Res ((DL.Value * option Action) * Instrument) :=
  match r with
  | Ok ((v, a), i) => Ok ((as_float v, a), i)
  | Err e => Err e
  end.

(** A search value that is a utility: -1, 0 or 1. *)
Definition is_utility (v : ext Z) : Prop := exists u, v = Fin u /\ -1 <= u <= 1.

(** A position in which X has won on the middle row and O, to move,
    completes the top row with (0,2). *)
Definition late_reply : BoardMeta :=
  ([[Some O; Some O; None]; [Some X; Some X; Some X]; [None; None; None]], 3, 3).

(** The first of a sequence of statements of a hypothesis: its result is
    named, the case of an exception is closed. *)
Ltac peel H a E :=
  match type of H with
  | rbind ?f _ = _ => destruct f as [a|?] eqn:E; simpl in H; [|discriminate]
  end.

(* ================================================================= *)
(** * Properties of the game rules *)

(** The functions of the program are unfolded by name only. *)
Arguments py_index : simpl never.
Arguments py_slice : simpl never.
Arguments cell_at : simpl never.
Arguments player : simpl never.
Arguments actions : simpl never.
Arguments result : simpl never.
Arguments winner : simpl never.
Arguments terminal : simpl never.
Arguments utility : simpl never.
Arguments evaluate : simpl never.
Arguments _order_moves : simpl never.
Arguments range : simpl never.
Arguments range_from : simpl never.
Arguments coords : simpl never.

(** ** Loops that do not raise *)

Lemma foldM_total {A S} (body : S -> A -> Res S) (xs : list A) :
  (forall acc x, In x xs -> exists acc', body acc x = Ok acc') ->
  forall acc, exists r, foldM body xs acc = Ok r.
Proof.
  induction xs as [|x xs IH]; intros Hbody acc; simpl.
  - now exists acc.
  - destruct (Hbody acc x (or_introl eq_refl)) as [acc' ->]. simpl.
    apply IH. intros; apply Hbody; now right.
Qed.

Lemma mapM_total {A B} (f : A -> Res B) (xs : list A) :
  (forall x, In x xs -> exists y, f x = Ok y) ->
  exists ys, mapM f xs = Ok ys /\ List.length ys = List.length xs.
Proof.
  induction xs as [|x xs IH]; intros Hf; simpl.
  - now exists [].
  - destruct (Hf x (or_introl eq_refl)) as [y ->]. simpl.
    destruct IH as [ys [-> Hlen]]; [intros; apply Hf; now right|].
    simpl. exists (y :: ys). simpl. now rewrite Hlen.
Qed.

Lemma for_return_total {A R} (xs : list A) (body : A -> Res (option R)) :
  (forall x, In x xs -> exists o, body x = Ok o) ->
  exists o, for_return xs body = Ok o.
Proof.
  induction xs as [|x xs IH]; intros Hbody; simpl.
  - now exists None.
  - destruct (Hbody x (or_introl eq_refl)) as [o ->]. simpl.
    destruct o as [v|]; [now exists (Some v)|].
    apply IH. intros; apply Hbody; now right.
Qed.

Lemma or_else_total {R} (first : Res (option R)) next :
  (exists o, first = Ok o) -> (exists o, next tt = Ok o) ->
  exists o, or_else first next = Ok o.
Proof.
  intros [o ->] Hn. unfold or_else. simpl. destruct o as [v|]; [now exists (Some v)|exact Hn].
Qed.

(** ** Ranges *)

Lemma in_range (n i : Z) : In i (range n) <-> 0 <= i < n.
Proof.
  unfold range. rewrite in_map_iff. split.
  - intros [j [<- Hj]]. apply in_seq in Hj. lia.
  - intros H. exists (Z.to_nat i). split; [lia|]. apply in_seq. lia.
Qed.

Lemma in_range_from (a b i : Z) : In i (range_from a b) <-> a <= i < b.
Proof.
  unfold range_from. rewrite in_map_iff. split.
  - intros [j [<- Hj]]. apply in_seq in Hj. lia.
  - intros H. exists (Z.to_nat (i - a)). split; [lia|]. apply in_seq. lia.
Qed.

Lemma in_coords (m : Z) (a : Action) :
  In a (coords m) <-> (0 <= fst a < m /\ 0 <= snd a < m).
Proof.
  unfold coords. rewrite in_flat_map. split.
  - intros [r [Hr Hin]]. apply in_map_iff in Hin as [c [<- Hc]].
    apply in_range in Hr. apply in_range in Hc. simpl. lia.
  - intros [Hr Hc]. exists (fst a). split; [now apply in_range|].
    apply in_map_iff. exists (snd a). split; [now destruct a|now apply in_range].
Qed.

(** ** Well-formed states: an [m] x [m] grid *)



Lemma py_index_in_range {A} (l : list A) (i : Z) (d : A) :
  0 <= i < len l -> py_index l i = Ok (nth (Z.to_nat i) l d).
Proof.
  intros H. unfold py_index.
  destruct (i <? 0) eqn:E; [lia|].
  replace ((0 <=? i) && (i <? len l)) with true by (symmetry; apply andb_true_iff; lia).
  unfold len in H.
  destruct (nth_error l (Z.to_nat i)) eqn:En.
  - f_equal. symmetry. now apply nth_error_nth.
  - apply nth_error_None in En. lia.
Qed.

Lemma wf_row board m k r :
  wf (board, m, k) -> 0 <= r < m ->
  py_index board r = Ok (nth (Z.to_nat r) board []) /\
  List.length (nth (Z.to_nat r) board []) = Z.to_nat m.
Proof.
  intros [Hlen Hrows] Hr. split.
  - apply py_index_in_range. unfold len. lia.
  - rewrite Forall_forall in Hrows. apply Hrows. apply nth_In. lia.
Qed.

Lemma cell_at_wf board m k r c :
  wf (board, m, k) -> 0 <= r < m -> 0 <= c < m ->
  cell_at board r c = Ok (grid_get board r c).
Proof.
  intros Hwf Hr Hc. unfold cell_at, grid_get.
  destruct (wf_row _ _ _ _ Hwf Hr) as [-> Hlen]. simpl.
  apply py_index_in_range. unfold len. lia.
Qed.

(** ** [set_nth] *)

Lemma set_nth_length {A} (l : list A) n x : List.length (set_nth l n x) = List.length l.
Proof.
  revert n; induction l as [|y l IH]; intros [|n]; simpl; auto.
Qed.

Lemma nth_set_nth_eq {A} (l : list A) n x d :
  (n < List.length l)%nat -> nth n (set_nth l n x) d = x.
Proof.
  revert n; induction l as [|y l IH]; intros [|n] H; simpl in *; try lia; auto.
  apply IH; lia.
Qed.

Lemma nth_set_nth_neq {A} (l : list A) n n' x d :
  n <> n' -> nth n' (set_nth l n x) d = nth n' l d.
Proof.
  revert n n'; induction l as [|y l IH]; intros [|n] [|n'] H; simpl; auto; try congruence.
Qed.

(** ** The number of empty cells *)



Lemma count_none_app l1 l2 : count_none (l1 ++ l2) = (count_none l1 + count_none l2)%nat.
Proof. unfold count_none. now rewrite filter_app, length_app. Qed.

Lemma count_none_fill (row : list Cell) (n : nat) (p : Mark) :
  (n < List.length row)%nat -> nth n row None = None ->
  S (count_none (set_nth row n (Some p))) = count_none row.
Proof.
  revert n; induction row as [|x row IH]; intros [|n] Hlen Hnth; simpl in *; try lia.
  - subst x. reflexivity.
  - unfold count_none in *. simpl. destruct (is_none x); simpl;
      rewrite <- (IH n) by (auto; lia); reflexivity.
Qed.

Lemma count_none_set_row (board : Board) (n : nat) (row' : list Cell) :
  (n < List.length board)%nat ->
  (count_none (List.concat (set_nth board n row')) + count_none (nth n board []))%nat
  = (count_none (List.concat board) + count_none row')%nat.
Proof.
  revert n; induction board as [|row board IH]; intros [|n] Hlen; simpl in *; try lia.
  - rewrite !count_none_app. lia.
  - rewrite !count_none_app. specialize (IH n). lia.
Qed.

(** ** [player], [actions] and [result] on a well-formed state *)


Lemma player_total state : wf state -> exists p, player state = Ok p.
Proof.
  destruct state as [[board m] k]. intros Hwf.
  destruct (@foldM_total (Z * Z) Z
              (fun n rc => x <- cell_at board (fst rc) (snd rc) ;;
                           Ok (if is_none x then n else n + 1))
              (coords m)) with (acc := 0) as [filled Hfold].
  - intros acc x Hx. apply in_coords in Hx as [Hr Hc].
    rewrite (cell_at_wf _ _ _ _ _ Hwf Hr Hc). simpl. eauto.
  - unfold player; cbv beta iota. rewrite Hfold. simpl. eauto.
Qed.

Lemma scan_empty_cells board m k (xs : list Action) :
  wf (board, m, k) ->
  (forall a, In a xs -> In a (coords m)) ->
  forall acc,
    foldM (fun acc rc => x <- cell_at board (fst rc) (snd rc) ;;
                         Ok (if is_none x then acc ++ [rc] else acc)) xs acc
    = Ok (acc ++ filter (fun rc => is_none (grid_get board (fst rc) (snd rc))) xs).
Proof.
  intros Hwf. induction xs as [|x xs IH]; intros Hin acc; simpl.
  - now rewrite app_nil_r.
  - destruct (proj1 (in_coords m x) (Hin x (or_introl eq_refl))) as [Hr Hc].
    rewrite (cell_at_wf _ _ _ _ _ Hwf Hr Hc). simpl.
    rewrite IH by (intros; apply Hin; now right).
    destruct (is_none (grid_get board (fst x) (snd x))); [now rewrite <- app_assoc|reflexivity].
Qed.

Lemma actions_wf board m k :
  wf (board, m, k) -> actions (board, m, k) = Ok (sort_actions (empty_cells board m)).
Proof.
  intros Hwf. unfold actions.
  unfold actions. rewrite (scan_empty_cells _ _ _ (coords m) Hwf) by auto. reflexivity.
Qed.

Lemma insert_action_perm a l : Permutation (insert_action a l) (a :: l).
Proof.
  induction l as [|b l IH]; simpl; [reflexivity|].
  destruct (action_ltb b a); [|reflexivity].
  rewrite IH. apply perm_swap.
Qed.

Lemma sort_actions_perm l : Permutation (sort_actions l) l.
Proof.
  induction l as [|a l IH]; simpl; [reflexivity|].
  rewrite insert_action_perm. now constructor.
Qed.

(** A legal action of a well-formed state names an empty cell of the grid. *)
Lemma actions_legal board m k moves a :
  wf (board, m, k) -> actions (board, m, k) = Ok moves ->
  (In a moves <->
   (0 <= fst a < m /\ 0 <= snd a < m /\ grid_get board (fst a) (snd a) = None)).
Proof.
  intros Hwf Hacts. rewrite (actions_wf _ _ _ Hwf) in Hacts. injection Hacts as <-.
  split.
  - intros Hin. apply (Permutation_in _ (sort_actions_perm _)) in Hin.
    apply filter_In in Hin as [Hc Hn]. apply in_coords in Hc as [Hr Hc].
    repeat split; try lia. destruct (grid_get board (fst a) (snd a)); [discriminate|reflexivity].
  - intros (Hr & Hc & Hn). apply (Permutation_in _ (Permutation_sym (sort_actions_perm _))).
    apply filter_In. split; [now apply in_coords|]. now rewrite Hn.
Qed.


Lemma result_legal board m k r c :
  wf (board, m, k) -> 0 <= r < m -> 0 <= c < m -> grid_get board r c = None ->
  exists p, player (board, m, k) = Ok p /\
            result (board, m, k) (r, c) = Ok (place board r c p, m, k).
Proof.
  intros Hwf Hr Hc Hn. destruct (player_total _ Hwf) as [p Hp]. exists p. split; [exact Hp|].
  unfold result.
  replace ((0 <=? r) && (r <? m) && (0 <=? c) && (c <? m)) with true
    by (symmetry; rewrite !andb_true_iff; lia).
  simpl negb. cbv iota.
  rewrite (cell_at_wf _ _ _ _ _ Hwf Hr Hc), Hn. simpl.
  rewrite Hp. simpl.
  destruct (wf_row _ _ _ _ Hwf Hr) as [-> _]. reflexivity.
Qed.

Lemma place_wf board m k r c p :
  wf (board, m, k) -> wf (place board r c p, m, k).
Proof.
  intros [Hlen Hrows]. unfold place. split.
  - now rewrite set_nth_length.
  - rewrite Forall_forall in *. intros row Hin.
    destruct (In_nth _ _ [] Hin) as [n [Hn Hrow]].
    rewrite set_nth_length in Hn.
    destruct (Nat.eq_dec (Z.to_nat r) n) as [Heq|Hne].
    + subst n. rewrite nth_set_nth_eq in Hrow by auto. subst row.
      rewrite set_nth_length. apply Hrows. now apply nth_In.
    + rewrite nth_set_nth_neq in Hrow by auto. subst row.
      apply Hrows. now apply nth_In.
Qed.

Lemma place_empties board m k r c p :
  wf (board, m, k) -> 0 <= r < m -> 0 <= c < m -> grid_get board r c = None ->
  S (empties (place board r c p, m, k)) = empties (board, m, k).
Proof.
  intros Hwf Hr Hc Hn. unfold empties, place.
  destruct (wf_row _ _ _ _ Hwf Hr) as [_ Hlen]. destruct Hwf as [Hb _].
  pose proof (count_none_set_row board (Z.to_nat r)
                (set_nth (nth (Z.to_nat r) board []) (Z.to_nat c) (Some p))) as H1.
  pose proof (count_none_fill (nth (Z.to_nat r) board []) (Z.to_nat c) p) as H2.
  unfold grid_get in Hn. specialize (H1 ltac:(lia)). specialize (H2 ltac:(lia) Hn). lia.
Qed.

(** Playing a legal action succeeds, keeps the grid well formed and fills
    exactly one empty cell. *)
Lemma result_of_action state moves a :
  wf state -> actions state = Ok moves -> In a moves ->
  exists s', result state a = Ok s' /\ wf s' /\ S (empties s') = empties state.
Proof.
  destruct state as [[board m] k]. intros Hwf Hacts Hin.
  apply (actions_legal _ _ _ _ a Hwf Hacts) in Hin as (Hr & Hc & Hn).
  destruct a as [r c]. simpl in Hr, Hc, Hn.
  destruct (result_legal _ _ _ _ _ Hwf Hr Hc Hn) as [p [_ Hres]].
  exists (place board r c p, m, k). split; [exact Hres|]. split.
  - now apply place_wf.
  - now apply place_empties.
Qed.

(** A move leaves the parameters of the game as they are. *)
Lemma result_game state a s' : result state a = Ok s' -> game_of s' = game_of state.
Proof.
  destruct state as [[board m] k], a as [r c]. unfold result. intros H.
  destruct (negb ((0 <=? r) && (r <? m) && (0 <=? c) && (c <? m))); [discriminate|].
  destruct (cell_at board r c) as [x|]; simpl in H; [|discriminate].
  destruct (negb (is_none x)); [discriminate|].
  destruct (player (board, m, k)) as [cur|]; simpl in H; [|discriminate].
  destruct (py_index board r) as [row|]; simpl in H; [|discriminate].
  injection H as <-. reflexivity.
Qed.

(** ** [winner], [terminal] and [utility] on a well-formed state *)

Lemma walk_diag_total board m k d :
  wf (board, m, k) ->
  forall steps r c,
    0 <= r ->
    match d with To_right => 0 <= c | To_left => c < m end ->
    exists l, walk_diag steps d board m r c = Ok l.
Proof.
  intros Hwf. induction steps as [|n IH]; intros r c Hr Hc; simpl.
  - now exists [].
  - destruct (diag_guard d m r c) eqn:Hg; [|now exists []].
    assert (Hin : 0 <= r < m /\ 0 <= c < m).
    { destruct d; simpl in Hg; apply andb_true_iff in Hg as [H1 H2]; lia. }
    destruct Hin as [Hr' Hc'].
    rewrite (cell_at_wf _ _ _ _ _ Hwf Hr' Hc'). simpl.
    destruct (IH (r + 1) (diag_step d c)) as [rest ->].
    + lia.
    + destruct d; simpl; lia.
    + simpl. eauto.
Qed.

Lemma line_scan_total m k line : exists o, line_scan m k line = Ok o.
Proof.
  unfold line_scan. apply for_return_total. intros s _.
  destruct (len (py_slice line s (s + k)) =? k); eauto.
Qed.

Lemma diag_scan_total k diag : exists o, diag_scan k diag = Ok o.
Proof.
  unfold diag_scan. destruct (len diag >=? k); [|eauto].
  apply for_return_total. intros s _. eauto.
Qed.

Lemma diag_loop_total board m k d (starts : list Z) (row_of col_of : Z -> Z) :
  wf (board, m, k) ->
  (forall s, In s starts ->
             0 <= row_of s /\
             match d with To_right => 0 <= col_of s | To_left => col_of s < m end) ->
  exists o, for_return starts
              (fun s => diag <- diag_from d board m (row_of s) (col_of s) ;;
                        diag_scan k diag) = Ok o.
Proof.
  intros Hwf Hst. apply for_return_total. intros s Hs.
  destruct (Hst s Hs) as [Hr Hc]. unfold diag_from.
  destruct (walk_diag_total _ _ _ d Hwf (Z.to_nat m) _ _ Hr Hc) as [l ->]. simpl.
  apply diag_scan_total.
Qed.

Lemma winner_total state : wf state -> exists w, winner state = Ok w.
Proof.
  destruct state as [[board m] k]. intros Hwf. unfold winner.
  repeat apply or_else_total.
  - apply for_return_total. intros r Hr. apply in_range in Hr.
    destruct (wf_row _ _ _ _ Hwf Hr) as [-> _]. simpl. apply line_scan_total.
  - apply for_return_total. intros c Hc. apply in_range in Hc.
    destruct (mapM_total (fun r => cell_at board r c) (range m)) as [col [-> _]].
    + intros r Hr. apply in_range in Hr.
      rewrite (cell_at_wf _ _ _ _ _ Hwf Hr Hc). eauto.
    + simpl. apply line_scan_total.
  - apply (diag_loop_total board m k To_right (range m) (fun _ => 0) (fun s => s) Hwf).
    intros s Hs. apply in_range in Hs. lia.
  - apply (diag_loop_total board m k To_right (range_from 1 m) (fun s => s) (fun _ => 0) Hwf).
    intros s Hs. apply in_range_from in Hs. lia.
  - apply (diag_loop_total board m k To_left (range m) (fun _ => 0) (fun s => s) Hwf).
    intros s Hs. apply in_range in Hs. lia.
  - apply (diag_loop_total board m k To_left (range_from 1 m) (fun s => s) (fun _ => m - 1) Hwf).
    intros s Hs. apply in_range_from in Hs. lia.
Qed.

Lemma terminal_total state : wf state -> exists t, terminal state = Ok t.
Proof.
  intros Hwf. unfold terminal. destruct (winner_total _ Hwf) as [w ->]. simpl.
  destruct w as [p|]; [eauto|].
  destruct state as [[board m] k].
  destruct (for_return_total (coords m)
              (fun rc => x <- cell_at board (fst rc) (snd rc) ;;
                         Ok (if is_none x then Some false else None))) as [found ->].
  - intros a Ha. apply in_coords in Ha as [Hr Hc].
    rewrite (cell_at_wf _ _ _ _ _ Hwf Hr Hc). simpl. eauto.
  - simpl. destruct found; eauto.
Qed.

Lemma utility_total state : wf state -> exists u, utility state = Ok u.
Proof.
  intros Hwf. unfold utility. destruct (winner_total _ Hwf) as [w ->]. simpl.
  destruct w as [[|]|]; eauto.
  destruct (terminal_total _ Hwf) as [t ->]. simpl. destruct t; eauto.
Qed.

Lemma actions_total state : wf state -> exists moves, actions state = Ok moves.
Proof.
  destruct state as [[board m] k]. intros Hwf. rewrite (actions_wf _ _ _ Hwf). eauto.
Qed.

(* ================================================================= *)
(** * Properties of the move ordering *)

Lemma Qltb_lt (x y : Q) : Qltb x y = true <-> (x < y)%Q.
Proof.
  unfold Qltb. rewrite Qlt_alt. destruct (x ?= y)%Q; split; congruence.
Qed.

Lemma Qltb_ge (x y : Q) : Qltb x y = false <-> (y <= x)%Q.
Proof.
  split.
  - intros H. apply Qnot_lt_le. intros Hlt. apply Qltb_lt in Hlt. congruence.
  - intros H. destruct (Qltb x y) eqn:E; [|reflexivity].
    apply Qltb_lt in E. now apply Qle_not_lt in H.
Qed.

Lemma Qeq_bool_neq' (x y : Q) : Qeq_bool x y = false <-> ~ (x == y)%Q.
Proof.
  split.
  - intros H Heq. apply Qeq_bool_iff in Heq. congruence.
  - intros H. destruct (Qeq_bool x y) eqn:E; [|reflexivity].
    apply Qeq_bool_iff in E. contradiction.
Qed.



Lemma action_ltb_lt a b : action_ltb a b = true <-> action_lt a b.
Proof.
  unfold action_ltb, action_lt.
  rewrite orb_true_iff, andb_true_iff, !Z.ltb_lt, Z.eqb_eq. tauto.
Qed.

Lemma number_ltb_lt (x y : ext Q) : ext_ltb x y = true <-> number_lt x y.
Proof.
  destruct x, y; simpl; try tauto; try (split; [discriminate|contradiction]).
  apply Qltb_lt.
Qed.

Lemma number_eqb_eq (x y : ext Q) : ext_eqb x y = true <-> number_eq x y.
Proof.
  destruct x, y; simpl; try tauto; try (split; [discriminate|contradiction]).
  apply Qeq_bool_iff.
Qed.

Lemma number_lt_irrefl (x : ext Q) : ~ number_lt x x.
Proof. destruct x; simpl; try tauto. apply Qlt_irrefl. Qed.

Lemma number_lt_trans (x y z : ext Q) : number_lt x y -> number_lt y z -> number_lt x z.
Proof. destruct x, y, z; simpl; try tauto. apply Qlt_trans. Qed.

Lemma number_lt_negtrans (x y z : ext Q) :
  ~ number_lt x y -> ~ number_lt y z -> ~ number_lt x z.
Proof.
  destruct x, y, z; simpl; try tauto.
  intros H1 H2 H3. apply Qnot_lt_le in H1, H2.
  apply (Qlt_irrefl a). apply (Qlt_le_trans _ _ _ H3). now apply (Qle_trans _ a0).
Qed.

Lemma number_eq_lt (x y : ext Q) : number_eq x y -> ~ number_lt x y /\ ~ number_lt y x.
Proof.
  destruct x, y; simpl; try tauto.
  intros H. rewrite H. split; apply Qlt_irrefl.
Qed.

Lemma number_eq_total (x y : ext Q) : ~ number_lt x y -> ~ number_lt y x -> number_eq x y.
Proof.
  destruct x, y; simpl; try tauto.
  intros H1 H2. apply Qnot_lt_le in H1, H2. now apply Qle_antisym.
Qed.

Lemma key_ltb_lt x y : key_ltb x y = true <-> key_lt x y.
Proof.
  destruct x as [[b1 p1] a1], y as [[b2 p2] a2]. unfold key_ltb, key_lt.
  destruct (Z.eqb_spec b1 b2) as [Hb|Hb]; simpl.
  - destruct (ext_eqb p1 p2) eqn:Hq; simpl.
    + apply number_eqb_eq in Hq. rewrite action_ltb_lt. split.
      * intros H. right. split; [exact Hb|]. right. now split.
      * intros [H|[_ [H|[_ H]]]]; [lia| |exact H].
        now destruct (number_eq_lt _ _ Hq).
    + rewrite number_ltb_lt. split.
      * intros H. right. split; [exact Hb|]. now left.
      * intros [H|[_ [H|[H _]]]]; [lia|exact H|].
        apply number_eqb_eq in H. congruence.
  - rewrite Z.ltb_lt. split; [now left|]. intros [H|[H _]]; [exact H|contradiction].
Qed.

Lemma action_lt_asym a b : action_lt a b -> ~ action_lt b a.
Proof. unfold action_lt. lia. Qed.

Lemma action_lt_trans a b c : action_lt a b -> action_lt b c -> action_lt a c.
Proof. unfold action_lt. lia. Qed.

Lemma action_lt_negtrans a b c : ~ action_lt a b -> ~ action_lt b c -> ~ action_lt a c.
Proof. unfold action_lt. lia. Qed.

Lemma action_lt_total (a b : Action) : ~ action_lt a b -> ~ action_lt b a -> a = b.
Proof. destruct a, b. unfold action_lt. simpl. intros H1 H2. f_equal; lia. Qed.

Lemma key_lt_asym x y : key_lt x y -> ~ key_lt y x.
Proof.
  destruct x as [[b1 p1] a1], y as [[b2 p2] a2]. unfold key_lt.
  intros [H|[Hb [H|[Hq H]]]] [H'|[Hb' [H'|[Hq' H']]]]; try lia.
  - exact (number_lt_irrefl _ (number_lt_trans _ _ _ H H')).
  - now destruct (number_eq_lt _ _ Hq').
  - now destruct (number_eq_lt _ _ Hq).
  - exact (action_lt_asym _ _ H H').
Qed.

Lemma key_lt_negtrans x y z : ~ key_lt x y -> ~ key_lt y z -> ~ key_lt x z.
Proof.
  destruct x as [[b1 p1] a1], y as [[b2 p2] a2], z as [[b3 p3] a3]. unfold key_lt.
  intros Hxy Hyz Hxz.
  assert (Hb12 : b2 <= b1) by (apply Z.nlt_ge; intro; apply Hxy; now left).
  assert (Hb23 : b3 <= b2) by (apply Z.nlt_ge; intro; apply Hyz; now left).
  destruct Hxz as [H|[Hb Hxz]]; [lia|].
  assert (b1 = b2) by lia. assert (b2 = b3) by lia.
  assert (Hp12 : ~ number_lt p1 p2).
  { intro. apply Hxy. right. split; [assumption|]. now left. }
  assert (Hp23 : ~ number_lt p2 p3).
  { intro. apply Hyz. right. split; [assumption|]. now left. }
  destruct Hxz as [H'|[Hq Ha]].
  - exact (number_lt_negtrans _ _ _ Hp12 Hp23 H').
  - destruct (number_eq_lt _ _ Hq) as [Hq1 Hq2].
    assert (Hq12 : number_eq p1 p2).
    { apply number_eq_total; [exact Hp12|].
      exact (number_lt_negtrans p2 p3 p1 Hp23 Hq2). }
    assert (Hq23 : number_eq p2 p3).
    { apply number_eq_total; [exact Hp23|].
      exact (number_lt_negtrans p3 p1 p2 Hq2 Hp12). }
    apply (action_lt_negtrans a1 a2 a3); [| |exact Ha].
    + intro. apply Hxy. right. split; [assumption|]. right. now split.
    + intro. apply Hyz. right. split; [assumption|]. right. now split.
Qed.

(** Two keys neither of which is below the other belong to the same
    action. *)
Lemma key_lt_total x y : ~ key_lt x y -> ~ key_lt y x -> snd x = snd y.
Proof.
  destruct x as [[b1 p1] a1], y as [[b2 p2] a2]. unfold key_lt. simpl.
  intros Hxy Hyx.
  assert (b1 = b2).
  { apply Z.le_antisymm; apply Z.nlt_ge; intro; [apply Hyx|apply Hxy]; now left. }
  assert (Hp12 : ~ number_lt p1 p2).
  { intro. apply Hxy. right. split; [assumption|]. now left. }
  assert (Hp21 : ~ number_lt p2 p1).
  { intro. apply Hyx. right. split; [now symmetry|]. now left. }
  pose proof (number_eq_total _ _ Hp12 Hp21) as Hq.
  pose proof (number_eq_total _ _ Hp21 Hp12) as Hq'.
  apply action_lt_total.
  - intro. apply Hxy. right. split; [assumption|]. right. now split.
  - intro. apply Hyx. right. split; [now symmetry|]. right. now split.
Qed.


Lemma key_le_of_lt x y : key_ltb x y = true -> key_le x y.
Proof.
  intros H. unfold key_le. destruct (key_ltb y x) eqn:E; [|reflexivity].
  apply key_ltb_lt in H, E. now destruct (key_lt_asym _ _ H).
Qed.

Lemma key_le_trans x y z : key_le x y -> key_le y z -> key_le x z.
Proof.
  unfold key_le. intros Hxy Hyz.
  destruct (key_ltb z x) eqn:E; [|reflexivity]. exfalso.
  apply key_ltb_lt in E. revert E. apply (key_lt_negtrans z y x).
  - rewrite <- key_ltb_lt. congruence.
  - rewrite <- key_ltb_lt. congruence.
Qed.

Lemma insert_keyed_perm x l : Permutation (insert_keyed x l) (x :: l).
Proof.
  induction l as [|y l IH]; simpl; [reflexivity|].
  destruct (key_ltb (fst y) (fst x)); [|reflexivity].
  rewrite IH. apply perm_swap.
Qed.

Lemma sort_keyed_perm l : Permutation (fold_right insert_keyed [] l) l.
Proof.
  induction l as [|x l IH]; simpl; [reflexivity|].
  rewrite insert_keyed_perm. now constructor.
Qed.

Lemma insert_keyed_sorted x l :
  StronglySorted (fun u v => key_le (fst u) (fst v)) l ->
  StronglySorted (fun u v => key_le (fst u) (fst v)) (insert_keyed x l).
Proof.
  induction l as [|y l IH]; intros Hs; simpl.
  - repeat constructor.
  - apply StronglySorted_inv in Hs as [Hs Hall].
    destruct (key_ltb (fst y) (fst x)) eqn:E.
    + constructor; [now apply IH|].
      apply (Permutation_Forall (Permutation_sym (insert_keyed_perm x l))).
      constructor; [now apply key_le_of_lt|exact Hall].
    + constructor; [now constructor|].
      constructor; [exact E|].
      rewrite Forall_forall in *. intros z Hz.
      apply (key_le_trans _ (fst y)); [exact E|now apply Hall].
Qed.

Lemma sort_keyed_sorted l :
  StronglySorted (fun u v => key_le (fst u) (fst v)) (fold_right insert_keyed [] l).
Proof.
  induction l as [|x l IH]; simpl; [constructor|now apply insert_keyed_sorted].
Qed.

Lemma sort_by_key_perm key l : Permutation l (sort_by_key key l).
Proof.
  unfold sort_by_key. symmetry.
  rewrite (Permutation_map snd (sort_keyed_perm _)).
  rewrite map_map. simpl. now rewrite map_id.
Qed.

Lemma sort_by_key_sorted key l :
  StronglySorted (fun a b => key_le (key a) (key b)) (sort_by_key key l).
Proof.
  unfold sort_by_key.
  pose proof (sort_keyed_sorted (map (fun a => (key a, a)) l)) as Hs.
  assert (Hdec : Forall (fun u : Key * Action => fst u = key (snd u))
                        (fold_right insert_keyed [] (map (fun a => (key a, a)) l))).
  { apply (Permutation_Forall (Permutation_sym (sort_keyed_perm _))).
    apply Forall_forall. intros u Hu. apply in_map_iff in Hu as [a [<- _]]. reflexivity. }
  induction Hs as [|u r Hs IH Hall]; simpl; [constructor|].
  apply Forall_cons_iff in Hdec as [Hu Hdec].
  constructor; [now apply IH|].
  rewrite Forall_forall in *. intros b Hb. apply in_map_iff in Hb as [v [<- Hv]].
  rewrite <- Hu, <- (Hdec v Hv). now apply Hall.
Qed.

(* ================================================================= *)
(** * Properties of the searches *)

(** ** The sink as a counter *)


Lemma bump_0 i : bump i 0 = i.
Proof. destruct i as [c]. unfold bump. simpl. f_equal. lia. Qed.

Lemma bump_bump i a b : bump (bump i a) b = bump i (a + b).
Proof. unfold bump. simpl. f_equal. lia. Qed.

Lemma tick_bump i : tick i = bump i 1.
Proof. reflexivity. Qed.




Lemma steady_run {A} (d : A) (m : M A) :
  steady m -> forall i, m i = Ok (value_of d m, bump i (count_of m)).
Proof.
  intros (v & n & _ & Hm) i. unfold value_of, count_of.
  rewrite (Hm Instrument_new), Hm. simpl. reflexivity.
Qed.

Lemma steady_count_nonneg {A} (m : M A) : steady m -> 0 <= count_of m.
Proof.
  intros (v & n & Hn & Hm). unfold count_of. rewrite Hm. simpl. exact Hn.
Qed.



Lemma total_perm f l l' : Permutation l l' -> total f l = total f l'.
Proof.
  unfold total. induction 1; simpl; lia.
Qed.

Lemma total_nonneg f l : (forall a, In a l -> 0 <= f a) -> 0 <= total f l.
Proof.
  unfold total. induction l as [|a l IH]; intros H; simpl; [lia|].
  specialize (H a (or_introl eq_refl)) as Ha.
  specialize (IH (fun b Hb => H b (or_intror Hb))). lia.
Qed.

(** ** The loops of [minimax] *)

Section PlainLoops.
Context {A : Type} `{Number A}.
Variable child : BoardMeta -> M (ext A).
Variable s : BoardMeta.

Lemma children_steady_tail a moves :
  children_steady child s (a :: moves) -> children_steady child s moves.
Proof. intros Hc b Hb. apply Hc. now right. Qed.

Lemma child_step a moves :
  children_steady child s (a :: moves) ->
  exists s', result s a = Ok s' /\
             (forall i, child s' i = Ok (child_value child s a, bump i (child_count child s a))) /\ 0 <= child_count child s a.
Proof.
  intros Hc. destruct (Hc a (or_introl eq_refl)) as (s' & Hres & Hst).
  exists s'. split; [exact Hres|].
  unfold child_value, child_count, succ_state. rewrite Hres.
  split; [now apply steady_run|now apply steady_count_nonneg].
Qed.

Lemma plain_loop_max_run moves :
  children_steady child s moves ->
  forall v i,
    plain_loop_max child s moves v i
    = Ok (fold_left (fun v a => ext_max v (child_value child s a)) moves v, bump i (total (child_count child s) moves)).
Proof.
  induction moves as [|a moves IH]; intros Hc v i.
  - simpl. unfold mret, total. simpl. now rewrite bump_0.
  - destruct (child_step a moves Hc) as (s' & Hres & Hrun & _).
    simpl. unfold mbind, lift. rewrite Hres, Hrun.
    rewrite (IH (children_steady_tail _ _ Hc)).
    unfold total. simpl. now rewrite bump_bump.
Qed.

Lemma plain_loop_min_run moves :
  children_steady child s moves ->
  forall v i,
    plain_loop_min child s moves v i
    = Ok (fold_left (fun v a => ext_min v (child_value child s a)) moves v, bump i (total (child_count child s) moves)).
Proof.
  induction moves as [|a moves IH]; intros Hc v i.
  - simpl. unfold mret, total. simpl. now rewrite bump_0.
  - destruct (child_step a moves Hc) as (s' & Hres & Hrun & _).
    simpl. unfold mbind, lift. rewrite Hres, Hrun.
    rewrite (IH (children_steady_tail _ _ Hc)).
    unfold total. simpl. now rewrite bump_bump.
Qed.

Lemma plain_top_max_run moves :
  children_steady child s moves ->
  forall bv ba i,
  exists r, plain_top_max child s moves bv ba i = Ok (r, bump i (total (child_count child s) moves)).
Proof.
  induction moves as [|a moves IH]; intros Hc bv ba i.
  - simpl. unfold mret, total. simpl. rewrite bump_0. eauto.
  - destruct (child_step a moves Hc) as (s' & Hres & Hrun & _).
    simpl. unfold mbind, lift. rewrite Hres, Hrun.
    unfold total. simpl. rewrite <- bump_bump.
    destruct (improves_max (child_value child s a) a bv ba); apply (IH (children_steady_tail _ _ Hc)).
Qed.

Lemma plain_top_min_run moves :
  children_steady child s moves ->
  forall bv ba i,
  exists r, plain_top_min child s moves bv ba i = Ok (r, bump i (total (child_count child s) moves)).
Proof.
  induction moves as [|a moves IH]; intros Hc bv ba i.
  - simpl. unfold mret, total. simpl. rewrite bump_0. eauto.
  - destruct (child_step a moves Hc) as (s' & Hres & Hrun & _).
    simpl. unfold mbind, lift. rewrite Hres, Hrun.
    unfold total. simpl. rewrite <- bump_bump.
    destruct (improves_min (child_value child s a) a bv ba); apply (IH (children_steady_tail _ _ Hc)).
Qed.
End PlainLoops.

(** ** The nodes of [minimax] *)

Lemma MM_max_value_eq f s :
  MM.max_value (S f) s
  = (do_tick ;;;
     u <- lift (utility s) ;;
     match u with
     | Some u => mret (Fin u)
     | None => moves <- lift (actions s) ;; plain_loop_max (MM.min_value f) s moves NegInf
     end)%M.
Proof. reflexivity. Qed.

Lemma MM_min_value_eq f s :
  MM.min_value (S f) s
  = (do_tick ;;;
     u <- lift (utility s) ;;
     match u with
     | Some u => mret (Fin u)
     | None => moves <- lift (actions s) ;; plain_loop_min (MM.max_value f) s moves PosInf
     end)%M.
Proof. reflexivity. Qed.

(** A terminal node returns its utility after one tick. *)
Lemma MM_terminal_node f s u :
  utility s = Ok (Some u) ->
  forall i, MM.max_value (S f) s i = Ok (Fin u, tick i) /\
            MM.min_value (S f) s i = Ok (Fin u, tick i).
Proof.
  intros Hu i. rewrite MM_max_value_eq, MM_min_value_eq.
  unfold mbind, do_tick, lift, mret. rewrite Hu. split; reflexivity.
Qed.

(** The successors of a well-formed state are well formed and have one
    empty cell less. *)
Lemma children_steady_of {A} (child : BoardMeta -> M (ext A)) n s moves :
  wf s -> actions s = Ok moves -> (empties s <= n)%nat ->
  (forall s', wf s' -> (empties s' < n)%nat -> steady (child s')) ->
  children_steady child s moves.
Proof.
  intros Hwf Hacts Hn Hchild a Ha.
  destruct (result_of_action s moves a Hwf Hacts Ha) as (s' & Hres & Hwf' & He).
  exists s'. split; [exact Hres|]. apply Hchild; [exact Hwf'|lia].
Qed.

Lemma MM_steady fuel :
  forall s, wf s -> (empties s < fuel)%nat ->
            steady (MM.max_value fuel s) /\ steady (MM.min_value fuel s).
Proof.
  induction fuel as [|f IH]; intros s Hwf Hfuel; [lia|].
  destruct (utility_total s Hwf) as [u Hu].
  destruct u as [u|].
  - split; exists (Fin u), 1; (split; [lia|]); intros i;
      apply (MM_terminal_node f s u Hu i).
  - destruct (actions_total s Hwf) as [moves Hacts].
    split.
    + assert (Hc : children_steady (MM.min_value f) s moves).
      { apply (children_steady_of _ f s moves Hwf Hacts); [lia|]. intros; now apply IH. }
      eexists _, (1 + total _ moves). split; [|intros i].
      2:{ rewrite MM_max_value_eq. unfold mbind, do_tick, lift. rewrite Hu, Hacts.
          rewrite (plain_loop_max_run _ _ moves Hc). rewrite tick_bump, bump_bump.
          reflexivity. }
      apply Z.add_nonneg_nonneg; [lia|]. apply total_nonneg. intros a Ha.
      destruct (Hc a Ha) as (s' & Hres & Hst).
      unfold child_count, succ_state. rewrite Hres. now apply steady_count_nonneg.
    + assert (Hc : children_steady (MM.max_value f) s moves).
      { apply (children_steady_of _ f s moves Hwf Hacts); [lia|]. intros; now apply IH. }
      eexists _, (1 + total _ moves). split; [|intros i].
      2:{ rewrite MM_min_value_eq. unfold mbind, do_tick, lift. rewrite Hu, Hacts.
          rewrite (plain_loop_min_run _ _ moves Hc). rewrite tick_bump, bump_bump.
          reflexivity. }
      apply Z.add_nonneg_nonneg; [lia|]. apply total_nonneg. intros a Ha.
      destruct (Hc a Ha) as (s' & Hres & Hst).
      unfold child_count, succ_state. rewrite Hres. now apply steady_count_nonneg.
Qed.

(** The number of nodes below an inner node of [minimax]. *)
Lemma MM_count_node f s moves :
  wf s -> (empties s < S f)%nat -> utility s = Ok None -> actions s = Ok moves ->
  count_of (MM.max_value (S f) s)
  = 1 + total (fun a => count_of (MM.min_value f (succ_state s a))) moves /\
  count_of (MM.min_value (S f) s)
  = 1 + total (fun a => count_of (MM.max_value f (succ_state s a))) moves.
Proof.
  intros Hwf Hfuel Hu Hacts. unfold count_of at 1 3.
  rewrite MM_max_value_eq, MM_min_value_eq. unfold mbind, do_tick, lift.
  rewrite Hu, Hacts. split.
  - rewrite (plain_loop_max_run (MM.min_value f) s moves).
    + reflexivity.
    + apply (children_steady_of _ f s moves Hwf Hacts); [lia|]. intros; now apply MM_steady.
  - rewrite (plain_loop_min_run (MM.max_value f) s moves).
    + reflexivity.
    + apply (children_steady_of _ f s moves Hwf Hacts); [lia|]. intros; now apply MM_steady.
Qed.

Lemma MM_count_terminal f s u :
  utility s = Ok (Some u) ->
  count_of (MM.max_value (S f) s) = 1 /\ count_of (MM.min_value (S f) s) = 1.
Proof.
  intros Hu. unfold count_of.
  destruct (MM_terminal_node f s u Hu Instrument_new) as [-> ->]. split; reflexivity.
Qed.

(** ** The ordered moves are the legal moves *)

Lemma order_moves_with_perm result_fn evaluate_fn s flag moves :
  actions s = Ok moves ->
  exists l, _order_moves_with result_fn evaluate_fn s flag = Ok l /\ Permutation moves l.
Proof.
  intros Hacts. unfold _order_moves_with. rewrite Hacts. simpl.
  eexists. split; [reflexivity|]. apply sort_by_key_perm.
Qed.

Lemma order_moves_perm s flag moves :
  actions s = Ok moves ->
  exists l, _order_moves s flag = Ok l /\ Permutation moves l.
Proof. apply order_moves_with_perm. Qed.

(** ** The pruned loops *)

Section PrunedLoops.
Context {A : Type} `{Number A}.
Variable child : BoardMeta -> ext A -> ext A -> M (ext A).
Variable s : BoardMeta.
Variable cn : Action -> Z.

Lemma children_bounded_tail a moves :
  children_bounded child s cn (a :: moves) -> children_bounded child s cn moves.
Proof. intros Hc b Hb. apply Hc. now right. Qed.

Lemma children_bounded_total moves : children_bounded child s cn moves -> 0 <= total cn moves.
Proof.
  intros Hc. apply total_nonneg. intros a Ha.
  destruct (Hc a Ha) as (s' & _ & Hrun).
  destruct (Hrun NegInf NegInf Instrument_new) as (w & n & _ & Hn). lia.
Qed.

Lemma ab_loop_max_run moves :
  children_bounded child s cn moves ->
  forall v alpha beta i, exists v' n,
    ab_loop_max child s moves v alpha beta i = Ok (v', bump i n) /\
    0 <= n <= total cn moves.
Proof.
  induction moves as [|a moves IH]; intros Hc v alpha beta i.
  - exists v, 0. simpl. unfold mret, total. simpl. rewrite bump_0. split; [reflexivity|lia].
  - destruct (Hc a (or_introl eq_refl)) as (s' & Hres & Hrun).
    destruct (Hrun alpha beta i) as (w & n & Hw & Hn).
    pose proof (children_bounded_total moves (children_bounded_tail _ _ Hc)) as Hrest.
    simpl. unfold mbind, lift. rewrite Hres, Hw.
    unfold total. simpl. fold (total cn moves).
    destruct (ext_leb beta (ext_max v w)).
    + exists (ext_max v w), n. split; [reflexivity|lia].
    + destruct (IH (children_bounded_tail _ _ Hc) (ext_max v w)
                   (ext_max alpha (ext_max v w)) beta (bump i n))
        as (v' & n' & Hloop & Hn').
      exists v', (n + n'). rewrite Hloop, bump_bump. split; [reflexivity|lia].
Qed.

Lemma ab_loop_min_run moves :
  children_bounded child s cn moves ->
  forall v alpha beta i, exists v' n,
    ab_loop_min child s moves v alpha beta i = Ok (v', bump i n) /\
    0 <= n <= total cn moves.
Proof.
  induction moves as [|a moves IH]; intros Hc v alpha beta i.
  - exists v, 0. simpl. unfold mret, total. simpl. rewrite bump_0. split; [reflexivity|lia].
  - destruct (Hc a (or_introl eq_refl)) as (s' & Hres & Hrun).
    destruct (Hrun alpha beta i) as (w & n & Hw & Hn).
    pose proof (children_bounded_total moves (children_bounded_tail _ _ Hc)) as Hrest.
    simpl. unfold mbind, lift. rewrite Hres, Hw.
    unfold total. simpl. fold (total cn moves).
    destruct (ext_leb (ext_min v w) alpha).
    + exists (ext_min v w), n. split; [reflexivity|lia].
    + destruct (IH (children_bounded_tail _ _ Hc) (ext_min v w)
                   alpha (ext_min beta (ext_min v w)) (bump i n))
        as (v' & n' & Hloop & Hn').
      exists v', (n + n'). rewrite Hloop, bump_bump. split; [reflexivity|lia].
Qed.

Lemma ab_top_max_run moves :
  children_bounded child s cn moves ->
  forall bv ba alpha beta i, exists r n,
    ab_top_max child s moves bv ba alpha beta i = Ok (r, bump i n) /\
    0 <= n <= total cn moves.
Proof.
  induction moves as [|a moves IH]; intros Hc bv ba alpha beta i.
  - exists (bv, ba), 0. simpl. unfold mret, total. simpl. rewrite bump_0.
    split; [reflexivity|lia].
  - destruct (Hc a (or_introl eq_refl)) as (s' & Hres & Hrun).
    destruct (Hrun alpha beta i) as (w & n & Hw & Hn).
    simpl. unfold mbind, lift. rewrite Hres, Hw.
    unfold total. simpl. fold (total cn moves).
    destruct (improves_max w a bv ba);
      match goal with
      | |- exists r n0, ab_top_max _ _ _ ?bv' ?ba' ?al ?be ?i' = _ /\ _ =>
          destruct (IH (children_bounded_tail _ _ Hc) bv' ba' al be i')
            as (r & n' & Hloop & Hn')
      end;
      exists r, (n + n'); rewrite Hloop, bump_bump; (split; [reflexivity|lia]).
Qed.

Lemma ab_top_min_run moves :
  children_bounded child s cn moves ->
  forall bv ba alpha beta i, exists r n,
    ab_top_min child s moves bv ba alpha beta i = Ok (r, bump i n) /\
    0 <= n <= total cn moves.
Proof.
  induction moves as [|a moves IH]; intros Hc bv ba alpha beta i.
  - exists (bv, ba), 0. simpl. unfold mret, total. simpl. rewrite bump_0.
    split; [reflexivity|lia].
  - destruct (Hc a (or_introl eq_refl)) as (s' & Hres & Hrun).
    destruct (Hrun alpha beta i) as (w & n & Hw & Hn).
    simpl. unfold mbind, lift. rewrite Hres, Hw.
    unfold total. simpl. fold (total cn moves).
    destruct (improves_min w a bv ba);
      match goal with
      | |- exists r n0, ab_top_min _ _ _ ?bv' ?ba' ?al ?be ?i' = _ /\ _ =>
          destruct (IH (children_bounded_tail _ _ Hc) bv' ba' al be i')
            as (r & n' & Hloop & Hn')
      end;
      exists r, (n + n'); rewrite Hloop, bump_bump; (split; [reflexivity|lia]).
Qed.
End PrunedLoops.

(** ** The nodes of [minimax_ab] *)

Lemma AB_max_value_eq ord f s alpha beta :
  AB.max_value ord (S f) s alpha beta
  = (do_tick ;;;
     u <- lift (utility s) ;;
     match u with
     | Some u => mret (Fin u)
     | None => moves <- lift (_order_moves s ord) ;;
               ab_loop_max (AB.min_value ord f) s moves NegInf alpha beta
     end)%M.
Proof. reflexivity. Qed.

Lemma AB_min_value_eq ord f s alpha beta :
  AB.min_value ord (S f) s alpha beta
  = (do_tick ;;;
     u <- lift (utility s) ;;
     match u with
     | Some u => mret (Fin u)
     | None => moves <- lift (_order_moves s ord) ;;
               ab_loop_min (AB.max_value ord f) s moves PosInf alpha beta
     end)%M.
Proof. reflexivity. Qed.

Lemma AB_terminal_node ord f s u alpha beta :
  utility s = Ok (Some u) ->
  forall i, AB.max_value ord (S f) s alpha beta i = Ok (Fin u, tick i) /\
            AB.min_value ord (S f) s alpha beta i = Ok (Fin u, tick i).
Proof.
  intros Hu i. rewrite AB_max_value_eq, AB_min_value_eq.
  unfold mbind, do_tick, lift, mret. rewrite Hu. split; reflexivity.
Qed.

(** The successors listed by an ordering of the legal moves of a
    well-formed state. *)
Lemma children_bounded_of {A} (child : BoardMeta -> ext A -> ext A -> M (ext A))
      (bound : BoardMeta -> Z) n s moves l :
  wf s -> actions s = Ok moves -> Permutation moves l -> (empties s <= n)%nat ->
  (forall s', wf s' -> game_of s' = game_of s -> (empties s' < n)%nat ->
              forall alpha beta i, exists w c,
                child s' alpha beta i = Ok (w, bump i c) /\ 0 <= c <= bound s') ->
  children_bounded child s (fun a => bound (succ_state s a)) l.
Proof.
  intros Hwf Hacts Hperm Hn Hchild a Ha.
  apply (Permutation_in _ (Permutation_sym Hperm)) in Ha.
  destruct (result_of_action s moves a Hwf Hacts Ha) as (s' & Hres & Hwf' & He).
  exists s'. split; [exact Hres|]. unfold succ_state. rewrite Hres.
  apply Hchild; [exact Hwf'|exact (result_game _ _ _ Hres)|lia].
Qed.

(** Every node of the pruned search returns, after at least one tick and
    at most as many ticks as the same node of [minimax]. *)
Lemma AB_bounded ord fuel :
  forall s, wf s -> (empties s < fuel)%nat ->
    forall alpha beta i,
      (exists v n, AB.max_value ord fuel s alpha beta i = Ok (v, bump i n) /\
                   1 <= n <= count_of (MM.max_value fuel s)) /\
      (exists v n, AB.min_value ord fuel s alpha beta i = Ok (v, bump i n) /\
                   1 <= n <= count_of (MM.min_value fuel s)).
Proof.
  induction fuel as [|f IH]; intros s Hwf Hfuel alpha beta i; [lia|].
  destruct (utility_total s Hwf) as [u Hu].
  destruct u as [u|].
  - destruct (AB_terminal_node ord f s u alpha beta Hu i) as [-> ->].
    destruct (MM_count_terminal f s u Hu) as [-> ->].
    split; exists (Fin u), 1; (split; [reflexivity|lia]).
  - destruct (actions_total s Hwf) as [moves Hacts].
    destruct (order_moves_perm s ord moves Hacts) as (l & Hord & Hperm).
    destruct (MM_count_node f s moves Hwf Hfuel Hu Hacts) as [-> ->].
    rewrite AB_max_value_eq, AB_min_value_eq. unfold mbind, do_tick, lift.
    rewrite Hu, Hord. split.
    + destruct (ab_loop_max_run (AB.min_value ord f) s
                  (fun a => count_of (MM.min_value f (succ_state s a))) l)
        with (v := @NegInf Z) (alpha := alpha) (beta := beta) (i := tick i)
        as (v' & n & Hloop & Hn).
      { apply (children_bounded_of _ (fun s' => count_of (MM.min_value f s')) f s moves l);
          auto; [lia|].
        intros s' Hwf' _ He al be j. destruct (IH s' Hwf' He al be j) as [_ (w & c & Hw & Hc)].
        exists w, c. split; [exact Hw|lia]. }
      exists v', (1 + n). rewrite Hloop, tick_bump, bump_bump. split; [reflexivity|].
      rewrite (total_perm _ _ _ Hperm). lia.
    + destruct (ab_loop_min_run (AB.max_value ord f) s
                  (fun a => count_of (MM.max_value f (succ_state s a))) l)
        with (v := @PosInf Z) (alpha := alpha) (beta := beta) (i := tick i)
        as (v' & n & Hloop & Hn).
      { apply (children_bounded_of _ (fun s' => count_of (MM.max_value f s')) f s moves l);
          auto; [lia|].
        intros s' Hwf' _ He al be j. destruct (IH s' Hwf' He al be j) as [(w & c & Hw & Hc) _].
        exists w, c. split; [exact Hw|lia]. }
      exists v', (1 + n). rewrite Hloop, tick_bump, bump_bump. split; [reflexivity|].
      rewrite (total_perm _ _ _ Hperm). lia.
Qed.

(** ** The nodes of [search] *)

Lemma DL_max_value_eq eval_fn ord f s alpha beta d :
  DL.max_value eval_fn ord (S f) s alpha beta d
  = (do_tick ;;;
     u <- lift (utility s) ;;
     match u with
     | Some u => mret (Fin (inject_Z u))
     | None =>
         if d =? 0 then (x <- lift (eval_fn s) ;; mret (float_value x))
         else
           moves <- lift (_order_moves s ord) ;;
           ab_loop_max (fun s' al be => DL.min_value eval_fn ord f s' al be (d - 1))
                       s moves NegInf alpha beta
     end)%M.
Proof. reflexivity. Qed.

Lemma DL_min_value_eq eval_fn ord f s alpha beta d :
  DL.min_value eval_fn ord (S f) s alpha beta d
  = (do_tick ;;;
     u <- lift (utility s) ;;
     match u with
     | Some u => mret (Fin (inject_Z u))
     | None =>
         if d =? 0 then (x <- lift (eval_fn s) ;; mret (float_value x))
         else
           moves <- lift (_order_moves s ord) ;;
           ab_loop_min (fun s' al be => DL.max_value eval_fn ord f s' al be (d - 1))
                       s moves PosInf alpha beta
     end)%M.
Proof. reflexivity. Qed.

Lemma DL_terminal_node eval_fn ord f s u alpha beta d :
  utility s = Ok (Some u) ->
  forall i, DL.max_value eval_fn ord (S f) s alpha beta d i = Ok (Fin (inject_Z u), tick i) /\
            DL.min_value eval_fn ord (S f) s alpha beta d i = Ok (Fin (inject_Z u), tick i).
Proof.
  intros Hu i. rewrite DL_max_value_eq, DL_min_value_eq.
  unfold mbind, do_tick, lift, mret. rewrite Hu. split; reflexivity.
Qed.

(** A node at which the depth budget is exhausted returns the heuristic
    score after one tick. *)
Lemma DL_cutoff_node eval_fn ord f s alpha beta x :
  utility s = Ok None -> eval_fn s = Ok x ->
  forall i, DL.max_value eval_fn ord (S f) s alpha beta 0 i = Ok (float_value x, tick i) /\
            DL.min_value eval_fn ord (S f) s alpha beta 0 i = Ok (float_value x, tick i).
Proof.
  intros Hu Hx i. rewrite DL_max_value_eq, DL_min_value_eq.
  unfold mbind, do_tick, lift, mret. rewrite Hu. simpl. rewrite Hx. split; reflexivity.
Qed.

Lemma MM_count_pos fuel s :
  wf s -> (empties s < fuel)%nat ->
  1 <= count_of (MM.max_value fuel s) /\ 1 <= count_of (MM.min_value fuel s).
Proof.
  intros Hwf Hfuel. destruct fuel as [|f]; [lia|].
  destruct (utility_total s Hwf) as [[u|] Hu].
  - destruct (MM_count_terminal f s u Hu) as [-> ->]. lia.
  - destruct (actions_total s Hwf) as [moves Hacts].
    destruct (MM_count_node f s moves Hwf Hfuel Hu Hacts) as [-> ->].
    split; apply Z.le_sub_le_add_l; simpl; apply total_nonneg; intros a Ha;
      destruct (result_of_action s moves a Hwf Hacts Ha) as (s' & Hres & Hwf' & He);
      unfold succ_state; rewrite Hres; apply steady_count_nonneg;
      apply MM_steady; auto; lia.
Qed.

(** Every node of the depth-limited search returns when the heuristic is
    defined on the well-formed states, whatever the depth budget [d]
    (zero, positive or negative), and visits at most the nodes [minimax]
    visits. *)
Lemma DL_bounded eval_fn ord g fuel :
  (forall s, wf s -> game_of s = g -> exists x, eval_fn s = Ok x) ->
  forall s, wf s -> game_of s = g -> (empties s < fuel)%nat ->
    forall alpha beta d i,
      (exists v n, DL.max_value eval_fn ord fuel s alpha beta d i = Ok (v, bump i n) /\
                   1 <= n <= count_of (MM.max_value fuel s)) /\
      (exists v n, DL.min_value eval_fn ord fuel s alpha beta d i = Ok (v, bump i n) /\
                   1 <= n <= count_of (MM.min_value fuel s)).
Proof.
  intros Heval.
  induction fuel as [|f IH]; intros s Hwf Hg Hfuel alpha beta d i; [lia|].
  pose proof (MM_count_pos (S f) s Hwf Hfuel) as [Hp1 Hp2].
  destruct (utility_total s Hwf) as [u Hu].
  destruct u as [u|].
  - destruct (DL_terminal_node eval_fn ord f s u alpha beta d Hu i) as [-> ->].
    split; exists (Fin (inject_Z u)), 1; (split; [reflexivity|lia]).
  - destruct (Z.eqb_spec d 0) as [->|Hd].
    { destruct (Heval s Hwf Hg) as [x Hx].
      destruct (DL_cutoff_node eval_fn ord f s alpha beta x Hu Hx i) as [-> ->].
      split; exists (float_value x), 1; (split; [reflexivity|lia]). }
    destruct (actions_total s Hwf) as [moves Hacts].
    destruct (order_moves_perm s ord moves Hacts) as (l & Hord & Hperm).
    destruct (MM_count_node f s moves Hwf Hfuel Hu Hacts) as [Hc1 Hc2].
    rewrite Hc1, Hc2.
    rewrite DL_max_value_eq, DL_min_value_eq. unfold mbind, do_tick, lift.
    rewrite Hu, Hord. apply Z.eqb_neq in Hd. rewrite Hd. split.
    + destruct (ab_loop_max_run
                  (fun s' al be => DL.min_value eval_fn ord f s' al be (d - 1)) s
                  (fun a => count_of (MM.min_value f (succ_state s a))) l)
        with (v := @NegInf Q) (alpha := alpha) (beta := beta) (i := tick i)
        as (v' & n & Hloop & Hn).
      { apply (children_bounded_of _ (fun s' => count_of (MM.min_value f s')) f s moves l);
          auto; [lia|].
        intros s' Hwf' Hg' He al be j.
        destruct (IH s' Hwf' (eq_trans Hg' Hg) He al be (d - 1) j) as [_ (w & c & Hw & Hc)].
        exists w, c. split; [exact Hw|lia]. }
      exists v', (1 + n). rewrite Hloop, tick_bump, bump_bump. split; [reflexivity|].
      rewrite (total_perm _ _ _ Hperm). lia.
    + destruct (ab_loop_min_run
                  (fun s' al be => DL.max_value eval_fn ord f s' al be (d - 1)) s
                  (fun a => count_of (MM.max_value f (succ_state s a))) l)
        with (v := @PosInf Q) (alpha := alpha) (beta := beta) (i := tick i)
        as (v' & n & Hloop & Hn).
      { apply (children_bounded_of _ (fun s' => count_of (MM.max_value f s')) f s moves l);
          auto; [lia|].
        intros s' Hwf' Hg' He al be j.
        destruct (IH s' Hwf' (eq_trans Hg' Hg) He al be (d - 1) j) as [(w & c & Hw & Hc) _].
        exists w, c. split; [exact Hw|lia]. }
      exists v', (1 + n). rewrite Hloop, tick_bump, bump_bump. split; [reflexivity|].
      rewrite (total_perm _ _ _ Hperm). lia.
Qed.

(** ** The three searches return on every well-formed state *)

Lemma prepare_sink_bump i n : bump (prepare_sink i) n = mkInstrument n.
Proof. reflexivity. Qed.

Lemma minimax_run fuel state i :
  wf state -> (empties state <= fuel)%nat ->
  exists p moves r,
    player state = Ok p /\ actions state = Ok moves /\
    minimax fuel state i = Ok (r, mkInstrument (MM_nodes p fuel state moves)).
Proof.
  intros Hwf Hfuel.
  destruct (player_total state Hwf) as [p Hp].
  destruct (actions_total state Hwf) as [moves Hacts].
  exists p, moves. unfold minimax, mbind, lift. rewrite Hp.
  assert (Hc : forall child, child = MM.min_value fuel \/ child = MM.max_value fuel ->
                             children_steady child state moves).
  { intros child Hchild.
    apply (children_steady_of child fuel state moves Hwf Hacts Hfuel).
    intros s' Hwf' He. destruct (MM_steady fuel s' Hwf' He) as [H1 H2].
    destruct Hchild as [-> | ->]; assumption. }
  destruct p; rewrite Hacts.
  - destruct (plain_top_max_run (MM.min_value fuel) state moves (Hc _ (or_introl eq_refl))
                                NegInf None (prepare_sink i)) as [r Hr].
    exists r. rewrite Hr, prepare_sink_bump. auto.
  - destruct (plain_top_min_run (MM.max_value fuel) state moves (Hc _ (or_intror eq_refl))
                                PosInf None (prepare_sink i)) as [r Hr].
    exists r. rewrite Hr, prepare_sink_bump. auto.
Qed.

Lemma minimax_ab_run fuel state i ord :
  wf state -> (empties state <= fuel)%nat ->
  exists p moves r n,
    player state = Ok p /\ actions state = Ok moves /\
    minimax_ab fuel state i ord = Ok (r, mkInstrument n) /\
    0 <= n <= MM_nodes p fuel state moves.
Proof.
  intros Hwf Hfuel.
  destruct (player_total state Hwf) as [p Hp].
  destruct (actions_total state Hwf) as [moves Hacts].
  destruct (order_moves_perm state ord moves Hacts) as (l & Hord & Hperm).
  exists p, moves. unfold minimax_ab, mbind, lift. rewrite Hp.
  unfold MM_nodes. rewrite (total_perm _ _ _ Hperm).
  destruct p; rewrite Hord; simpl MM_child.
  - destruct (ab_top_max_run (AB.min_value ord fuel) state
                (fun a => count_of (MM.min_value fuel (succ_state state a))) l)
      with (bv := @NegInf Z) (ba := @None Action) (alpha := @NegInf Z) (beta := @PosInf Z)
           (i := prepare_sink i) as (r & n & Hr & Hn).
    { apply (children_bounded_of _ (fun s' => count_of (MM.min_value fuel s'))
                                 fuel state moves l); auto.
      intros s' Hwf' _ He al be j.
      destruct (AB_bounded ord fuel s' Hwf' He al be j) as [_ (w & c & Hw & Hc)].
      exists w, c. split; [exact Hw|lia]. }
    exists r, n. rewrite Hr, prepare_sink_bump. auto.
  - destruct (ab_top_min_run (AB.max_value ord fuel) state
                (fun a => count_of (MM.max_value fuel (succ_state state a))) l)
      with (bv := @PosInf Z) (ba := @None Action) (alpha := @NegInf Z) (beta := @PosInf Z)
           (i := prepare_sink i) as (r & n & Hr & Hn).
    { apply (children_bounded_of _ (fun s' => count_of (MM.max_value fuel s'))
                                 fuel state moves l); auto.
      intros s' Hwf' _ He al be j.
      destruct (AB_bounded ord fuel s' Hwf' He al be j) as [(w & c & Hw & Hc) _].
      exists w, c. split; [exact Hw|lia]. }
    exists r, n. rewrite Hr, prepare_sink_bump. auto.
Qed.

Lemma search_run fuel state depth eval_fn i ord :
  (forall s, wf s -> game_of s = game_of state -> exists x, eval_fn s = Ok x) ->
  wf state -> (empties state <= fuel)%nat ->
  exists p moves r n,
    player state = Ok p /\ actions state = Ok moves /\
    search fuel state depth eval_fn i ord = Ok (r, mkInstrument n) /\
    0 <= n <= MM_nodes p fuel state moves.
Proof.
  intros Heval Hwf Hfuel.
  destruct (player_total state Hwf) as [p Hp].
  destruct (actions_total state Hwf) as [moves Hacts].
  destruct (order_moves_perm state ord moves Hacts) as (l & Hord & Hperm).
  exists p, moves. unfold search, mbind, lift. rewrite Hp.
  unfold MM_nodes. rewrite (total_perm _ _ _ Hperm).
  destruct p; rewrite Hord; simpl MM_child.
  - destruct (ab_top_max_run
                (fun s' al be => DL.min_value eval_fn ord fuel s' al be (depth - 1)) state
                (fun a => count_of (MM.min_value fuel (succ_state state a))) l)
      with (bv := @NegInf Q) (ba := @None Action) (alpha := @NegInf Q) (beta := @PosInf Q)
           (i := prepare_sink i) as (r & n & Hr & Hn).
    { apply (children_bounded_of _ (fun s' => count_of (MM.min_value fuel s'))
                                 fuel state moves l); auto.
      intros s' Hwf' Hg' He al be j.
      destruct (DL_bounded eval_fn ord _ fuel Heval s' Hwf' Hg' He al be (depth - 1) j)
        as [_ (w & c & Hw & Hc)].
      exists w, c. split; [exact Hw|lia]. }
    exists r, n. rewrite Hr, prepare_sink_bump. auto.
  - destruct (ab_top_min_run
                (fun s' al be => DL.max_value eval_fn ord fuel s' al be (depth - 1)) state
                (fun a => count_of (MM.max_value fuel (succ_state state a))) l)
      with (bv := @PosInf Q) (ba := @None Action) (alpha := @NegInf Q) (beta := @PosInf Q)
           (i := prepare_sink i) as (r & n & Hr & Hn).
    { apply (children_bounded_of _ (fun s' => count_of (MM.max_value fuel s'))
                                 fuel state moves l); auto.
      intros s' Hwf' Hg' He al be j.
      destruct (DL_bounded eval_fn ord _ fuel Heval s' Hwf' Hg' He al be (depth - 1) j)
        as [(w & c & Hw & Hc) _].
      exists w, c. split; [exact Hw|lia]. }
    exists r, n. rewrite Hr, prepare_sink_bump. auto.
Qed.

(* ================================================================= *)
(** * The claims *)

(** ** Legal moves of a game that is already won *)

Lemma cell_at_none_iff board m k r c :
  wf (board, m, k) -> 0 <= r < m -> 0 <= c < m ->
  (cell_at board r c = Ok None <-> grid_get board r c = None).
Proof.
  intros Hwf Hr Hc. rewrite (cell_at_wf _ _ _ _ _ Hwf Hr Hc).
  split; [now intros [= ->]|now intros ->].
Qed.

Lemma place_get board m k r c p :
  wf (board, m, k) -> 0 <= r < m -> 0 <= c < m ->
  grid_get (place board r c p) r c = Some p.
Proof.
  intros Hwf Hr Hc. destruct (wf_row _ _ _ _ Hwf Hr) as [_ Hlen].
  destruct Hwf as [Hb _]. unfold grid_get, place.
  rewrite nth_set_nth_eq by lia. apply nth_set_nth_eq. lia.
Qed.

(** C10: in a state that already has a winner, [actions] still returns
    every empty cell (move generation does not look at terminality), the
    state being terminal for [utility]; each such action is accepted by
    [result], which puts the mover's mark on the cell and leaves one empty
    cell less. *)
Theorem C10_actions_ignore_terminality board m k w :
  wf (board, m, k) ->
  winner (board, m, k) = Ok (Some w) ->
  exists moves p,
    utility (board, m, k) = Ok (Some (match w with X => 1 | O => -1 end)) /\
    actions (board, m, k) = Ok moves /\
    player (board, m, k) = Ok p /\
    (forall r c, In (r, c) moves <->
                 (0 <= r < m /\ 0 <= c < m /\ cell_at board r c = Ok None)) /\
    (forall r c, In (r, c) moves ->
       result (board, m, k) (r, c) = Ok (place board r c p, m, k) /\
       cell_at (place board r c p) r c = Ok (Some p) /\
       S (empties (place board r c p, m, k)) = empties (board, m, k)).
Proof.
  intros Hwf Hw.
  destruct (actions_total _ Hwf) as [moves Hacts].
  destruct (player_total _ Hwf) as [p Hp].
  exists moves, p. split; [|split; [exact Hacts|split; [exact Hp|split]]].
  - unfold utility. rewrite Hw. simpl. now destruct w.
  - intros r c. rewrite (actions_legal board m k moves (r, c) Hwf Hacts). simpl.
    split; intros (Hr & Hc & Hn); repeat split; try lia;
      now apply (cell_at_none_iff board m k r c Hwf Hr Hc).
  - intros r c Hin.
    apply (actions_legal board m k moves (r, c) Hwf Hacts) in Hin as (Hr & Hc & Hn).
    simpl in Hr, Hc, Hn.
    destruct (result_legal board m k r c Hwf Hr Hc Hn) as (p' & Hp' & Hres).
    assert (p' = p) by congruence. subst p'.
    split; [exact Hres|]. split.
    + rewrite (cell_at_wf _ m k r c (place_wf board m k r c p Hwf) Hr Hc).
      f_equal. now apply (place_get board m k).
    + now apply place_empties.
Qed.

Lemma won_with_empties_wf : wf won_with_empties.
Proof.
  unfold won_with_empties, wf. split; [reflexivity|]. repeat constructor.
Qed.

Lemma C10_actions_ignore_terminality_witness :
  exists moves p,
    utility won_with_empties = Ok (Some 1) /\
    actions won_with_empties = Ok moves /\
    player won_with_empties = Ok p /\
    (forall r c, In (r, c) moves <->
                 (0 <= r < 3 /\ 0 <= c < 3 /\
                  cell_at (fst (fst won_with_empties)) r c = Ok None)) /\
    (forall r c, In (r, c) moves ->
       result won_with_empties (r, c)
       = Ok (place (fst (fst won_with_empties)) r c p, 3, 3) /\
       cell_at (place (fst (fst won_with_empties)) r c p) r c = Ok (Some p) /\
       S (empties (place (fst (fst won_with_empties)) r c p, 3, 3))
       = empties won_with_empties).
Proof.
  apply (C10_actions_ignore_terminality (fst (fst won_with_empties)) 3 3 X).
  - exact won_with_empties_wf.
  - reflexivity.
Defined.

(** ** The move ordering *)

Lemma priority_key result_fn evaluate_fn board m k flag a :
  priority result_fn evaluate_fn (board, m, k) flag a
  = (geometric_band m a,
     float_value (float_neg (probe_score result_fn evaluate_fn (board, m, k) flag a)), a).
Proof.
  destruct a as [r c]. unfold priority, geometric_band, probe_score, action_eqb.
  cbn [fst snd]. f_equal. f_equal.
  destruct flag; [|reflexivity].
  destruct (result_fn (board, m, k) (r, c)) as [s'|e]; reflexivity.
Qed.

(** C5 (as the code has it): whatever exception the probe of an action
    raises, be it raised by the oracle's [result] (an illegal-action error
    included) or by the heuristic, it is caught: the action gets the key of
    the neutral probe score and [_order_moves] returns the whole ordering;
    nothing propagates out of the probe. *)
Theorem C5_probe_errors_are_all_masked result_fn evaluate_fn state flag moves a e :
  actions state = Ok moves ->
  (s' <- result_fn state a ;; evaluate_fn s') = Err e ->
  priority result_fn evaluate_fn state flag a
  = priority result_fn evaluate_fn state false a /\
  exists l, _order_moves_with result_fn evaluate_fn state flag = Ok l /\ Permutation moves l.
Proof.
  intros Hacts Hprobe. split.
  - destruct state as [[board m] k]. rewrite !priority_key. f_equal. f_equal.
    unfold probe_score. destruct flag; [|reflexivity].
    destruct (result_fn (board, m, k) a) as [s'|e']; [|reflexivity].
    simpl in Hprobe. now rewrite Hprobe.
  - now apply order_moves_with_perm.
Qed.

Lemma C5_probe_errors_are_all_masked_witness :
  priority refusing_result (fun s => evaluate s X) (initial_state 3 3) true (0, 0)
  = priority refusing_result (fun s => evaluate s X) (initial_state 3 3) false (0, 0) /\
  exists l, _order_moves_with refusing_result (fun s => evaluate s X) (initial_state 3 3) true = Ok l /\
            Permutation [(0,0); (0,1); (0,2); (1,0); (1,1); (1,2); (2,0); (2,1); (2,2)] l.
Proof.
  apply (C5_probe_errors_are_all_masked refusing_result (fun s => evaluate s X)
           (initial_state 3 3) true _ (0, 0) (ValueError "Action not legal")).
  - reflexivity.
  - reflexivity.
Defined.

(** C5, counterexample: with an oracle whose [result] raises the
    illegal-action error on every probe, [_order_moves] still returns the
    full ordering of the empty 3x3 board; the error is swallowed. *)
Lemma C5_counterexample :
  (forall a, refusing_result (initial_state 3 3) a = Err (ValueError "Action not legal")) /\
  _order_moves_with refusing_result (fun s => evaluate s X) (initial_state 3 3) true
  = Ok [(1,1); (0,0); (0,2); (2,0); (2,2); (0,1); (1,0); (1,2); (2,1)].
Proof.
  split; [reflexivity|]. vm_compute. reflexivity.
Qed.

(** ** The sink is a side channel *)

(** C9: the outcome of each of the three searches is the same whatever sink
    is passed: an [Instrument] with any prior counter, or none (the default
    sink).  The whole outcome, the final counter included, is identical. *)
Theorem C9_result_independent_of_sink fuel state depth eval_fn ord
        (sink1 sink2 : option Instrument) :
  minimax fuel state sink1 = minimax fuel state sink2 /\
  minimax_ab fuel state sink1 ord = minimax_ab fuel state sink2 ord /\
  search fuel state depth eval_fn sink1 ord = search fuel state depth eval_fn sink2 ord.
Proof.
  unfold minimax, minimax_ab, search.
  assert (Hsink : prepare_sink sink1 = prepare_sink sink2) by reflexivity.
  rewrite Hsink. repeat split.
Qed.

(** ** Terminal states *)

Lemma order_moves_nil state flag : actions state = Ok [] -> _order_moves state flag = Ok [].
Proof.
  intros Hacts. unfold _order_moves, _order_moves_with. now rewrite Hacts.
Qed.

(** C3 (as the code has it): the recursive evaluators of the three
    searches, entered on a terminal state, return its exact utility after
    exactly one tick and do not descend.  The top-level functions do not
    test the root: on a terminal state without legal action they return no
    action, with the value -inf when X is to move and +inf when O is to
    move, and leave the counter at 0. *)
Theorem C3_terminal_nodes_and_terminal_root fuel state u eval_fn ord
        (alpha beta : AB.Value) (alpha' beta' : DL.Value) d i :
  utility state = Ok (Some u) ->
  (MM.max_value (S fuel) state i = Ok (Fin u, tick i) /\
   MM.min_value (S fuel) state i = Ok (Fin u, tick i) /\
   AB.max_value ord (S fuel) state alpha beta i = Ok (Fin u, tick i) /\
   AB.min_value ord (S fuel) state alpha beta i = Ok (Fin u, tick i) /\
   DL.max_value eval_fn ord (S fuel) state alpha' beta' d i = Ok (Fin (inject_Z u), tick i) /\
   DL.min_value eval_fn ord (S fuel) state alpha' beta' d i = Ok (Fin (inject_Z u), tick i)) /\
  (forall p sink,
      player state = Ok p -> actions state = Ok [] ->
      minimax fuel state sink
      = Ok ((match p with X => NegInf | O => PosInf end, None), mkInstrument 0) /\
      minimax_ab fuel state sink ord
      = Ok ((match p with X => NegInf | O => PosInf end, None), mkInstrument 0) /\
      search fuel state d eval_fn sink ord
      = Ok ((match p with X => NegInf | O => PosInf end, None), mkInstrument 0)).
Proof.
  intros Hu. split.
  - destruct (MM_terminal_node fuel state u Hu i) as [H1 H2].
    destruct (AB_terminal_node ord fuel state u alpha beta Hu i) as [H3 H4].
    destruct (DL_terminal_node eval_fn ord fuel state u alpha' beta' d Hu i) as [H5 H6].
    repeat split; assumption.
  - intros p sink Hp Hacts.
    pose proof (order_moves_nil state ord Hacts) as Hord.
    unfold minimax, minimax_ab, search, mbind, lift. rewrite Hp.
    destruct p; rewrite ?Hacts, ?Hord; repeat split.
Qed.

Lemma C3_terminal_nodes_and_terminal_root_witness :
  (MM.max_value 1 full_draw Instrument_new = Ok (Fin 0, tick Instrument_new) /\
   MM.min_value 1 full_draw Instrument_new = Ok (Fin 0, tick Instrument_new) /\
   AB.max_value true 1 full_draw NegInf PosInf Instrument_new = Ok (Fin 0, tick Instrument_new) /\
   AB.min_value true 1 full_draw NegInf PosInf Instrument_new = Ok (Fin 0, tick Instrument_new) /\
   DL.max_value default_eval true 1 full_draw NegInf PosInf 2 Instrument_new
   = Ok (Fin (inject_Z 0), tick Instrument_new) /\
   DL.min_value default_eval true 1 full_draw NegInf PosInf 2 Instrument_new
   = Ok (Fin (inject_Z 0), tick Instrument_new)) /\
  (minimax 0 full_draw None = Ok ((PosInf, None), mkInstrument 0) /\
   minimax_ab 0 full_draw None true = Ok ((PosInf, None), mkInstrument 0) /\
   search 0 full_draw 2 default_eval None true = Ok ((PosInf, None), mkInstrument 0)).
Proof.
  destruct (C3_terminal_nodes_and_terminal_root 0 full_draw 0 default_eval true
              NegInf PosInf NegInf PosInf 2 Instrument_new eq_refl) as [Hnodes Hroot].
  split; [exact Hnodes|].
  apply (Hroot O None); reflexivity.
Defined.

(** C3, counterexample: the full board of the draw is terminal with utility
    0, yet each search returns the value +inf (O would be to move) with a
    counter of 0, not the utility with a counter of 1; on a won position
    with empty cells the searches return an action and count four nodes. *)
Lemma C3_counterexample :
  utility full_draw = Ok (Some 0) /\
  minimax 9 full_draw None = Ok ((PosInf, None), mkInstrument 0) /\
  minimax_ab 9 full_draw None true = Ok ((PosInf, None), mkInstrument 0) /\
  search 9 full_draw 3 default_eval None true = Ok ((PosInf, None), mkInstrument 0) /\
  utility won_with_empties = Ok (Some 1) /\
  minimax 9 won_with_empties None = Ok ((Fin 1, Some (1, 2)), mkInstrument 4).
Proof.
  repeat apply conj; vm_compute; reflexivity.
Qed.

(** ** Node counts *)

Lemma empty_board_node_counts :
  minimax_ab 9 (initial_state 3 3) None true = Ok ((Fin 0, Some (0, 0)), mkInstrument 7434) /\
  minimax_ab 9 (initial_state 3 3) None false = Ok ((Fin 0, Some (0, 0)), mkInstrument 7274).
Proof.
  split; vm_compute; reflexivity.
Qed.

(** On every well-formed state and under either setting of
    [use_ordering], [minimax_ab] returns and leaves a node count that is at
    most the node count of [minimax]. *)
Lemma pruning_never_visits_more fuel state ord sink sink' :
  wf state -> (empties state <= fuel)%nat ->
  exists r c r' c',
    minimax fuel state sink = Ok (r, c) /\
    minimax_ab fuel state sink' ord = Ok (r', c') /\
    node_count c' <= node_count c.
Proof.
  intros Hwf Hfuel.
  destruct (minimax_run fuel state sink Hwf Hfuel) as (p & moves & r & Hp & Hacts & Hmm).
  destruct (minimax_ab_run fuel state sink' ord Hwf Hfuel)
    as (p' & moves' & r' & n & Hp' & Hacts' & Hab & Hn).
  assert (p' = p) by congruence. assert (moves' = moves) by congruence. subst p' moves'.
  exists r, (mkInstrument (MM_nodes p fuel state moves)), r', (mkInstrument n).
  split; [exact Hmm|]. split; [exact Hab|]. simpl. lia.
Qed.

(** C6, at a failing input: on the empty 3x3 board [minimax_ab] visits 7434
    nodes with [use_ordering=True] and 7274 nodes with
    [use_ordering=False], so the count with ordering is not at most the
    count without.  With the flag unset the moves are still explored in
    the geometric order of [_order_moves] (centre, corners, edges), not in
    the natural order of [actions]; explored in the natural order, as the
    specification words the disabled ordering, the board takes 18296
    nodes. *)
Theorem C6_unset_flag_still_orders_moves :
  minimax_ab 9 (initial_state 3 3) None true = Ok ((Fin 0, Some (0, 0)), mkInstrument 7434) /\
  minimax_ab 9 (initial_state 3 3) None false = Ok ((Fin 0, Some (0, 0)), mkInstrument 7274) /\
  ~ 7434 <= 7274 /\
  actions (initial_state 3 3)
  = Ok [(0,0); (0,1); (0,2); (1,0); (1,1); (1,2); (2,0); (2,1); (2,2)] /\
  _order_moves (initial_state 3 3) false
  = Ok [(1,1); (0,0); (0,2); (2,0); (2,2); (0,1); (1,0); (1,2); (2,1)] /\
  SpecUnordered.minimax_ab 9 (initial_state 3 3) None
  = Ok ((Fin 0, Some (0, 0)), mkInstrument 18296).
Proof.
  destruct empty_board_node_counts as [H1 H2].
  split; [exact H1|]. split; [exact H2|]. split; [lia|].
  repeat apply conj; vm_compute; reflexivity.
Qed.

(* ================================================================= *)
(** * The tie-break of the top-level loops *)

(** ** The laws of the comparisons *)

#[export] Instance NumberLaws_Z : NumberLaws Z.
Proof.
  constructor; simpl; intros;
    repeat match goal with
           | H : (_ <? _) = true |- _ => apply Z.ltb_lt in H
           | H : (_ <? _) = false |- _ => apply Z.ltb_ge in H
           | H : (_ =? _) = true |- _ => apply Z.eqb_eq in H
           end;
    try subst; try reflexivity;
    solve [ apply Z.ltb_irrefl | apply Z.ltb_lt; lia | apply Z.ltb_ge; lia | apply Z.eqb_eq; lia
          | apply Z.leb_antisym ].
Qed.

#[export] Instance NumberLaws_Q : NumberLaws Q.
Proof.
  constructor; simpl.
  - intros x. apply Qltb_ge. apply Qle_refl.
  - intros x y z H1 H2. apply Qltb_lt in H1, H2. apply Qltb_lt. now apply (Qlt_trans _ y).
  - intros x y z H1 H2. apply Qltb_ge in H1, H2. apply Qltb_ge. now apply (Qle_trans _ y).
  - intros x y H1 H2. apply Qltb_ge in H1, H2. apply Qeq_bool_iff. now apply Qle_antisym.
  - intros x y H. apply Qeq_bool_iff in H. apply Qeq_bool_iff. now symmetry.
  - intros x y z H1 H2. apply Qeq_bool_iff in H1, H2. apply Qeq_bool_iff.
    now rewrite H1.
  - intros x y z H. apply Qeq_bool_iff in H.
    destruct (Qltb y z) eqn:E.
    + apply Qltb_lt in E. apply Qltb_lt. now rewrite H.
    + apply Qltb_ge in E. apply Qltb_ge. now rewrite H.
  - intros x y z H. apply Qeq_bool_iff in H.
    destruct (Qltb z y) eqn:E.
    + apply Qltb_lt in E. apply Qltb_lt. now rewrite H.
    + apply Qltb_ge in E. apply Qltb_ge. now rewrite H.
  - intros x y. destruct (Qltb y x) eqn:E; simpl.
    + apply Qltb_lt in E. destruct (Qle_bool x y) eqn:E'; [|reflexivity].
      apply Qle_bool_iff in E'. now apply Qle_not_lt in E'.
    + apply Qltb_ge in E. now apply Qle_bool_iff.
Qed.

Section ExtLaws.
Context {A : Type} `{NumberLaws A}.

Lemma ext_ltb_irrefl (x : ext A) : ext_ltb x x = false.
Proof. destruct x; simpl; auto using num_ltb_irrefl. Qed.

Lemma ext_ltb_trans (x y z : ext A) :
  ext_ltb x y = true -> ext_ltb y z = true -> ext_ltb x z = true.
Proof.
  destruct x, y, z; simpl; try congruence. apply num_ltb_trans.
Qed.

Lemma ext_ltb_negtrans (x y z : ext A) :
  ext_ltb x y = false -> ext_ltb y z = false -> ext_ltb x z = false.
Proof.
  destruct x, y, z; simpl; try congruence. apply num_ltb_negtrans.
Qed.

Lemma ext_eqb_total (x y : ext A) :
  ext_ltb x y = false -> ext_ltb y x = false -> ext_eqb x y = true.
Proof.
  destruct x, y; simpl; try congruence. apply num_eqb_total.
Qed.

Lemma ext_eqb_sym (x y : ext A) : ext_eqb x y = true -> ext_eqb y x = true.
Proof.
  destruct x, y; simpl; try congruence. apply num_eqb_sym.
Qed.

Lemma ext_eqb_trans (x y z : ext A) :
  ext_eqb x y = true -> ext_eqb y z = true -> ext_eqb x z = true.
Proof.
  destruct x, y, z; simpl; try congruence. apply num_eqb_trans.
Qed.

Lemma ext_ltb_eqb_l (x y z : ext A) : ext_eqb x y = true -> ext_ltb x z = ext_ltb y z.
Proof.
  destruct x, y, z; simpl; try congruence. apply num_ltb_eqb_l.
Qed.

Lemma ext_ltb_eqb_r (x y z : ext A) : ext_eqb x y = true -> ext_ltb z x = ext_ltb z y.
Proof.
  destruct x, y, z; simpl; try congruence. apply num_ltb_eqb_r.
Qed.

Lemma ext_eqb_refl (x : ext A) : ext_eqb x x = true.
Proof. apply ext_eqb_total; apply ext_ltb_irrefl. Qed.

Lemma ext_leb_ltb (x y : ext A) : ext_leb x y = negb (ext_ltb y x).
Proof.
  destruct x, y; simpl; try reflexivity. apply num_leb_ltb.
Qed.

Lemma ext_ltb_asym (x y : ext A) : ext_ltb x y = true -> ext_ltb y x = false.
Proof.
  intros Hxy. destruct (ext_ltb y x) eqn:E; [|reflexivity].
  rewrite <- (ext_ltb_irrefl x). symmetry. now apply (ext_ltb_trans x y x).
Qed.

Lemma ext_lt_le_trans (x y z : ext A) :
  ext_ltb x y = true -> ext_ltb z y = false -> ext_ltb x z = true.
Proof.
  intros Hxy Hyz. destruct (ext_ltb x z) eqn:E; [reflexivity|].
  rewrite (ext_ltb_negtrans x z y E Hyz) in Hxy. discriminate.
Qed.

Lemma ext_le_lt_trans (x y z : ext A) :
  ext_ltb y x = false -> ext_ltb y z = true -> ext_ltb x z = true.
Proof.
  intros Hxy Hyz. destruct (ext_ltb x z) eqn:E; [reflexivity|].
  rewrite (ext_ltb_negtrans y x z Hxy E) in Hyz. discriminate.
Qed.

Lemma ext_max_cases (v w : ext A) :
  (ext_ltb v w = true /\ ext_max v w = w) \/ (ext_ltb v w = false /\ ext_max v w = v).
Proof. unfold ext_max. destruct (ext_ltb v w); auto. Qed.

Lemma ext_min_cases (v w : ext A) :
  (ext_ltb w v = true /\ ext_min v w = w) \/ (ext_ltb w v = false /\ ext_min v w = v).
Proof. unfold ext_min. destruct (ext_ltb w v); auto. Qed.

Lemma ext_max_ge_l (v w : ext A) : ext_ltb (ext_max v w) v = false.
Proof.
  destruct (ext_max_cases v w) as [[Hlt ->]|[Hge ->]];
    [now apply ext_ltb_asym|apply ext_ltb_irrefl].
Qed.

Lemma ext_max_ge_r (v w : ext A) : ext_ltb (ext_max v w) w = false.
Proof.
  destruct (ext_max_cases v w) as [[Hlt ->]|[Hge ->]];
    [apply ext_ltb_irrefl|exact Hge].
Qed.

Lemma ext_min_le_l (v w : ext A) : ext_ltb v (ext_min v w) = false.
Proof.
  destruct (ext_min_cases v w) as [[Hlt ->]|[Hge ->]];
    [now apply ext_ltb_asym|apply ext_ltb_irrefl].
Qed.

Lemma ext_min_le_r (v w : ext A) : ext_ltb w (ext_min v w) = false.
Proof.
  destruct (ext_min_cases v w) as [[Hlt ->]|[Hge ->]];
    [apply ext_ltb_irrefl|exact Hge].
Qed.

Lemma ext_ltb_NegInf (x : ext A) : ext_ltb x NegInf = false.
Proof. now destruct x. Qed.

Lemma ext_ltb_PosInf (x : ext A) : ext_ltb PosInf x = false.
Proof. now destruct x. Qed.
End ExtLaws.

Lemma ext_eqb_eq (x y : ext Z) : ext_eqb x y = true -> x = y.
Proof.
  destruct x, y; simpl; try congruence. intros H. apply Z.eqb_eq in H. now subst.
Qed.

Lemma action_ltb_irrefl a : action_ltb a a = false.
Proof.
  destruct (action_ltb a a) eqn:E; [|reflexivity].
  apply action_ltb_lt in E. unfold action_lt in E. lia.
Qed.

Lemma action_ltb_trans a b c :
  action_ltb a b = true -> action_ltb b c = true -> action_ltb a c = true.
Proof.
  rewrite !action_ltb_lt. apply action_lt_trans.
Qed.

Lemma action_ltb_negtrans a b c :
  action_ltb a b = false -> action_ltb b c = false -> action_ltb a c = false.
Proof.
  intros H1 H2. destruct (action_ltb a c) eqn:E; [|reflexivity]. exfalso.
  apply action_ltb_lt in E. revert E. apply (action_lt_negtrans a b c);
    rewrite <- action_ltb_lt; congruence.
Qed.

(** ** What the rounds of the loop select *)

Section Pick.
Variable V : Type.
Variables better eqb : V -> V -> bool.
Hypothesis better_irrefl : forall x, better x x = false.
Hypothesis better_trans : forall x y z, better x y = true -> better y z = true -> better x z = true.
Hypothesis better_negtrans :
  forall x y z, better x y = false -> better y z = false -> better x z = false.
Hypothesis eqb_total : forall x y, better x y = false -> better y x = false -> eqb x y = true.
Hypothesis eqb_sym : forall x y, eqb x y = true -> eqb y x = true.
Hypothesis eqb_trans : forall x y z, eqb x y = true -> eqb y z = true -> eqb x z = true.
Hypothesis better_eqb_l : forall x y z, eqb x y = true -> better x z = better y z.
Hypothesis better_eqb_r : forall x y z, eqb x y = true -> better z x = better z y.

(** The selected value is at least as good as the initial one and as every
    explored one; the selected action is either the initial one or an
    explored action with exactly the selected value; and no explored action
    whose value equals the selected value is smaller than the selected
    action. *)
Lemma pick_spec (trace : list (Action * V)) :
  forall bv ba v a,
    pick better eqb trace (bv, ba) = (v, a) ->
    better bv v = false /\
    (forall b w, In (b, w) trace -> better w v = false) /\
    ((a = ba /\ v = bv) \/ exists a', a = Some a' /\ In (a', v) trace) /\
    (forall c, ba = Some c -> eqb bv v = true ->
               exists a', a = Some a' /\ action_ltb c a' = false) /\
    (forall b w, In (b, w) trace -> eqb w v = true ->
                 exists a', a = Some a' /\ action_ltb b a' = false).
Proof.
  induction trace as [|[b w] trace IH]; intros bv ba v a Hpick.
  - simpl in Hpick. injection Hpick as <- <-.
    repeat split; try (intros; contradiction); auto.
    intros c -> _. exists c. split; [reflexivity|apply action_ltb_irrefl].
  - unfold pick in Hpick. simpl in Hpick. fold (pick better eqb trace) in Hpick.
    unfold pick_step, improves in Hpick. simpl in Hpick.
    destruct (better w bv) eqn:Hb; simpl in Hpick.
    { (* a strictly better value *)
      destruct (IH _ _ _ _ Hpick) as (H1 & H2 & H3 & H4 & H5).
      assert (Hbv : better bv v = false).
      { destruct (better bv v) eqn:E; [|reflexivity].
        rewrite (better_trans _ _ _ Hb E) in H1. discriminate. }
      split; [exact Hbv|]. split; [|split; [|split]].
      - intros b' w' [[= <- <-]|Hin]; [exact H1|now apply (H2 b')].
      - right. destruct H3 as [[-> ->]|(a' & -> & Hin)].
        + exists b. split; [reflexivity|now left].
        + exists a'. split; [reflexivity|now right].
      - intros c _ He. rewrite (better_eqb_r _ _ w He) in Hb. congruence.
      - intros b' w' [[= <- <-]|Hin] He; [now apply (H4 b)|now apply (H5 b' w')]. }
    destruct (eqb w bv) eqn:He; simpl in Hpick.
    2:{ (* a worse value *)
      destruct (IH _ _ _ _ Hpick) as (H1 & H2 & H3 & H4 & H5).
      split; [exact H1|]. split; [|split; [|split]].
      - intros b' w' [[= <- <-]|Hin]; [now apply (better_negtrans _ bv)|now apply (H2 b')].
      - destruct H3 as [H3|(a' & -> & Hin)]; [now left|].
        right. exists a'. split; [reflexivity|now right].
      - exact H4.
      - intros b' w' [[= <- <-]|Hin] Hwv; [|now apply (H5 b' w')].
        exfalso. rewrite (eqb_total w bv) in He; [discriminate|exact Hb|].
        rewrite (better_eqb_r _ _ bv Hwv). exact H1. }
    assert (Hbvw : forall z, better bv z = better w z).
    { intros z. symmetry. now apply better_eqb_l. }
    destruct ba as [c|]; [destruct (action_ltb b c) eqn:Hlt|]; simpl in Hpick.
    + (* an equal value and a smaller action *)
      destruct (IH _ _ _ _ Hpick) as (H1 & H2 & H3 & H4 & H5).
      split; [now rewrite Hbvw|]. split; [|split; [|split]].
      * intros b' w' [[= <- <-]|Hin]; [exact H1|now apply (H2 b')].
      * right. destruct H3 as [[-> ->]|(a' & -> & Hin)].
        -- exists b. split; [reflexivity|now left].
        -- exists a'. split; [reflexivity|now right].
      * intros c' [= <-] Hcv.
        destruct (H4 b eq_refl (eqb_trans _ _ _ He Hcv)) as (a' & -> & Hba).
        exists a'. split; [reflexivity|].
        destruct (action_ltb c a') eqn:E; [|reflexivity].
        rewrite (action_ltb_trans _ _ _ Hlt E) in Hba. discriminate.
      * intros b' w' [[= <- <-]|Hin] Hwv; [now apply (H4 b)|now apply (H5 b' w')].
    + (* an equal value and an action that is not smaller *)
      destruct (IH _ _ _ _ Hpick) as (H1 & H2 & H3 & H4 & H5).
      split; [exact H1|]. split; [|split; [|split]].
      * intros b' w' [[= <- <-]|Hin]; [now apply (better_negtrans _ bv)|now apply (H2 b')].
      * destruct H3 as [H3|(a' & -> & Hin)]; [now left|].
        right. exists a'. split; [reflexivity|now right].
      * exact H4.
      * intros b' w' [[= <- <-]|Hin] Hwv; [|now apply (H5 b' w')].
        destruct (H4 c eq_refl (eqb_trans _ _ _ (eqb_sym _ _ He) Hwv)) as (a' & -> & Hca).
        exists a'. split; [reflexivity|]. now apply (action_ltb_negtrans _ c).
    + (* an equal value and no action yet *)
      destruct (IH _ _ _ _ Hpick) as (H1 & H2 & H3 & H4 & H5).
      split; [now rewrite Hbvw|]. split; [|split; [|split]].
      * intros b' w' [[= <- <-]|Hin]; [exact H1|now apply (H2 b')].
      * right. destruct H3 as [[-> ->]|(a' & -> & Hin)].
        -- exists b. split; [reflexivity|now left].
        -- exists a'. split; [reflexivity|now right].
      * intros c' [=].
      * intros b' w' [[= <- <-]|Hin] Hwv; [now apply (H4 b)|now apply (H5 b' w')].
Qed.

(** Once an action is selected, an action stays selected. *)
Lemma pick_some (trace : list (Action * V)) :
  forall bv c, exists v a, pick better eqb trace (bv, Some c) = (v, Some a).
Proof.
  induction trace as [|[b w] trace IH]; intros bv c.
  - exists bv, c. reflexivity.
  - unfold pick. simpl. fold (pick better eqb trace). unfold pick_step. simpl.
    destruct (improves better eqb w b bv (Some c)); apply IH.
Qed.
End Pick.

(** ** The loops select like the rounds *)

Section Traces.
Context {A : Type} `{Number A}.
Variable child : BoardMeta -> ext A -> ext A -> M (ext A).
Variable state : BoardMeta.

Lemma ab_top_max_traced moves :
  forall bv ba alpha beta i v a i',
    ab_top_max child state moves bv ba alpha beta i = Ok ((v, a), i') ->
    exists trace,
      ab_top_max_trace child state moves bv ba alpha beta i = Ok trace /\
      map fst trace = moves /\
      pick better_max ext_eqb trace (bv, ba) = (v, a).
Proof.
  induction moves as [|m moves IH]; intros bv ba alpha beta i v a i' Hrun.
  - simpl in Hrun. injection Hrun as <- <- <-. exists []. repeat split.
  - simpl in Hrun. unfold mbind, lift in Hrun. simpl.
    destruct (result state m) as [s'|e]; [|discriminate]. simpl.
    destruct (child s' alpha beta i) as [[val i1]|e]; [|discriminate]. simpl.
    unfold pick_step. simpl. change (improves better_max ext_eqb val m bv ba)
      with (improves_max val m bv ba).
    destruct (improves_max val m bv ba) eqn:E; simpl;
      destruct (IH _ _ _ _ _ _ _ _ Hrun) as (trace & -> & Hmap & Hpick); simpl;
      exists ((m, val) :: trace); (split; [reflexivity|]);
      (split; [simpl; now rewrite Hmap|]);
      unfold pick; simpl; unfold pick_step at 2; simpl;
      change (improves better_max ext_eqb val m bv ba) with (improves_max val m bv ba);
      rewrite E; exact Hpick.
Qed.

Lemma ab_top_min_traced moves :
  forall bv ba alpha beta i v a i',
    ab_top_min child state moves bv ba alpha beta i = Ok ((v, a), i') ->
    exists trace,
      ab_top_min_trace child state moves bv ba alpha beta i = Ok trace /\
      map fst trace = moves /\
      pick better_min ext_eqb trace (bv, ba) = (v, a).
Proof.
  induction moves as [|m moves IH]; intros bv ba alpha beta i v a i' Hrun.
  - simpl in Hrun. injection Hrun as <- <- <-. exists []. repeat split.
  - simpl in Hrun. unfold mbind, lift in Hrun. simpl.
    destruct (result state m) as [s'|e]; [|discriminate]. simpl.
    destruct (child s' alpha beta i) as [[val i1]|e]; [|discriminate]. simpl.
    unfold pick_step. simpl. change (improves better_min ext_eqb val m bv ba)
      with (improves_min val m bv ba).
    destruct (improves_min val m bv ba) eqn:E; simpl;
      destruct (IH _ _ _ _ _ _ _ _ Hrun) as (trace & -> & Hmap & Hpick); simpl;
      exists ((m, val) :: trace); (split; [reflexivity|]);
      (split; [simpl; now rewrite Hmap|]);
      unfold pick; simpl; unfold pick_step at 2; simpl;
      change (improves better_min ext_eqb val m bv ba) with (improves_min val m bv ba);
      rewrite E; exact Hpick.
Qed.

(** When the evaluation of every successor returns a score that does not
    depend on the window after a single tick, the loop selects among the
    scores. *)
Lemma ab_top_max_scored score moves :
  children_scored child state score moves ->
  forall bv ba alpha beta i,
    ab_top_max child state moves bv ba alpha beta i
    = Ok (pick better_max ext_eqb (map (fun a => (a, score a)) moves) (bv, ba),
          bump i (len moves)).
Proof.
  induction moves as [|m moves IH]; intros Hc bv ba alpha beta i.
  - simpl. unfold mret. now rewrite bump_0.
  - destruct (Hc m (or_introl eq_refl)) as (s' & Hres & Hrun).
    simpl. unfold mbind, lift. rewrite Hres, Hrun.
    unfold pick; simpl; unfold pick_step at 2; simpl.
    change (improves better_max ext_eqb (score m) m bv ba)
      with (improves_max (score m) m bv ba).
    replace (bump i (len (m :: moves))) with (bump (tick i) (len moves))
      by (rewrite tick_bump, bump_bump; f_equal; unfold len; simpl List.length; lia).
    destruct (improves_max (score m) m bv ba);
      apply IH; intros b Hb; apply Hc; now right.
Qed.

Lemma ab_top_min_scored score moves :
  children_scored child state score moves ->
  forall bv ba alpha beta i,
    ab_top_min child state moves bv ba alpha beta i
    = Ok (pick better_min ext_eqb (map (fun a => (a, score a)) moves) (bv, ba),
          bump i (len moves)).
Proof.
  induction moves as [|m moves IH]; intros Hc bv ba alpha beta i.
  - simpl. unfold mret. now rewrite bump_0.
  - destruct (Hc m (or_introl eq_refl)) as (s' & Hres & Hrun).
    simpl. unfold mbind, lift. rewrite Hres, Hrun.
    unfold pick; simpl; unfold pick_step at 2; simpl.
    change (improves better_min ext_eqb (score m) m bv ba)
      with (improves_min (score m) m bv ba).
    replace (bump i (len (m :: moves))) with (bump (tick i) (len moves))
      by (rewrite tick_bump, bump_bump; f_equal; unfold len; simpl List.length; lia).
    destruct (improves_min (score m) m bv ba);
      apply IH; intros b Hb; apply Hc; now right.
Qed.
End Traces.

Section PickExt.
Context {A : Type} `{NumberLaws A}.

Lemma pick_max_spec (trace : list (Action * ext A)) bv ba v a :
  pick better_max ext_eqb trace (bv, ba) = (v, a) ->
  (forall b w, In (b, w) trace -> ext_ltb v w = false) /\
  ((a = ba /\ v = bv) \/ exists a', a = Some a' /\ In (a', v) trace) /\
  (forall b w, In (b, w) trace -> ext_eqb w v = true ->
               exists a', a = Some a' /\ action_ltb b a' = false).
Proof.
  intros Hpick.
  destruct (pick_spec (ext A) better_max ext_eqb
              ext_ltb_irrefl
              (fun x y z H1 H2 => ext_ltb_trans z y x H2 H1)
              (fun x y z H1 H2 => ext_ltb_negtrans z y x H2 H1)
              (fun x y H1 H2 => ext_eqb_total x y H2 H1)
              ext_eqb_sym ext_eqb_trans
              (fun x y z => ext_ltb_eqb_r x y z)
              (fun x y z => ext_ltb_eqb_l x y z)
              trace bv ba v a Hpick)
    as (_ & H2 & H3 & _ & H5).
  auto.
Qed.

Lemma pick_min_spec (trace : list (Action * ext A)) bv ba v a :
  pick better_min ext_eqb trace (bv, ba) = (v, a) ->
  (forall b w, In (b, w) trace -> ext_ltb w v = false) /\
  ((a = ba /\ v = bv) \/ exists a', a = Some a' /\ In (a', v) trace) /\
  (forall b w, In (b, w) trace -> ext_eqb w v = true ->
               exists a', a = Some a' /\ action_ltb b a' = false).
Proof.
  intros Hpick.
  destruct (pick_spec (ext A) better_min ext_eqb
              ext_ltb_irrefl ext_ltb_trans ext_ltb_negtrans ext_eqb_total
              ext_eqb_sym ext_eqb_trans
              (fun x y z => ext_ltb_eqb_l x y z)
              (fun x y z => ext_ltb_eqb_r x y z)
              trace bv ba v a Hpick)
    as (_ & H2 & H3 & _ & H5).
  auto.
Qed.

(** The first explored action is always selected. *)
Lemma pick_first_max (trace : list (Action * ext A)) b w :
  exists v a, pick better_max ext_eqb ((b, w) :: trace) (NegInf, None) = (v, Some a).
Proof.
  unfold pick. simpl. fold (pick better_max ext_eqb trace).
  replace (pick_step better_max ext_eqb (NegInf, None) (b, w)) with (w, Some b).
  - apply pick_some.
  - unfold pick_step, improves, better_max. simpl. now destruct w.
Qed.

Lemma pick_first_min (trace : list (Action * ext A)) b w :
  exists v a, pick better_min ext_eqb ((b, w) :: trace) (PosInf, None) = (v, Some a).
Proof.
  unfold pick. simpl. fold (pick better_min ext_eqb trace).
  replace (pick_step better_min ext_eqb (PosInf, None) (b, w)) with (w, Some b).
  - apply pick_some.
  - unfold pick_step, improves, better_min. simpl. now destruct w.
Qed.
End PickExt.

(** ** The depth-limited search at depth one *)

Lemma DL_unexpanded_node eval_fn ord f s alpha beta v :
  one_ply_score eval_fn s = Ok v ->
  forall i, DL.max_value eval_fn ord (S f) s alpha beta 0 i = Ok (v, tick i) /\
            DL.min_value eval_fn ord (S f) s alpha beta 0 i = Ok (v, tick i).
Proof.
  unfold one_ply_score. intros Hs i.
  destruct (utility s) as [[u|]|e] eqn:Hu; simpl in Hs; try discriminate.
  - injection Hs as <-. now apply DL_terminal_node.
  - destruct (eval_fn s) as [x|e] eqn:Hx; simpl in Hs; [|discriminate].
    injection Hs as <-. now apply DL_cutoff_node.
Qed.

(** With depth budget 1 (the children are entered with budget 0), on a
    well-formed state with at least one legal action whose successors can
    be scored, [search] performs a one-ply lookahead: it ticks once per
    legal action and returns the action whose successor has the best score
    for the side to move (maximum for X, minimum for O), the smallest
    action among equal scores; the score of a successor is its exact
    utility when it is terminal and its [eval_fn] score otherwise. *)
Lemma search_depth_one_is_one_ply_lookahead fuel state eval_fn sink ord p moves :
  wf state ->
  player state = Ok p ->
  actions state = Ok moves ->
  moves <> [] ->
  (forall a, In a moves -> exists x, one_ply_score eval_fn (succ_state state a) = Ok x) ->
  exists a v,
    search (S fuel) state 1 eval_fn sink ord = Ok ((v, Some a), mkInstrument (len moves)) /\
    In a moves /\
    one_ply_score eval_fn (succ_state state a) = Ok v /\
    forall b w, In b moves -> one_ply_score eval_fn (succ_state state b) = Ok w ->
                (match p with X => ext_ltb v w | O => ext_ltb w v end) = false /\
                (ext_eqb w v = true -> action_ltb b a = false).
Proof.
  intros Hwf Hp Hacts Hne Hscore.
  destruct (order_moves_perm state ord moves Hacts) as (l & Hord & Hperm).
  set (score := fun a => match one_ply_score eval_fn (succ_state state a) with
                         | Ok v => v
                         | Err _ => NegInf
                         end).
  assert (Hsc : forall a, In a moves -> one_ply_score eval_fn (succ_state state a) = Ok (score a)).
  { intros a Ha. destruct (Hscore a Ha) as [x Hx]. unfold score. now rewrite Hx. }
  assert (Hchildren : forall child,
             (child = (fun s' al be => DL.min_value eval_fn ord (S fuel) s' al be (1 - 1)) \/
              child = (fun s' al be => DL.max_value eval_fn ord (S fuel) s' al be (1 - 1))) ->
             children_scored child state score l).
  { intros child Hchild a Ha.
    apply (Permutation_in _ (Permutation_sym Hperm)) in Ha.
    destruct (result_of_action state moves a Hwf Hacts Ha) as (s' & Hres & _).
    exists s'. split; [exact Hres|]. intros al be i.
    specialize (Hsc a Ha). unfold succ_state in Hsc. rewrite Hres in Hsc.
    destruct (DL_unexpanded_node eval_fn ord fuel s' al be _ Hsc i) as [H1 H2].
    destruct Hchild as [-> | ->]; assumption. }
  assert (Hlen : len l = len moves).
  { unfold len. now rewrite (Permutation_length Hperm). }
  assert (Hin : forall b w, In b moves -> one_ply_score eval_fn (succ_state state b) = Ok w ->
                            In (b, w) (map (fun a => (a, score a)) l)).
  { intros b w Hb Hw. apply in_map_iff. exists b. split.
    - rewrite (Hsc b Hb) in Hw. now injection Hw as <-.
    - now apply (Permutation_in _ Hperm). }
  assert (Hback : forall b w, In (b, w) (map (fun a => (a, score a)) l) ->
                              In b moves /\ one_ply_score eval_fn (succ_state state b) = Ok w).
  { intros b w Hbw. apply in_map_iff in Hbw as (b' & [= <- <-] & Hb').
    apply (Permutation_in _ (Permutation_sym Hperm)) in Hb'. auto. }
  destruct l as [|m l].
  { apply Permutation_sym, Permutation_nil in Hperm. contradiction. }
  unfold search, mbind, lift. rewrite Hp.
  destruct p; rewrite Hord.
  - rewrite (ab_top_max_scored _ state score (m :: l) (Hchildren _ (or_introl eq_refl))).
    rewrite prepare_sink_bump, Hlen.
    destruct (pick_first_max (map (fun a => (a, score a)) l) m (score m)) as (v & a & Hpick).
    change ((m, score m) :: map (fun a => (a, score a)) l)
      with (map (fun a => (a, score a)) (m :: l)) in Hpick.
    exists a, v. split; [exact (f_equal (fun best => Ok (best, mkInstrument (len moves))) Hpick)|].
    destruct (pick_max_spec _ _ _ _ _ Hpick) as (H1 & H2 & H3).
    destruct H2 as [[[=] _]|(a' & [= <-] & Ha)].
    destruct (Hback _ _ Ha) as [Ham Hav].
    split; [exact Ham|]. split; [exact Hav|].
    intros b w Hb Hw. specialize (Hin b w Hb Hw). split.
    + now apply (H1 b).
    + intros He. destruct (H3 b w Hin He) as (a' & [= <-] & Hlt). exact Hlt.
  - rewrite (ab_top_min_scored _ state score (m :: l) (Hchildren _ (or_intror eq_refl))).
    rewrite prepare_sink_bump, Hlen.
    destruct (pick_first_min (map (fun a => (a, score a)) l) m (score m)) as (v & a & Hpick).
    change ((m, score m) :: map (fun a => (a, score a)) l)
      with (map (fun a => (a, score a)) (m :: l)) in Hpick.
    exists a, v. split; [exact (f_equal (fun best => Ok (best, mkInstrument (len moves))) Hpick)|].
    destruct (pick_min_spec _ _ _ _ _ Hpick) as (H1 & H2 & H3).
    destruct H2 as [[[=] _]|(a' & [= <-] & Ha)].
    destruct (Hback _ _ Ha) as [Ham Hav].
    split; [exact Ham|]. split; [exact Hav|].
    intros b w Hb Hw. specialize (Hin b w Hb Hw). split.
    + now apply (H1 b).
    + intros He. destruct (H3 b w Hin He) as (a' & [= <-] & Hlt). exact Hlt.
Qed.

Lemma one_winning_move_wf : wf one_winning_move.
Proof.
  unfold one_winning_move, wf. split; [reflexivity|]. repeat constructor.
Qed.

Lemma search_depth_one_is_one_ply_lookahead_witness :
  exists a v,
    search 1 one_winning_move 1 default_eval None true
    = Ok ((v, Some a), mkInstrument (len [(0, 0); (0, 1); (2, 1)])) /\
    In a [(0, 0); (0, 1); (2, 1)] /\
    one_ply_score default_eval (succ_state one_winning_move a) = Ok v /\
    forall b w, In b [(0, 0); (0, 1); (2, 1)] ->
                one_ply_score default_eval (succ_state one_winning_move b) = Ok w ->
                ext_ltb v w = false /\
                (ext_eqb w v = true -> action_ltb b a = false).
Proof.
  apply (search_depth_one_is_one_ply_lookahead 0 one_winning_move default_eval None true X
           [(0, 0); (0, 1); (2, 1)]).
  - exact one_winning_move_wf.
  - vm_compute. reflexivity.
  - vm_compute. reflexivity.
  - discriminate.
  - intros a [<-|[<-|[<-|[]]]]; eexists; vm_compute; reflexivity.
Defined.

(** C2, at a failing input: in [one_winning_move] X is to move and the
    successors of the legal actions (0,0), (0,1), (2,1) have the heuristic
    scores 11.25, 12.5 and 123.75, so the one-ply choice by [eval_fn] is
    (2,1).  With depth 0 the children are entered with the budget -1, which
    never equals 0: a recursion budget of one nested call is exhausted, the
    search runs down to the terminal states, visits 9 nodes where there are
    3 successors, and returns the action (0,1) with the value 1.0 of a full
    search. *)
Theorem C2_depth_zero_runs_a_full_search :
  player one_winning_move = Ok X /\
  utility one_winning_move = Ok None /\
  actions one_winning_move = Ok [(0, 0); (0, 1); (2, 1)] /\
  map (fun a => s' <- result one_winning_move a ;; x <- default_eval s' ;; Ok (float_value x))
      [(0, 0); (0, 1); (2, 1)]
  = [Ok (Fin (45 # 4)); Ok (Fin (25 # 2)); Ok (Fin (495 # 4))] /\
  ext_ltb (Fin (45 # 4)) (Fin (495 # 4)) = true /\
  ext_ltb (Fin (25 # 2)) (Fin (495 # 4)) = true /\
  search 1 one_winning_move 0 default_eval None true = Err RecursionError /\
  search 3 one_winning_move 0 default_eval None true
  = Ok ((Fin 1%Q, Some (0, 1)), mkInstrument 9).
Proof.
  repeat apply conj; vm_compute; reflexivity.
Qed.

(** ** The action returned by the pruned search *)

(** C1, at a failing input: [one_winning_move] is reached by legal play from
    the empty 3x3 board; X is to move and exactly one action, (2,1), has
    the optimal minimax value 1 (the two others have value 0).  [minimax]
    and [minimax_ab] return the value 1 under both ordering settings, but
    with [use_ordering=True] the action returned is (0,1), which is not
    optimal: the actions of the two settings differ although no two
    actions tie for the optimal value. *)
Theorem C1_actions_differ_without_a_tie :
  play_moves [(2, 2); (1, 1); (2, 0); (1, 0); (1, 2); (0, 2)] (initial_state 3 3)
  = Ok one_winning_move /\
  player one_winning_move = Ok X /\
  actions one_winning_move = Ok [(0, 0); (0, 1); (2, 1)] /\
  map (minimax_value_of_move X 3 one_winning_move) [(0, 0); (0, 1); (2, 1)]
  = [Fin 0; Fin 0; Fin 1] /\
  minimax 3 one_winning_move None = Ok ((Fin 1, Some (2, 1)), mkInstrument 11) /\
  minimax_ab 3 one_winning_move None false = Ok ((Fin 1, Some (2, 1)), mkInstrument 11) /\
  minimax_ab 3 one_winning_move None true = Ok ((Fin 1, Some (0, 1)), mkInstrument 9).
Proof.
  repeat apply conj; vm_compute; reflexivity.
Qed.

(** ** Recursion depth of the depth-limited search *)

(** C8, at a failing input: in [one_winning_move] (three empty cells) a
    search of depth 1 needs one level of recursion, but a search of depth 0
    exhausts a recursion budget of 1 and of 2 and needs 3 levels, as many
    as there are empty cells: its children are entered with the budget -1,
    which never equals 0. *)
Theorem C8_depth_zero_recursion_exceeds_depth :
  empties one_winning_move = 3%nat /\
  search 1 one_winning_move 1 default_eval None true
  = Ok ((Fin (25 # 2), Some (0, 1)), mkInstrument 3) /\
  search 1 one_winning_move 0 default_eval None true = Err RecursionError /\
  search 2 one_winning_move 0 default_eval None true = Err RecursionError /\
  search 3 one_winning_move 0 default_eval None true
  = Ok ((Fin 1%Q, Some (0, 1)), mkInstrument 9).
Proof.
  repeat apply conj; vm_compute; reflexivity.
Qed.

(* ================================================================= *)
(** * Termination of the searches *)

(** Each of the three searches returns on every well-formed state as soon
    as the recursion budget reaches the number of empty cells, whatever the
    depth budget of [search], provided the evaluation function of [search]
    returns on the well-formed states of the game. *)
Lemma searches_return fuel state depth eval_fn sink ord :
  (forall s, wf s -> game_of s = game_of state -> exists x, eval_fn s = Ok x) ->
  wf state -> (empties state <= fuel)%nat ->
  (exists r c, minimax fuel state sink = Ok (r, c)) /\
  (exists r c, minimax_ab fuel state sink ord = Ok (r, c)) /\
  (exists r c, search fuel state depth eval_fn sink ord = Ok (r, c)).
Proof.
  intros Heval Hwf Hfuel. split; [|split].
  - destruct (minimax_run fuel state sink Hwf Hfuel) as (p & moves & r & _ & _ & Hrun). eauto.
  - destruct (minimax_ab_run fuel state sink ord Hwf Hfuel)
      as (p & moves & r & n & _ & _ & Hrun & _). eauto.
  - destruct (search_run fuel state depth eval_fn sink ord Heval Hwf Hfuel)
      as (p & moves & r & n & _ & _ & Hrun & _). eauto.
Qed.

(** ** A positive depth budget bounds the recursion *)

Section ReturningLoops.
Context {A : Type} `{Number A}.
Variable child : BoardMeta -> ext A -> ext A -> M (ext A).
Variable s : BoardMeta.

Lemma children_return_tail a moves :
  children_return child s (a :: moves) -> children_return child s moves.
Proof. intros Hc b Hb. apply Hc. now right. Qed.

Lemma ab_loop_max_returns moves :
  children_return child s moves ->
  forall v alpha beta i, exists v' i', ab_loop_max child s moves v alpha beta i = Ok (v', i').
Proof.
  induction moves as [|a moves IH]; intros Hc v alpha beta i.
  - simpl. unfold mret. eauto.
  - destruct (Hc a (or_introl eq_refl)) as (s' & Hres & Hrun).
    destruct (Hrun alpha beta i) as (w & i1 & Hw).
    simpl. unfold mbind, lift. rewrite Hres, Hw.
    destruct (ext_leb beta (ext_max v w)); [unfold mret; eauto|].
    apply (IH (children_return_tail _ _ Hc)).
Qed.

Lemma ab_loop_min_returns moves :
  children_return child s moves ->
  forall v alpha beta i, exists v' i', ab_loop_min child s moves v alpha beta i = Ok (v', i').
Proof.
  induction moves as [|a moves IH]; intros Hc v alpha beta i.
  - simpl. unfold mret. eauto.
  - destruct (Hc a (or_introl eq_refl)) as (s' & Hres & Hrun).
    destruct (Hrun alpha beta i) as (w & i1 & Hw).
    simpl. unfold mbind, lift. rewrite Hres, Hw.
    destruct (ext_leb (ext_min v w) alpha); [unfold mret; eauto|].
    apply (IH (children_return_tail _ _ Hc)).
Qed.

Lemma ab_top_max_returns moves :
  children_return child s moves ->
  forall bv ba alpha beta i,
  exists r i', ab_top_max child s moves bv ba alpha beta i = Ok (r, i').
Proof.
  induction moves as [|a moves IH]; intros Hc bv ba alpha beta i.
  - simpl. unfold mret. eauto.
  - destruct (Hc a (or_introl eq_refl)) as (s' & Hres & Hrun).
    destruct (Hrun alpha beta i) as (w & i1 & Hw).
    simpl. unfold mbind, lift. rewrite Hres, Hw.
    destruct (improves_max w a bv ba); apply (IH (children_return_tail _ _ Hc)).
Qed.

Lemma ab_top_min_returns moves :
  children_return child s moves ->
  forall bv ba alpha beta i,
  exists r i', ab_top_min child s moves bv ba alpha beta i = Ok (r, i').
Proof.
  induction moves as [|a moves IH]; intros Hc bv ba alpha beta i.
  - simpl. unfold mret. eauto.
  - destruct (Hc a (or_introl eq_refl)) as (s' & Hres & Hrun).
    destruct (Hrun alpha beta i) as (w & i1 & Hw).
    simpl. unfold mbind, lift. rewrite Hres, Hw.
    destruct (improves_min w a bv ba); apply (IH (children_return_tail _ _ Hc)).
Qed.
End ReturningLoops.

Lemma children_return_of {A} (child : BoardMeta -> ext A -> ext A -> M (ext A)) s moves l :
  wf s -> actions s = Ok moves -> Permutation moves l ->
  (forall s', wf s' -> game_of s' = game_of s ->
              forall alpha beta i, exists w i', child s' alpha beta i = Ok (w, i')) ->
  children_return child s l.
Proof.
  intros Hwf Hacts Hperm Hchild a Ha.
  apply (Permutation_in _ (Permutation_sym Hperm)) in Ha.
  destruct (result_of_action s moves a Hwf Hacts Ha) as (s' & Hres & Hwf' & _).
  exists s'. split; [exact Hres|]. apply Hchild; [exact Hwf'|exact (result_game _ _ _ Hres)].
Qed.

(** A node entered with a depth budget [d >= 0] returns within [d + 1]
    nested calls, however many cells are empty. *)
Lemma DL_within_depth eval_fn ord g fuel :
  (forall s, wf s -> game_of s = g -> exists x, eval_fn s = Ok x) ->
  forall s d, wf s -> game_of s = g -> 0 <= d < Z.of_nat fuel ->
    forall alpha beta i,
      (exists v i', DL.max_value eval_fn ord fuel s alpha beta d i = Ok (v, i')) /\
      (exists v i', DL.min_value eval_fn ord fuel s alpha beta d i = Ok (v, i')).
Proof.
  intros Heval.
  induction fuel as [|f IH]; intros s d Hwf Hg Hd alpha beta i; [lia|].
  destruct (utility_total s Hwf) as [u Hu].
  destruct u as [u|].
  - destruct (DL_terminal_node eval_fn ord f s u alpha beta d Hu i) as [-> ->].
    split; eexists _, _; reflexivity.
  - destruct (Z.eqb_spec d 0) as [->|Hd0].
    { destruct (Heval s Hwf Hg) as [x Hx].
      destruct (DL_cutoff_node eval_fn ord f s alpha beta x Hu Hx i) as [-> ->].
      split; eexists _, _; reflexivity. }
    destruct (actions_total s Hwf) as [moves Hacts].
    destruct (order_moves_perm s ord moves Hacts) as (l & Hord & Hperm).
    rewrite DL_max_value_eq, DL_min_value_eq. unfold mbind, do_tick, lift.
    rewrite Hu, Hord. apply Z.eqb_neq in Hd0. rewrite Hd0. split.
    + apply ab_loop_max_returns.
      apply (children_return_of _ s moves l Hwf Hacts Hperm).
      intros s' Hwf' Hg' al be j. apply (IH s' (d - 1) Hwf' (eq_trans Hg' Hg)). lia.
    + apply ab_loop_min_returns.
      apply (children_return_of _ s moves l Hwf Hacts Hperm).
      intros s' Hwf' Hg' al be j. apply (IH s' (d - 1) Hwf' (eq_trans Hg' Hg)). lia.
Qed.

(** With a depth budget of at least 1, [search] returns as soon as the
    recursion budget reaches the depth budget, provided its evaluation
    function returns on the well-formed states of the game. *)
Lemma search_within_depth fuel state depth eval_fn sink ord :
  (forall s, wf s -> game_of s = game_of state -> exists x, eval_fn s = Ok x) ->
  wf state -> 1 <= depth <= Z.of_nat fuel ->
  exists r c, search fuel state depth eval_fn sink ord = Ok (r, c).
Proof.
  intros Heval Hwf Hd.
  destruct (player_total state Hwf) as [p Hp].
  destruct (actions_total state Hwf) as [moves Hacts].
  destruct (order_moves_perm state ord moves Hacts) as (l & Hord & Hperm).
  unfold search, mbind, lift. rewrite Hp. destruct p; rewrite Hord.
  - apply ab_top_max_returns.
    apply (children_return_of _ state moves l Hwf Hacts Hperm).
    intros s' Hwf' Hg' al be j.
    apply (DL_within_depth eval_fn ord _ fuel Heval s' (depth - 1) Hwf' Hg'). lia.
  - apply ab_top_min_returns.
    apply (children_return_of _ state moves l Hwf Hacts Hperm).
    intros s' Hwf' Hg' al be j.
    apply (DL_within_depth eval_fn ord _ fuel Heval s' (depth - 1) Hwf' Hg'). lia.
Qed.

(* ================================================================= *)
(** * The value of the pruned search is the minimax value *)

Section SoundLoops.
Context {A : Type} `{NumberLaws A}.
Variable child : BoardMeta -> ext A -> ext A -> M (ext A).
Variable s : BoardMeta.
Variable exact : Action -> ext A.

Lemma ext_le_refl (x : ext A) : ext_le x x.
Proof. apply ext_ltb_irrefl. Qed.

Lemma ext_le_trans (x y z : ext A) : ext_le x y -> ext_le y z -> ext_le x z.
Proof. unfold ext_le. intros Hxy Hyz. exact (ext_ltb_negtrans z y x Hyz Hxy). Qed.

Lemma children_sound_tail a moves :
  children_sound child s exact (a :: moves) -> children_sound child s exact moves.
Proof. intros Hc b Hb. apply Hc. now right. Qed.

Lemma ab_loop_max_sound moves :
  children_sound child s exact moves ->
  forall v0 alpha0 beta i v i',
    ab_loop_max child s moves v0 alpha0 beta i = Ok (v, i') ->
    (ext_ltb v beta = true ->
     ext_le v0 v /\ forall a, In a moves -> ext_le (exact a) v) /\
    (ext_ltb alpha0 v = true ->
     ext_le v v0 \/ exists a, In a moves /\ ext_le v (exact a)).
Proof.
  induction moves as [|a moves IH]; intros Hc v0 alpha0 beta i v i' Hrun.
  - simpl in Hrun. injection Hrun as <- <-. split.
    + intros _. split; [apply ext_le_refl|intros a []].
    + intros _. left. apply ext_le_refl.
  - destruct (Hc a (or_introl eq_refl)) as (s' & Hres & Hsound).
    simpl in Hrun. unfold mbind, lift in Hrun. rewrite Hres in Hrun.
    destruct (child s' alpha0 beta i) as [[w i1]|e] eqn:Hw; [|discriminate].
    destruct (Hsound _ _ _ _ _ Hw) as [Hup Hlo].
    assert (Hnear : ext_ltb alpha0 v = true -> ext_le v (ext_max v0 w) ->
                    ext_le v v0 \/ exists b, In b (a :: moves) /\ ext_le v (exact b)).
    { intros Ha Hle. destruct (ext_max_cases v0 w) as [[_ Hmax]|[_ Hmax]]; rewrite Hmax in Hle.
      - right. exists a. split; [now left|].
        apply (ext_le_trans _ w); [exact Hle|]. apply Hlo.
        exact (ext_lt_le_trans alpha0 v w Ha Hle).
      - now left. }
    destruct (ext_leb beta (ext_max v0 w)) eqn:Hcut.
    + injection Hrun as <- <-. rewrite ext_leb_ltb in Hcut.
      apply negb_true_iff in Hcut. split; [congruence|].
      intros Ha. apply (Hnear Ha). apply ext_le_refl.
    + apply (IH (children_sound_tail _ _ Hc)) in Hrun as [IHup IHlo]. split.
      * intros Hlt. destruct (IHup Hlt) as [H1 H2].
        assert (Hwv : ext_le w v).
        { apply (ext_le_trans _ (ext_max v0 w)); [apply ext_max_ge_r|exact H1]. }
        split.
        -- apply (ext_le_trans _ (ext_max v0 w)); [apply ext_max_ge_l|exact H1].
        -- intros b [<-|Hb]; [|now apply H2].
           apply (ext_le_trans _ w); [|exact Hwv].
           apply Hup. exact (ext_le_lt_trans w v beta Hwv Hlt).
      * intros Ha.
        destruct (ext_ltb (ext_max alpha0 (ext_max v0 w)) v) eqn:Ha1.
        -- destruct (IHlo eq_refl) as [Hle|(b & Hb & Hle)]; [now apply Hnear|].
           right. exists b. split; [now right|exact Hle].
        -- destruct (ext_max_cases alpha0 (ext_max v0 w)) as [[_ Hmax]|[_ Hmax]];
             rewrite Hmax in Ha1; [now apply Hnear|congruence].
Qed.

Lemma ab_loop_min_sound moves :
  children_sound child s exact moves ->
  forall v0 alpha beta0 i v i',
    ab_loop_min child s moves v0 alpha beta0 i = Ok (v, i') ->
    (ext_ltb alpha v = true ->
     ext_le v v0 /\ forall a, In a moves -> ext_le v (exact a)) /\
    (ext_ltb v beta0 = true ->
     ext_le v0 v \/ exists a, In a moves /\ ext_le (exact a) v).
Proof.
  induction moves as [|a moves IH]; intros Hc v0 alpha beta0 i v i' Hrun.
  - simpl in Hrun. injection Hrun as <- <-. split.
    + intros _. split; [apply ext_le_refl|intros a []].
    + intros _. left. apply ext_le_refl.
  - destruct (Hc a (or_introl eq_refl)) as (s' & Hres & Hsound).
    simpl in Hrun. unfold mbind, lift in Hrun. rewrite Hres in Hrun.
    destruct (child s' alpha beta0 i) as [[w i1]|e] eqn:Hw; [|discriminate].
    destruct (Hsound _ _ _ _ _ Hw) as [Hup Hlo].
    assert (Hnear : ext_ltb v beta0 = true -> ext_le (ext_min v0 w) v ->
                    ext_le v0 v \/ exists b, In b (a :: moves) /\ ext_le (exact b) v).
    { intros Hb Hle. destruct (ext_min_cases v0 w) as [[_ Hmin]|[_ Hmin]]; rewrite Hmin in Hle.
      - right. exists a. split; [now left|].
        apply (ext_le_trans _ w); [|exact Hle]. apply Hup.
        exact (ext_le_lt_trans w v beta0 Hle Hb).
      - now left. }
    destruct (ext_leb (ext_min v0 w) alpha) eqn:Hcut.
    + injection Hrun as <- <-. rewrite ext_leb_ltb in Hcut.
      apply negb_true_iff in Hcut. split; [congruence|].
      intros Hb. apply (Hnear Hb). apply ext_le_refl.
    + apply (IH (children_sound_tail _ _ Hc)) in Hrun as [IHlo IHup]. split.
      * intros Hlt. destruct (IHlo Hlt) as [H1 H2].
        assert (Hvw : ext_le v w).
        { apply (ext_le_trans _ (ext_min v0 w)); [exact H1|apply ext_min_le_r]. }
        split.
        -- apply (ext_le_trans _ (ext_min v0 w)); [exact H1|apply ext_min_le_l].
        -- intros b [<-|Hb]; [|now apply H2].
           apply (ext_le_trans _ w); [exact Hvw|].
           apply Hlo. exact (ext_lt_le_trans alpha v w Hlt Hvw).
      * intros Hb.
        destruct (ext_ltb v (ext_min beta0 (ext_min v0 w))) eqn:Hb1.
        -- destruct (IHup eq_refl) as [Hle|(b & Hin & Hle)]; [now apply Hnear|].
           right. exists b. split; [now right|exact Hle].
        -- destruct (ext_min_cases beta0 (ext_min v0 w)) as [[_ Hmin]|[_ Hmin]];
             rewrite Hmin in Hb1; [now apply Hnear|congruence].
Qed.

(** The folds of [minimax] compute a maximum and a minimum. *)
Lemma fold_max_ge (g : Action -> ext A) moves :
  forall v0, ext_le v0 (fold_left (fun v a => ext_max v (g a)) moves v0) /\
             forall a, In a moves ->
                       ext_le (g a) (fold_left (fun v a => ext_max v (g a)) moves v0).
Proof.
  induction moves as [|b moves IH]; intros v0; simpl.
  - split; [apply ext_le_refl|intros a []].
  - destruct (IH (ext_max v0 (g b))) as [H1 H2]. split.
    + apply (ext_le_trans _ (ext_max v0 (g b))); [apply ext_max_ge_l|exact H1].
    + intros a [->|Ha]; [|now apply H2].
      apply (ext_le_trans _ (ext_max v0 (g a))); [apply ext_max_ge_r|exact H1].
Qed.

Lemma fold_max_le (g : Action -> ext A) moves u :
  forall v0, ext_le v0 u -> (forall a, In a moves -> ext_le (g a) u) ->
             ext_le (fold_left (fun v a => ext_max v (g a)) moves v0) u.
Proof.
  induction moves as [|b moves IH]; intros v0 Hv Hall; simpl; [exact Hv|].
  apply IH; [|intros a Ha; apply Hall; now right].
  destruct (ext_max_cases v0 (g b)) as [[_ ->]|[_ ->]]; [|exact Hv].
  apply Hall. now left.
Qed.

Lemma fold_min_le (g : Action -> ext A) moves :
  forall v0, ext_le (fold_left (fun v a => ext_min v (g a)) moves v0) v0 /\
             forall a, In a moves ->
                       ext_le (fold_left (fun v a => ext_min v (g a)) moves v0) (g a).
Proof.
  induction moves as [|b moves IH]; intros v0; simpl.
  - split; [apply ext_le_refl|intros a []].
  - destruct (IH (ext_min v0 (g b))) as [H1 H2]. split.
    + apply (ext_le_trans _ (ext_min v0 (g b))); [exact H1|apply ext_min_le_l].
    + intros a [->|Ha]; [|now apply H2].
      apply (ext_le_trans _ (ext_min v0 (g a))); [exact H1|apply ext_min_le_r].
Qed.

Lemma fold_min_ge (g : Action -> ext A) moves u :
  forall v0, ext_le u v0 -> (forall a, In a moves -> ext_le u (g a)) ->
             ext_le u (fold_left (fun v a => ext_min v (g a)) moves v0).
Proof.
  induction moves as [|b moves IH]; intros v0 Hv Hall; simpl; [exact Hv|].
  apply IH; [|intros a Ha; apply Hall; now right].
  destruct (ext_min_cases v0 (g b)) as [[_ ->]|[_ ->]]; [|exact Hv].
  apply Hall. now left.
Qed.
End SoundLoops.

Section SoundTop.
Context {A : Type} `{NumberLaws A}.
Hypothesis ext_eqb_is_eq : forall x y : ext A, ext_eqb x y = true -> x = y.
Variable child : BoardMeta -> ext A -> ext A -> M (ext A).
Variable s : BoardMeta.
Variable exact : Action -> ext A.

Lemma sound_below_PosInf alpha (w e : ext A) : window_sound alpha PosInf w e -> ext_le e w.
Proof.
  intros [Hup _]. destruct (ext_ltb w PosInf) eqn:E; [now apply Hup|].
  destruct w; simpl in E; try discriminate. apply ext_ltb_PosInf.
Qed.

Lemma sound_above_NegInf beta (w e : ext A) : window_sound NegInf beta w e -> ext_le w e.
Proof.
  intros [_ Hlo]. destruct (ext_ltb NegInf w) eqn:E; [now apply Hlo|].
  destruct w; simpl in E; try discriminate. apply ext_ltb_NegInf.
Qed.

Lemma ext_max_same (x : ext A) : ext_max x x = x.
Proof. unfold ext_max. now rewrite ext_ltb_irrefl. Qed.

Lemma ext_min_same (x : ext A) : ext_min x x = x.
Proof. unfold ext_min. now rewrite ext_ltb_irrefl. Qed.

(** The top-level loop of the maximising side, whose [alpha] is its best
    value: the value returned bounds the exact value of every successor
    from above and is the initial value or at most the exact value of a
    successor. *)
Lemma ab_top_max_sound moves :
  children_sound child s exact moves ->
  forall bv ba i v a' i',
    ab_top_max child s moves bv ba bv PosInf i = Ok ((v, a'), i') ->
    ext_le bv v /\
    (forall a, In a moves -> ext_le (exact a) v) /\
    (v = bv \/ exists a, In a moves /\ ext_le v (exact a)).
Proof.
  induction moves as [|a moves IH]; intros Hc bv ba i v a' i' Hrun.
  - simpl in Hrun. injection Hrun as <- <- <-.
    split; [apply ext_le_refl|]. split; [intros a []|now left].
  - destruct (Hc a (or_introl eq_refl)) as (s' & Hres & Hsound).
    simpl in Hrun. unfold mbind, lift in Hrun. rewrite Hres in Hrun.
    destruct (child s' bv PosInf i) as [[w i1]|e] eqn:Hw; [|discriminate].
    specialize (Hsound _ _ _ _ _ Hw).
    pose proof (sound_below_PosInf _ _ _ Hsound) as Hup. destruct Hsound as [_ Hlo].
    destruct (improves_max w a bv ba) eqn:Himp.
    + assert (Hcase : ext_max bv w = w /\ (ext_ltb bv w = true \/ w = bv)).
      { unfold improves_max in Himp. unfold ext_max.
        destruct (ext_ltb bv w) eqn:E; [auto|]. simpl in Himp.
        apply andb_true_iff in Himp as [Heq _]. apply ext_eqb_is_eq in Heq. auto. }
      destruct Hcase as [Hmax Hcase]. rewrite Hmax in Hrun.
      destruct (IH (children_sound_tail _ _ _ _ _ Hc) _ _ _ _ _ _ Hrun) as (H1 & H2 & H3).
      assert (Hbw : ext_le bv w).
      { destruct Hcase as [Hlt| ->]; [now apply ext_ltb_asym|apply ext_le_refl]. }
      split; [now apply (ext_le_trans bv w v)|]. split.
      * intros b [<-|Hb]; [now apply (ext_le_trans (exact a) w v)|now apply H2].
      * destruct H3 as [->|(b & Hb & Hle)].
        -- destruct Hcase as [Hlt| ->]; [|now left].
           right. exists a. split; [now left|now apply Hlo].
        -- right. exists b. split; [now right|exact Hle].
    + rewrite ext_max_same in Hrun.
      destruct (IH (children_sound_tail _ _ _ _ _ Hc) _ _ _ _ _ _ Hrun) as (H1 & H2 & H3).
      assert (Hwb : ext_le w bv).
      { unfold improves_max in Himp. apply orb_false_iff in Himp as [Hlt _]. exact Hlt. }
      split; [exact H1|]. split.
      * intros b [<-|Hb]; [|now apply H2].
        apply (ext_le_trans _ w); [exact Hup|]. now apply (ext_le_trans w bv v).
      * destruct H3 as [->|(b & Hb & Hle)]; [now left|].
        right. exists b. split; [now right|exact Hle].
Qed.

Lemma ab_top_min_sound moves :
  children_sound child s exact moves ->
  forall bv ba i v a' i',
    ab_top_min child s moves bv ba NegInf bv i = Ok ((v, a'), i') ->
    ext_le v bv /\
    (forall a, In a moves -> ext_le v (exact a)) /\
    (v = bv \/ exists a, In a moves /\ ext_le (exact a) v).
Proof.
  induction moves as [|a moves IH]; intros Hc bv ba i v a' i' Hrun.
  - simpl in Hrun. injection Hrun as <- <- <-.
    split; [apply ext_le_refl|]. split; [intros a []|now left].
  - destruct (Hc a (or_introl eq_refl)) as (s' & Hres & Hsound).
    simpl in Hrun. unfold mbind, lift in Hrun. rewrite Hres in Hrun.
    destruct (child s' NegInf bv i) as [[w i1]|e] eqn:Hw; [|discriminate].
    specialize (Hsound _ _ _ _ _ Hw).
    pose proof (sound_above_NegInf _ _ _ Hsound) as Hlo. destruct Hsound as [Hup _].
    destruct (improves_min w a bv ba) eqn:Himp.
    + assert (Hcase : ext_min bv w = w /\ (ext_ltb w bv = true \/ w = bv)).
      { unfold improves_min in Himp. unfold ext_min.
        destruct (ext_ltb w bv) eqn:E; [auto|]. simpl in Himp.
        apply andb_true_iff in Himp as [Heq _]. apply ext_eqb_is_eq in Heq. auto. }
      destruct Hcase as [Hmin Hcase]. rewrite Hmin in Hrun.
      destruct (IH (children_sound_tail _ _ _ _ _ Hc) _ _ _ _ _ _ Hrun) as (H1 & H2 & H3).
      assert (Hwb : ext_le w bv).
      { destruct Hcase as [Hlt| ->]; [now apply ext_ltb_asym|apply ext_le_refl]. }
      split; [now apply (ext_le_trans v w bv)|]. split.
      * intros b [<-|Hb]; [now apply (ext_le_trans v w (exact a))|now apply H2].
      * destruct H3 as [->|(b & Hb & Hle)].
        -- destruct Hcase as [Hlt| ->]; [|now left].
           right. exists a. split; [now left|now apply Hup].
        -- right. exists b. split; [now right|exact Hle].
    + rewrite ext_min_same in Hrun.
      destruct (IH (children_sound_tail _ _ _ _ _ Hc) _ _ _ _ _ _ Hrun) as (H1 & H2 & H3).
      assert (Hbw : ext_le bv w).
      { unfold improves_min in Himp. apply orb_false_iff in Himp as [Hlt _]. exact Hlt. }
      split; [exact H1|]. split.
      * intros b [<-|Hb]; [|now apply H2].
        apply (ext_le_trans _ w); [|exact Hlo]. now apply (ext_le_trans v bv w).
      * destruct H3 as [->|(b & Hb & Hle)]; [now left|].
        right. exists b. split; [now right|exact Hle].
Qed.
End SoundTop.

Section PlainTop.
Context {A : Type} `{Number A}.
Variable child : BoardMeta -> M (ext A).
Variable s : BoardMeta.

Lemma plain_top_max_scored moves :
  children_steady child s moves ->
  forall bv ba i,
    plain_top_max child s moves bv ba i
    = Ok (pick better_max ext_eqb (map (fun a => (a, child_value child s a)) moves) (bv, ba),
          bump i (total (child_count child s) moves)).
Proof.
  induction moves as [|a moves IH]; intros Hc bv ba i.
  - simpl. unfold mret, total. simpl. now rewrite bump_0.
  - destruct (child_step child s a moves Hc) as (s' & Hres & Hrun & _).
    simpl. unfold mbind, lift. rewrite Hres, Hrun.
    unfold total. simpl. fold (total (child_count child s) moves). rewrite <- bump_bump.
    unfold pick; simpl; unfold pick_step at 2; simpl.
    change (improves better_max ext_eqb (child_value child s a) a bv ba)
      with (improves_max (child_value child s a) a bv ba).
    destruct (improves_max (child_value child s a) a bv ba);
      apply (IH (children_steady_tail _ _ _ _ Hc)).
Qed.

Lemma plain_top_min_scored moves :
  children_steady child s moves ->
  forall bv ba i,
    plain_top_min child s moves bv ba i
    = Ok (pick better_min ext_eqb (map (fun a => (a, child_value child s a)) moves) (bv, ba),
          bump i (total (child_count child s) moves)).
Proof.
  induction moves as [|a moves IH]; intros Hc bv ba i.
  - simpl. unfold mret, total. simpl. now rewrite bump_0.
  - destruct (child_step child s a moves Hc) as (s' & Hres & Hrun & _).
    simpl. unfold mbind, lift. rewrite Hres, Hrun.
    unfold total. simpl. fold (total (child_count child s) moves). rewrite <- bump_bump.
    unfold pick; simpl; unfold pick_step at 2; simpl.
    change (improves better_min ext_eqb (child_value child s a) a bv ba)
      with (improves_min (child_value child s a) a bv ba).
    destruct (improves_min (child_value child s a) a bv ba);
      apply (IH (children_steady_tail _ _ _ _ Hc)).
Qed.
End PlainTop.

(** The value of an inner node of [minimax] is the maximum, or the minimum,
    of the values of its successors. *)
Lemma MM_value_node f s moves :
  wf s -> (empties s < S f)%nat -> utility s = Ok None -> actions s = Ok moves ->
  value_of NegInf (MM.max_value (S f) s)
  = fold_left (fun v a => ext_max v (child_value (MM.min_value f) s a)) moves NegInf /\
  value_of NegInf (MM.min_value (S f) s)
  = fold_left (fun v a => ext_min v (child_value (MM.max_value f) s a)) moves PosInf.
Proof.
  intros Hwf Hfuel Hu Hacts. unfold value_of at 1 2.
  rewrite MM_max_value_eq, MM_min_value_eq. unfold mbind, do_tick, lift.
  rewrite Hu, Hacts. split.
  - rewrite (plain_loop_max_run (MM.min_value f) s moves).
    + reflexivity.
    + apply (children_steady_of _ f s moves Hwf Hacts); [lia|]. intros; now apply MM_steady.
  - rewrite (plain_loop_min_run (MM.max_value f) s moves).
    + reflexivity.
    + apply (children_steady_of _ f s moves Hwf Hacts); [lia|]. intros; now apply MM_steady.
Qed.

Lemma MM_value_terminal f s u :
  utility s = Ok (Some u) ->
  value_of NegInf (MM.max_value (S f) s) = Fin u /\
  value_of NegInf (MM.min_value (S f) s) = Fin u.
Proof.
  intros Hu. unfold value_of.
  destruct (MM_terminal_node f s u Hu Instrument_new) as [-> ->]. split; reflexivity.
Qed.

Lemma children_sound_of (child : BoardMeta -> AB.Value -> AB.Value -> M AB.Value)
      (exact : BoardMeta -> MM.Value) n s moves l :
  wf s -> actions s = Ok moves -> Permutation moves l -> (empties s <= n)%nat ->
  (forall s', wf s' -> (empties s' < n)%nat ->
              forall alpha beta i w i',
                child s' alpha beta i = Ok (w, i') -> window_sound alpha beta w (exact s')) ->
  children_sound child s (fun a => exact (succ_state s a)) l.
Proof.
  intros Hwf Hacts Hperm Hn Hchild a Ha.
  apply (Permutation_in _ (Permutation_sym Hperm)) in Ha.
  destruct (result_of_action s moves a Hwf Hacts Ha) as (s' & Hres & Hwf' & He).
  exists s'. split; [exact Hres|]. unfold succ_state. rewrite Hres.
  apply Hchild; [exact Hwf'|lia].
Qed.

(** Whatever a node of the pruned search returns is sound for its window
    with respect to the value [minimax] gives to the same node. *)
Lemma AB_sound ord fuel :
  forall s, wf s -> (empties s < fuel)%nat ->
    forall alpha beta i v i',
      (AB.max_value ord fuel s alpha beta i = Ok (v, i') ->
       window_sound alpha beta v (value_of NegInf (MM.max_value fuel s))) /\
      (AB.min_value ord fuel s alpha beta i = Ok (v, i') ->
       window_sound alpha beta v (value_of NegInf (MM.min_value fuel s))).
Proof.
  induction fuel as [|f IH]; intros s Hwf Hfuel alpha beta i v i'; [lia|].
  destruct (utility_total s Hwf) as [u Hu].
  destruct u as [u|].
  - destruct (AB_terminal_node ord f s u alpha beta Hu i) as [-> ->].
    destruct (MM_value_terminal f s u Hu) as [-> ->].
    split; intros [= <- <-]; split; intros _; apply ext_le_refl.
  - destruct (actions_total s Hwf) as [moves Hacts].
    destruct (order_moves_perm s ord moves Hacts) as (l & Hord & Hperm).
    destruct (MM_value_node f s moves Hwf Hfuel Hu Hacts) as [-> ->].
    rewrite AB_max_value_eq, AB_min_value_eq. unfold mbind, do_tick, lift.
    rewrite Hu, Hord. split; intros Hrun.
    + apply (ab_loop_max_sound (AB.min_value ord f) s
               (fun a => value_of NegInf (MM.min_value f (succ_state s a))) l) in Hrun.
      2:{ apply (children_sound_of _ (fun s' => value_of NegInf (MM.min_value f s'))
                                   f s moves l); auto; [lia|].
          intros s' Hwf' He al be j w j' Hw. now apply (IH s' Hwf' He al be j w j'). }
      destruct Hrun as [Hup Hlo]. split.
      * intros Hlt. destruct (Hup Hlt) as [_ Hall].
        apply fold_max_le; [apply ext_ltb_NegInf|].
        intros a Ha. apply Hall. now apply (Permutation_in _ Hperm).
      * intros Hlt. destruct (Hlo Hlt) as [Hle|(a & Ha & Hle)].
        -- pose proof (ext_lt_le_trans alpha v NegInf Hlt Hle) as Hbad.
           rewrite ext_ltb_NegInf in Hbad. discriminate.
        -- apply (ext_le_trans _ (child_value (MM.min_value f) s a)); [exact Hle|].
           apply (fold_max_ge (child_value (MM.min_value f) s) moves NegInf).
           now apply (Permutation_in _ (Permutation_sym Hperm)).
    + apply (ab_loop_min_sound (AB.max_value ord f) s
               (fun a => value_of NegInf (MM.max_value f (succ_state s a))) l) in Hrun.
      2:{ apply (children_sound_of _ (fun s' => value_of NegInf (MM.max_value f s'))
                                   f s moves l); auto; [lia|].
          intros s' Hwf' He al be j w j' Hw. now apply (IH s' Hwf' He al be j w j'). }
      destruct Hrun as [Hlo Hup]. split.
      * intros Hlt. destruct (Hup Hlt) as [Hle|(a & Ha & Hle)].
        -- pose proof (ext_le_lt_trans PosInf v beta Hle Hlt) as Hbad.
           rewrite ext_ltb_PosInf in Hbad. discriminate.
        -- apply (ext_le_trans _ (child_value (MM.max_value f) s a)); [|exact Hle].
           apply (fold_min_le (child_value (MM.max_value f) s) moves PosInf).
           now apply (Permutation_in _ (Permutation_sym Hperm)).
      * intros Hlt. destruct (Hlo Hlt) as [_ Hall].
        apply fold_min_ge; [apply ext_ltb_PosInf|].
        intros a Ha. apply Hall. now apply (Permutation_in _ Hperm).
Qed.

(** On every well-formed state and under either ordering setting,
    [minimax_ab] returns exactly the value [minimax] returns. *)
Lemma minimax_ab_value_is_minimax_value fuel state ord sink sink' :
  wf state -> (empties state <= fuel)%nat ->
  exists v a a' c c',
    minimax fuel state sink = Ok ((v, a), c) /\
    minimax_ab fuel state sink' ord = Ok ((v, a'), c').
Proof.
  intros Hwf Hfuel.
  destruct (player_total state Hwf) as [p Hp].
  destruct (actions_total state Hwf) as [moves Hacts].
  destruct (order_moves_perm state ord moves Hacts) as (l & Hord & Hperm).
  destruct (minimax_ab_run fuel state sink' ord Hwf Hfuel)
    as (p' & moves' & [va aa] & n & _ & _ & Hab & _).
  assert (Hsteady : forall child, child = MM.min_value fuel \/ child = MM.max_value fuel ->
                                  children_steady child state moves).
  { intros child Hchild.
    apply (children_steady_of child fuel state moves Hwf Hacts Hfuel).
    intros s' Hwf' He. destruct (MM_steady fuel s' Hwf' He) as [H1 H2].
    destruct Hchild as [-> | ->]; assumption. }
  assert (Hsame : forall x y : ext Z, ext_le x y -> ext_le y x -> x = y).
  { intros x y Hxy Hyx. apply ext_eqb_eq. now apply ext_eqb_total. }
  pose proof Hab as Hloop.
  unfold minimax_ab, mbind, lift in Hloop. rewrite Hp in Hloop.
  unfold minimax, mbind, lift. rewrite Hp.
  destruct p; rewrite Hord in Hloop; rewrite Hacts.
  - rewrite (plain_top_max_scored (MM.min_value fuel) state moves
               (Hsteady _ (or_introl eq_refl))).
    destruct (pick better_max ext_eqb
                (map (fun a => (a, child_value (MM.min_value fuel) state a)) moves)
                (NegInf, None)) as [vm am] eqn:Hpick.
    destruct (pick_max_spec _ _ _ _ _ Hpick) as (Hall & Hone & _).
    apply (ab_top_max_sound ext_eqb_eq (AB.min_value ord fuel) state
             (fun a => value_of NegInf (MM.min_value fuel (succ_state state a))) l) in Hloop.
    2:{ apply (children_sound_of _ (fun s' => value_of NegInf (MM.min_value fuel s'))
                                 fuel state moves l); auto.
        intros s' Hwf' He al be j w j' Hw.
        now apply (AB_sound ord fuel s' Hwf' He al be j w j'). }
    destruct Hloop as (_ & Hab_all & Hab_one).
    assert (va = vm) as ->.
    { apply Hsame.
      - destruct Hab_one as [->|(a & Ha & Hle)]; [apply ext_ltb_NegInf|].
        apply (ext_le_trans _ (child_value (MM.min_value fuel) state a)); [exact Hle|].
        apply (Hall a). apply in_map_iff. exists a. split; [reflexivity|].
        now apply (Permutation_in _ (Permutation_sym Hperm)).
      - destruct Hone as [[_ ->]|(a & _ & Hin)]; [apply ext_ltb_NegInf|].
        apply in_map_iff in Hin as (b & [= <- Hv] & Hb). rewrite <- Hv.
        apply Hab_all. now apply (Permutation_in _ Hperm). }
    exists vm, am, aa. eexists _, _. split; [reflexivity|exact Hab].
  - rewrite (plain_top_min_scored (MM.max_value fuel) state moves
               (Hsteady _ (or_intror eq_refl))).
    destruct (pick better_min ext_eqb
                (map (fun a => (a, child_value (MM.max_value fuel) state a)) moves)
                (PosInf, None)) as [vm am] eqn:Hpick.
    destruct (pick_min_spec _ _ _ _ _ Hpick) as (Hall & Hone & _).
    apply (ab_top_min_sound ext_eqb_eq (AB.max_value ord fuel) state
             (fun a => value_of NegInf (MM.max_value fuel (succ_state state a))) l) in Hloop.
    2:{ apply (children_sound_of _ (fun s' => value_of NegInf (MM.max_value fuel s'))
                                 fuel state moves l); auto.
        intros s' Hwf' He al be j w j' Hw.
        now apply (AB_sound ord fuel s' Hwf' He al be j w j'). }
    destruct Hloop as (_ & Hab_all & Hab_one).
    assert (va = vm) as ->.
    { apply Hsame.
      - destruct Hone as [[_ ->]|(a & _ & Hin)]; [apply ext_ltb_PosInf|].
        apply in_map_iff in Hin as (b & [= <- Hv] & Hb). rewrite <- Hv.
        apply Hab_all. now apply (Permutation_in _ Hperm).
      - destruct Hab_one as [->|(a & Ha & Hle)]; [apply ext_ltb_PosInf|].
        apply (ext_le_trans _ (child_value (MM.max_value fuel) state a)); [|exact Hle].
        apply (Hall a). apply in_map_iff. exists a. split; [reflexivity|].
        now apply (Permutation_in _ (Permutation_sym Hperm)). }
    exists vm, am, aa. eexists _, _. split; [reflexivity|exact Hab].
Qed.

(** ** The tie-break of the pruned search *)

Section SoundTraces.
Context {A : Type} `{NumberLaws A}.
Variable child : BoardMeta -> ext A -> ext A -> M (ext A).
Variable s : BoardMeta.
Variable exact : Action -> ext A.

(** At the top level the window of the maximising side is open above: the
    value explored for an action is at least its exact value. *)
Lemma ab_top_max_trace_sound moves :
  children_sound child s exact moves ->
  forall bv ba alpha i trace,
    ab_top_max_trace child s moves bv ba alpha PosInf i = Ok trace ->
    forall b w, In (b, w) trace -> ext_le (exact b) w.
Proof.
  induction moves as [|a moves IH]; intros Hc bv ba alpha i trace Hrun b w Hin.
  - simpl in Hrun. injection Hrun as <-. destruct Hin.
  - destruct (Hc a (or_introl eq_refl)) as (s' & Hres & Hsound).
    simpl in Hrun. rewrite Hres in Hrun. simpl in Hrun.
    destruct (child s' alpha PosInf i) as [[v i1]|e] eqn:Hv; simpl in Hrun; [|discriminate].
    destruct (ab_top_max_trace child s moves _ _ _ PosInf i1) as [rest|e] eqn:Hrest;
      simpl in Hrun; [|discriminate].
    injection Hrun as <-. destruct Hin as [[= <- <-]|Hin].
    + exact (sound_below_PosInf _ _ _ (Hsound _ _ _ _ _ Hv)).
    + exact (IH (children_sound_tail _ _ _ _ _ Hc) _ _ _ _ _ Hrest b w Hin).
Qed.

(** The window of the minimising side is open below: the value explored
    for an action is at most its exact value. *)
Lemma ab_top_min_trace_sound moves :
  children_sound child s exact moves ->
  forall bv ba beta i trace,
    ab_top_min_trace child s moves bv ba NegInf beta i = Ok trace ->
    forall b w, In (b, w) trace -> ext_le w (exact b).
Proof.
  induction moves as [|a moves IH]; intros Hc bv ba beta i trace Hrun b w Hin.
  - simpl in Hrun. injection Hrun as <-. destruct Hin.
  - destruct (Hc a (or_introl eq_refl)) as (s' & Hres & Hsound).
    simpl in Hrun. rewrite Hres in Hrun. simpl in Hrun.
    destruct (child s' NegInf beta i) as [[v i1]|e] eqn:Hv; simpl in Hrun; [|discriminate].
    destruct (ab_top_min_trace child s moves _ _ NegInf _ i1) as [rest|e] eqn:Hrest;
      simpl in Hrun; [|discriminate].
    injection Hrun as <-. destruct Hin as [[= <- <-]|Hin].
    + exact (sound_above_NegInf _ _ _ (Hsound _ _ _ _ _ Hv)).
    + exact (IH (children_sound_tail _ _ _ _ _ Hc) _ _ _ _ _ Hrest b w Hin).
Qed.
End SoundTraces.

Lemma tied_replies_wf : wf tied_replies.
Proof.
  unfold tied_replies, wf. split; [reflexivity|]. repeat constructor.
Qed.

(** C4 (as the code has it): the top-level loop of [minimax_ab] breaks the
    ties for the optimum towards the smallest action, not towards the
    first explored one: a value that equals the running best value
    displaces the best action when its action is smaller in the natural
    order of the actions.  On every well-formed state and under either
    ordering setting, the value returned is the optimum of the minimax
    values of the legal actions, the action returned is legal, and no
    legal action whose minimax value attains the optimum is smaller than
    the action returned. *)
Theorem C4_tie_break_prefers_smaller_action fuel state ord sink v a c :
  wf state -> (empties state <= fuel)%nat ->
  minimax_ab fuel state sink ord = Ok ((v, Some a), c) ->
  exists p moves,
    player state = Ok p /\
    actions state = Ok moves /\
    In a moves /\
    (forall b, In b moves ->
       (match p with
        | X => ext_ltb v (minimax_value_of_move p fuel state b)
        | O => ext_ltb (minimax_value_of_move p fuel state b) v
        end) = false) /\
    (exists b, In b moves /\ minimax_value_of_move p fuel state b = v) /\
    (forall b, In b moves -> minimax_value_of_move p fuel state b = v ->
               action_ltb b a = false).
Proof.
  intros Hwf Hfuel Hrun.
  destruct (player_total state Hwf) as [p Hp].
  destruct (actions_total state Hwf) as [moves Hacts].
  destruct (order_moves_perm state ord moves Hacts) as (l & Hord & Hperm).
  exists p, moves. split; [exact Hp|]. split; [exact Hacts|].
  assert (Hsame : forall x y : ext Z, ext_le x y -> ext_le y x -> x = y).
  { intros x y Hxy Hyx. apply ext_eqb_eq. now apply ext_eqb_total. }
  assert (Hin_l : forall b, In b moves -> In b l).
  { intros b. apply (Permutation_in _ Hperm). }
  assert (Hin_m : forall b, In b l -> In b moves).
  { intros b. apply (Permutation_in _ (Permutation_sym Hperm)). }
  unfold minimax_ab, mbind, lift in Hrun. rewrite Hp in Hrun.
  unfold minimax_value_of_move.
  destruct p; rewrite Hord in Hrun; simpl MM_child.
  - assert (Hsound : children_sound (AB.min_value ord fuel) state
                       (fun a => value_of NegInf (MM.min_value fuel (succ_state state a))) l).
    { apply (children_sound_of _ (fun s' => value_of NegInf (MM.min_value fuel s'))
                               fuel state moves l); auto.
      intros s' Hwf' He al be j w j' Hw.
      now apply (AB_sound ord fuel s' Hwf' He al be j w j'). }
    destruct (ab_top_max_sound ext_eqb_eq _ _ _ l Hsound _ _ _ _ _ _ Hrun) as (_ & Hle & Hex).
    apply ab_top_max_traced in Hrun as (trace & Htrace & Hmap & Hpick).
    destruct (pick_max_spec trace _ _ _ _ Hpick) as (H1 & H2 & H3).
    destruct H2 as [[[=] _]|(a' & [= <-] & Hav)].
    assert (Ha : In a l).
    { rewrite <- Hmap. apply in_map_iff. now exists (a, v). }
    split; [now apply Hin_m|]. split; [|split].
    + intros b Hb. apply Hle. now apply Hin_l.
    + destruct Hex as [->|(b & Hb & Hvb)].
      * exists a. split; [now apply Hin_m|]. apply Hsame; [now apply Hle|apply ext_ltb_NegInf].
      * exists b. split; [now apply Hin_m|]. apply Hsame; [now apply Hle|exact Hvb].
    + intros b Hb Hval. apply Hin_l in Hb. rewrite <- Hmap in Hb.
      apply in_map_iff in Hb as ([b' w] & Hfst & Hbw). simpl in Hfst. subst b'.
      pose proof (ab_top_max_trace_sound _ _ _ l Hsound _ _ _ _ _ Htrace b w Hbw) as Hlow.
      simpl in Hlow. rewrite Hval in Hlow.
      assert (Heq : ext_eqb w v = true).
      { apply ext_eqb_total; [exact Hlow|exact (H1 b w Hbw)]. }
      destruct (H3 b w Hbw Heq) as (a' & [= <-] & Hlt). exact Hlt.
  - assert (Hsound : children_sound (AB.max_value ord fuel) state
                       (fun a => value_of NegInf (MM.max_value fuel (succ_state state a))) l).
    { apply (children_sound_of _ (fun s' => value_of NegInf (MM.max_value fuel s'))
                               fuel state moves l); auto.
      intros s' Hwf' He al be j w j' Hw.
      now apply (AB_sound ord fuel s' Hwf' He al be j w j'). }
    destruct (ab_top_min_sound ext_eqb_eq _ _ _ l Hsound _ _ _ _ _ _ Hrun) as (_ & Hle & Hex).
    apply ab_top_min_traced in Hrun as (trace & Htrace & Hmap & Hpick).
    destruct (pick_min_spec trace _ _ _ _ Hpick) as (H1 & H2 & H3).
    destruct H2 as [[[=] _]|(a' & [= <-] & Hav)].
    assert (Ha : In a l).
    { rewrite <- Hmap. apply in_map_iff. now exists (a, v). }
    split; [now apply Hin_m|]. split; [|split].
    + intros b Hb. apply Hle. now apply Hin_l.
    + destruct Hex as [->|(b & Hb & Hvb)].
      * exists a. split; [now apply Hin_m|]. apply Hsame; [apply ext_ltb_PosInf|now apply Hle].
      * exists b. split; [now apply Hin_m|]. apply Hsame; [exact Hvb|now apply Hle].
    + intros b Hb Hval. apply Hin_l in Hb. rewrite <- Hmap in Hb.
      apply in_map_iff in Hb as ([b' w] & Hfst & Hbw). simpl in Hfst. subst b'.
      pose proof (ab_top_min_trace_sound _ _ _ l Hsound _ _ _ _ _ Htrace b w Hbw) as Hup.
      simpl in Hup. rewrite Hval in Hup.
      assert (Heq : ext_eqb w v = true).
      { apply ext_eqb_total; [exact (H1 b w Hbw)|exact Hup]. }
      destruct (H3 b w Hbw Heq) as (a' & [= <-] & Hlt). exact Hlt.
Qed.

Lemma C4_tie_break_prefers_smaller_action_witness :
  exists p moves,
    player tied_replies = Ok p /\
    actions tied_replies = Ok moves /\
    In (0, 1) moves /\
    (forall b, In b moves ->
       (match p with
        | X => ext_ltb (Fin 0) (minimax_value_of_move p 2 tied_replies b)
        | O => ext_ltb (minimax_value_of_move p 2 tied_replies b) (Fin 0)
        end) = false) /\
    (exists b, In b moves /\ minimax_value_of_move p 2 tied_replies b = Fin 0) /\
    (forall b, In b moves -> minimax_value_of_move p 2 tied_replies b = Fin 0 ->
               action_ltb b (0, 1) = false).
Proof.
  apply (C4_tie_break_prefers_smaller_action 2 tied_replies true None
           (Fin 0) (0, 1) (mkInstrument 4)).
  - exact tied_replies_wf.
  - vm_compute. lia.
  - vm_compute. reflexivity.
Defined.

(** C4, counterexample: [tied_replies] is reached by legal play from the
    empty 3x3 board; O is to move and its two legal actions, (0,1) and
    (0,2), both lead to a draw: they tie for the optimum 0.  Under either
    ordering setting the loop explores the corner (0,2) first, which
    attains the running best value 0, and then (0,1), whose value 0 merely
    equals the best value: (0,1) displaces (0,2) and is the action
    returned, not the first explored action that attains the optimum. *)
Lemma C4_counterexample :
  play_moves [(0, 0); (1, 1); (2, 0); (1, 0); (1, 2); (2, 2); (2, 1)] (initial_state 3 3)
  = Ok tied_replies /\
  player tied_replies = Ok O /\
  actions tied_replies = Ok [(0, 1); (0, 2)] /\
  map (minimax_value_of_move O 2 tied_replies) [(0, 1); (0, 2)] = [Fin 0; Fin 0] /\
  minimax_ab_trace 2 tied_replies true = Ok [((0, 2), Fin 0); ((0, 1), Fin 0)] /\
  minimax_ab_trace 2 tied_replies false = Ok [((0, 2), Fin 0); ((0, 1), Fin 0)] /\
  pick better_min ext_eqb [((0, 2), Fin 0)] (PosInf, None) = (Fin 0, Some (0, 2)) /\
  minimax_ab 2 tied_replies None true = Ok ((Fin 0, Some (0, 1)), mkInstrument 4) /\
  minimax_ab 2 tied_replies None false = Ok ((Fin 0, Some (0, 1)), mkInstrument 4).
Proof.
  repeat apply conj; vm_compute; reflexivity.
Qed.

(* ================================================================= *)
(** * Further properties of the game rules *)

(** ** Grids as tables of their cells *)

Lemma range_to_nat (m : Z) : range (Z.of_nat (Z.to_nat m)) = range m.
Proof. unfold range. now rewrite Nat2Z.id. Qed.

Lemma range_length (m : Z) : List.length (range m) = Z.to_nat m.
Proof. unfold range. now rewrite length_map, length_seq. Qed.

Lemma list_as_map_nth {A} (l : list A) (d : A) :
  l = map (fun i => nth (Z.to_nat i) l d) (range (len l)).
Proof.
  unfold range, len. rewrite Nat2Z.id, map_map.
  set (f := fun x : nat => nth (Z.to_nat (Z.of_nat x)) l d).
  apply (nth_ext _ _ d (f 0%nat)).
  - now rewrite length_map, length_seq.
  - intros n Hn. rewrite (map_nth f (seq 0 (List.length l)) 0%nat n).
    rewrite seq_nth by exact Hn. unfold f. now rewrite Nat2Z.id.
Qed.

Lemma row_as_map board m k r :
  wf (board, m, k) -> 0 <= r < m ->
  nth (Z.to_nat r) board [] = map (fun c => grid_get board r c) (range m).
Proof.
  intros Hwf Hr. destruct (wf_row _ _ _ _ Hwf Hr) as [_ Hlen].
  rewrite (list_as_map_nth (nth (Z.to_nat r) board []) None) at 1.
  unfold len. rewrite Hlen, range_to_nat. reflexivity.
Qed.

Lemma board_as_map board m k :
  wf (board, m, k) ->
  board = map (fun r => map (fun c => grid_get board r c) (range m)) (range m).
Proof.
  intros Hwf. rewrite (list_as_map_nth board []) at 1.
  destruct Hwf as [Hlen Hrows]. unfold len. rewrite Hlen, range_to_nat.
  apply map_ext_in. intros r Hr. apply in_range in Hr.
  apply (row_as_map board m k r); [now split|exact Hr].
Qed.

Lemma concat_board board m k :
  wf (board, m, k) ->
  List.concat board = map (fun rc => grid_get board (fst rc) (snd rc)) (coords m).
Proof.
  intros Hwf. rewrite (board_as_map board m k Hwf) at 1.
  unfold coords. rewrite flat_map_concat_map, concat_map, map_map.
  f_equal. apply map_ext. intros r. now rewrite map_map.
Qed.

Lemma filter_map_length {A B} (f : A -> B) (p : B -> bool) (l : list A) :
  List.length (filter (fun x => p (f x)) l) = List.length (filter p (map f l)).
Proof.
  induction l as [|x l IH]; simpl; [reflexivity|].
  destruct (p (f x)); simpl; now rewrite IH.
Qed.

Lemma empties_as_cells board m k :
  wf (board, m, k) -> empties (board, m, k) = List.length (empty_cells board m).
Proof.
  intros Hwf. unfold empties, count_none, empty_cells.
  rewrite (concat_board board m k Hwf).
  symmetry. apply (filter_map_length (fun rc => grid_get board (fst rc) (snd rc)) is_none).
Qed.

Lemma flat_map_length_const {A B} (f : A -> list B) (n : nat) (l : list A) :
  (forall x, List.length (f x) = n) -> List.length (flat_map f l) = (List.length l * n)%nat.
Proof.
  intros Hf. induction l as [|x l IH]; simpl; [reflexivity|].
  now rewrite length_app, Hf, IH.
Qed.

Lemma coords_length (m : Z) : List.length (coords m) = (Z.to_nat m * Z.to_nat m)%nat.
Proof.
  unfold coords. rewrite (flat_map_length_const _ (Z.to_nat m)).
  - now rewrite range_length.
  - intros r. now rewrite length_map, range_length.
Qed.

Lemma marks_empties board m k :
  wf (board, m, k) ->
  (marks (board, m, k) + empties (board, m, k) = Z.to_nat m * Z.to_nat m)%nat.
Proof.
  intros Hwf. unfold marks, empties, count_none, is_mark.
  rewrite Nat.add_comm, filter_length.
  rewrite (concat_board board m k Hwf), length_map. apply coords_length.
Qed.

Lemma scan_filled board m k (xs : list Action) :
  wf (board, m, k) ->
  (forall a, In a xs -> In a (coords m)) ->
  forall n,
    foldM (fun n rc => x <- cell_at board (fst rc) (snd rc) ;;
                       Ok (if is_none x then n else n + 1)) xs n
    = Ok (n + Z.of_nat (List.length
                          (filter (fun rc => is_mark (grid_get board (fst rc) (snd rc))) xs))).
Proof.
  intros Hwf. induction xs as [|x xs IH]; intros Hin n; simpl.
  - f_equal. lia.
  - destruct (proj1 (in_coords m x) (Hin x (or_introl eq_refl))) as [Hr Hc].
    rewrite (cell_at_wf _ _ _ _ _ Hwf Hr Hc). simpl.
    rewrite IH by (intros; apply Hin; now right). unfold is_mark.
    destruct (is_none (grid_get board (fst x) (snd x))); simpl; f_equal; lia.
Qed.

Lemma even_of_nat (n : nat) : (Z.of_nat n mod 2 =? 0) = Nat.even n.
Proof.
  induction n as [n IH] using (well_founded_induction lt_wf).
  destruct n as [|[|n]]; [reflexivity|reflexivity|].
  replace (Z.of_nat (S (S n))) with (Z.of_nat n + 1 * 2) by lia.
  rewrite Z_mod_plus_full. simpl Nat.even. apply IH. lia.
Qed.

Lemma player_wf board m k :
  wf (board, m, k) ->
  player (board, m, k) = Ok (if Nat.even (marks (board, m, k)) then X else O).
Proof.
  intros Hwf. unfold player.
  rewrite (scan_filled board m k (coords m) Hwf) by auto. simpl.
  rewrite (filter_map_length (fun rc => grid_get board (fst rc) (snd rc)) is_mark).
  rewrite <- (concat_board board m k Hwf). fold (marks (board, m, k)).
  now rewrite even_of_nat.
Qed.

Lemma place_marks board m k r c p :
  wf (board, m, k) -> 0 <= r < m -> 0 <= c < m -> grid_get board r c = None ->
  marks (place board r c p, m, k) = S (marks (board, m, k)).
Proof.
  intros Hwf Hr Hc Hn.
  pose proof (marks_empties board m k Hwf) as H1.
  pose proof (marks_empties _ m k (place_wf board m k r c p Hwf)) as H2.
  pose proof (place_empties board m k r c p Hwf Hr Hc Hn) as H3. lia.
Qed.

(** The cells of the grid after a move: the played cell holds the mover's
    mark, every other cell is unchanged. *)
Lemma place_get_other board r c p r' c' :
  0 <= r -> 0 <= c -> 0 <= r' -> 0 <= c' -> (r', c') <> (r, c) ->
  grid_get (place board r c p) r' c' = grid_get board r' c'.
Proof.
  intros Hr Hc Hr' Hc' Hne. unfold grid_get, place.
  destruct (Z.eq_dec r r') as [<-|Hrr].
  - destruct (Nat.lt_ge_cases (Z.to_nat r) (List.length board)) as [Hlt|Hge].
    + rewrite nth_set_nth_eq by exact Hlt.
      apply nth_set_nth_neq. intros Heq. apply Hne. f_equal. lia.
    + rewrite (nth_overflow (set_nth _ _ _)) by now rewrite set_nth_length.
      now rewrite (nth_overflow board) by exact Hge.
  - rewrite nth_set_nth_neq by lia. reflexivity.
Qed.

Lemma strongly_sorted_range_from (a : Z) (n : nat) :
  StronglySorted Z.lt (map (fun i => a + Z.of_nat i) (seq 0 n)).
Proof.
  revert a. induction n as [|n IH]; intros a; simpl; [constructor|].
  rewrite <- seq_shift, map_map. constructor.
  - replace (map (fun x => a + Z.of_nat (S x)) (seq 0 n))
      with (map (fun i => (a + 1) + Z.of_nat i) (seq 0 n)); [apply IH|].
    apply map_ext. intros; lia.
  - apply Forall_forall. intros x Hx. apply in_map_iff in Hx as [i [<- _]]. lia.
Qed.

Lemma strongly_sorted_range (m : Z) : StronglySorted Z.lt (range m).
Proof.
  unfold range. exact (strongly_sorted_range_from 0 (Z.to_nat m)).
Qed.

Lemma strongly_sorted_app {A} (R : A -> A -> Prop) (l1 l2 : list A) :
  StronglySorted R l1 -> StronglySorted R l2 ->
  (forall x y, In x l1 -> In y l2 -> R x y) ->
  StronglySorted R (l1 ++ l2).
Proof.
  induction l1 as [|a l1 IH]; intros H1 H2 H12; simpl; [exact H2|].
  apply StronglySorted_inv in H1 as [H1 Ha]. constructor.
  - apply IH; auto. intros; apply H12; auto. now right.
  - apply Forall_app. split; [exact Ha|].
    apply Forall_forall. intros y Hy. apply H12; [now left|exact Hy].
Qed.

Lemma strongly_sorted_map {A B} (R : A -> A -> Prop) (S : B -> B -> Prop) (f : A -> B) l :
  (forall x y, R x y -> S (f x) (f y)) ->
  StronglySorted R l -> StronglySorted S (map f l).
Proof.
  intros Hf. induction 1 as [|a l Hs IH Ha]; simpl; constructor; [exact IH|].
  apply Forall_forall. intros y Hy. apply in_map_iff in Hy as [x [<- Hx]].
  apply Hf. rewrite Forall_forall in Ha. now apply Ha.
Qed.

Lemma strongly_sorted_filter {A} (R : A -> A -> Prop) (p : A -> bool) l :
  StronglySorted R l -> StronglySorted R (filter p l).
Proof.
  induction 1 as [|a l Hs IH Ha]; simpl; [constructor|].
  destruct (p a); [|exact IH]. constructor; [exact IH|].
  apply Forall_forall. intros y Hy. apply filter_In in Hy as [Hy _].
  rewrite Forall_forall in Ha. now apply Ha.
Qed.

Lemma grid_sorted (rows cols : list Z) :
  StronglySorted Z.lt rows -> StronglySorted Z.lt cols ->
  StronglySorted action_lt (flat_map (fun r => map (fun c => (r, c)) cols) rows).
Proof.
  intros Hrows Hcols.
  induction Hrows as [|r rs Hs IH Hr]; simpl; [constructor|].
  apply strongly_sorted_app.
  - apply (strongly_sorted_map Z.lt); [|exact Hcols].
    intros x y Hxy. right. simpl. lia.
  - exact IH.
  - intros x y Hx Hy. apply in_map_iff in Hx as [c [<- _]].
    apply in_flat_map in Hy as [r' [Hr' Hy]]. apply in_map_iff in Hy as [c' [<- _]].
    left. simpl. rewrite Forall_forall in Hr. now apply Hr.
Qed.

Lemma coords_sorted (m : Z) : StronglySorted action_lt (coords m).
Proof.
  apply grid_sorted; apply strongly_sorted_range.
Qed.

Lemma sort_actions_sorted l : StronglySorted action_lt l -> sort_actions l = l.
Proof.
  unfold sort_actions. induction 1 as [|a l Hs IH Ha]; simpl; [reflexivity|].
  rewrite IH.
  destruct l as [|b l]; [reflexivity|]. simpl.
  apply Forall_inv in Ha.
  destruct (action_ltb b a) eqn:E; [|reflexivity].
  apply action_ltb_lt in E. now destruct (action_lt_asym _ _ Ha).
Qed.

Lemma actions_scan board m k :
  wf (board, m, k) -> actions (board, m, k) = Ok (empty_cells board m).
Proof.
  intros Hwf. rewrite (actions_wf _ _ _ Hwf). f_equal.
  apply sort_actions_sorted. apply strongly_sorted_filter. apply coords_sorted.
Qed.

(** ** Loops with an early return *)

Lemma for_return_some {A R} (xs : list A) (body : A -> Res (option R)) v :
  for_return xs body = Ok (Some v) -> exists x, In x xs /\ body x = Ok (Some v).
Proof.
  induction xs as [|x xs IH]; simpl; [discriminate|].
  destruct (body x) as [[w|]|e] eqn:E; simpl; try discriminate.
  - intros [= <-]. exists x. auto.
  - intros H. destruct (IH H) as [y [Hy Hb]]. exists y. auto.
Qed.

Lemma for_return_none {A R} (xs : list A) (body : A -> Res (option R)) :
  for_return xs body = Ok None -> forall x, In x xs -> body x = Ok None.
Proof.
  induction xs as [|x xs IH]; simpl; [intros _ y []|].
  destruct (body x) as [[w|]|e] eqn:E; simpl; try discriminate.
  intros H y [<-|Hy]; [exact E|now apply IH].
Qed.

Lemma or_else_some {R} (first : Res (option R)) next v :
  or_else first next = Ok (Some v) ->
  first = Ok (Some v) \/ (first = Ok None /\ next tt = Ok (Some v)).
Proof.
  unfold or_else. destruct first as [[w|]|e]; simpl; try discriminate; auto.
Qed.

Lemma or_else_none {R} (first : Res (option R)) next :
  or_else first next = Ok None -> first = Ok None /\ next tt = Ok None.
Proof.
  unfold or_else. destruct first as [[w|]|e]; simpl; try discriminate; auto.
Qed.

Lemma mapM_ok {A B} (f : A -> Res B) (g : A -> B) (xs : list A) :
  (forall x, In x xs -> f x = Ok (g x)) -> mapM f xs = Ok (map g xs).
Proof.
  induction xs as [|x xs IH]; intros Hf; simpl; [reflexivity|].
  rewrite (Hf x (or_introl eq_refl)). simpl.
  rewrite IH by (intros; apply Hf; now right). reflexivity.
Qed.

(** ** Slices of a line *)

Lemma seq_as_map (s n : nat) : seq s n = map (fun i => (s + i)%nat) (seq 0 n).
Proof.
  revert s. induction n as [|n IH]; intros s; simpl; [reflexivity|].
  rewrite Nat.add_0_r. f_equal. rewrite (IH (S s)), <- seq_shift, map_map.
  apply map_ext. intros; lia.
Qed.

Lemma firstn_seq (n start len : nat) : firstn n (seq start len) = seq start (Nat.min n len).
Proof.
  revert start len. induction n as [|n IH]; intros start [|len]; simpl; try reflexivity.
  now rewrite IH.
Qed.

Lemma len_map_range {A} (f : Z -> A) (n : Z) : len (map f (range n)) = Z.max 0 n.
Proof. unfold len. rewrite length_map, range_length. lia. Qed.

Lemma py_slice_map_range {A} (f : Z -> A) (n s k : Z) :
  0 <= s -> 0 <= k -> s + k <= n ->
  py_slice (map f (range n)) s (s + k) = map (fun i => f (s + i)) (range k).
Proof.
  intros Hs Hk Hn. unfold py_slice. rewrite len_map_range.
  unfold clamp_bound.
  destruct (s <? 0) eqn:E1; [lia|]. destruct (s + k <? 0) eqn:E2; [lia|].
  replace (Z.min (s + k) (Z.max 0 n) - Z.min s (Z.max 0 n)) with k by lia.
  replace (Z.min s (Z.max 0 n)) with s by lia.
  unfold range. rewrite !map_map, skipn_map, firstn_map, skipn_seq, firstn_seq.
  replace (Nat.min (Z.to_nat k) (Z.to_nat n - Z.to_nat s)) with (Z.to_nat k) by lia.
  simpl. rewrite (seq_as_map (Z.to_nat s)), map_map.
  apply map_ext. intros i. f_equal. lia.
Qed.

(** ** Uniform windows *)

Lemma cell_is_eq p c : cell_is p c = true <-> c = Some p.
Proof.
  destruct c as [[|]|], p; simpl; split; intros H; try discriminate; try reflexivity;
    try (injection H; discriminate).
Qed.

Lemma window_winner_some w p :
  _window_winner w = Some p -> forall c, In c w -> c = Some p.
Proof.
  unfold _window_winner. intros H c Hc.
  destruct (forallb (cell_is X) w) eqn:EX.
  - injection H as <-. rewrite forallb_forall in EX. now apply cell_is_eq, EX.
  - destruct (forallb (cell_is O) w) eqn:EO; [|discriminate].
    injection H as <-. rewrite forallb_forall in EO. now apply cell_is_eq, EO.
Qed.

Lemma window_winner_full w p :
  (forall c, In c w -> c = Some p) -> _window_winner w <> None.
Proof.
  intros H. unfold _window_winner.
  assert (Hp : forallb (cell_is p) w = true).
  { apply forallb_forall. intros c Hc. now apply cell_is_eq, H. }
  destruct p.
  - now rewrite Hp.
  - rewrite Hp. now destruct (forallb (cell_is X) w).
Qed.

(** ** The scan of one line *)

Lemma in_map_range {A} (f : Z -> A) (n : Z) (x : A) :
  In x (map f (range n)) <-> exists i, 0 <= i < n /\ x = f i.
Proof.
  rewrite in_map_iff. split.
  - intros [i [<- Hi]]. apply in_range in Hi. eauto.
  - intros [i [Hi ->]]. exists i. split; [reflexivity|now apply in_range].
Qed.

Lemma line_scan_some (f : Z -> Cell) (m k : Z) p :
  0 <= k ->
  line_scan m k (map f (range m)) = Ok (Some p) ->
  exists s, 0 <= s /\ s + k <= m /\ forall i, 0 <= i < k -> f (s + i) = Some p.
Proof.
  intros Hk H. unfold line_scan in H.
  apply for_return_some in H as [s [Hs Hbody]]. apply in_range in Hs.
  rewrite py_slice_map_range in Hbody by lia.
  destruct (len _ =? k); [|discriminate]. injection Hbody as Hw.
  exists s. split; [lia|]. split; [lia|]. intros i Hi.
  apply (window_winner_some _ _ Hw). apply in_map_range. eauto.
Qed.

Lemma line_scan_none (f : Z -> Cell) (m k : Z) p s :
  0 <= k -> 0 <= s -> s + k <= m ->
  line_scan m k (map f (range m)) = Ok None ->
  ~ (forall i, 0 <= i < k -> f (s + i) = Some p).
Proof.
  intros Hk Hs Hm H Hall. unfold line_scan in H.
  pose proof (for_return_none _ _ H s ltac:(apply in_range; lia)) as Hbody. cbv beta zeta in Hbody.
  rewrite py_slice_map_range in Hbody by lia.
  rewrite len_map_range in Hbody. replace (Z.max 0 k =? k) with true in Hbody
    by (symmetry; apply Z.eqb_eq; lia).
  injection Hbody as Hw. revert Hw. apply (window_winner_full _ p).
  intros c Hc. apply in_map_range in Hc as [i [Hi ->]]. now apply Hall.
Qed.

Lemma diag_scan_some (f : Z -> Cell) (n k : Z) p :
  1 <= k ->
  diag_scan k (map f (range n)) = Ok (Some p) ->
  exists s, 0 <= s /\ s + k <= n /\ forall i, 0 <= i < k -> f (s + i) = Some p.
Proof.
  intros Hk H. unfold diag_scan in H. rewrite len_map_range in H.
  destruct (Z.max 0 n >=? k) eqn:E; [|discriminate].
  apply for_return_some in H as [s [Hs Hbody]]. apply in_range in Hs.
  rewrite py_slice_map_range in Hbody by lia.
  injection Hbody as Hw.
  exists s. split; [lia|]. split; [lia|]. intros i Hi.
  apply (window_winner_some _ _ Hw). apply in_map_range. eauto.
Qed.

Lemma diag_scan_none (f : Z -> Cell) (n k : Z) p s :
  1 <= k -> 0 <= s -> s + k <= n ->
  diag_scan k (map f (range n)) = Ok None ->
  ~ (forall i, 0 <= i < k -> f (s + i) = Some p).
Proof.
  intros Hk Hs Hn H Hall. unfold diag_scan in H. rewrite len_map_range in H.
  replace (Z.max 0 n >=? k) with true in H by (symmetry; apply Z.geb_le; lia).
  pose proof (for_return_none _ _ H s ltac:(apply in_range; lia)) as Hbody. cbv beta zeta in Hbody.
  rewrite py_slice_map_range in Hbody by lia.
  injection Hbody as Hw. revert Hw. apply (window_winner_full _ p).
  intros c Hc. apply in_map_range in Hc as [i [Hi ->]]. now apply Hall.
Qed.

(** ** The lines of a well-formed grid *)

Lemma row_line board m k r :
  wf (board, m, k) -> 0 <= r < m ->
  py_index board r = Ok (map (fun c => grid_get board r c) (range m)).
Proof.
  intros Hwf Hr. destruct (wf_row _ _ _ _ Hwf Hr) as [-> _].
  f_equal. now apply (row_as_map board m k).
Qed.

Lemma col_line board m k c :
  wf (board, m, k) -> 0 <= c < m ->
  mapM (fun r => cell_at board r c) (range m)
  = Ok (map (fun r => grid_get board r c) (range m)).
Proof.
  intros Hwf Hc. apply mapM_ok. intros r Hr. apply in_range in Hr.
  now apply (cell_at_wf _ m k).
Qed.

Lemma range_cons (n : Z) : 0 < n -> range n = 0 :: map (fun i => i + 1) (range (n - 1)).
Proof.
  intros Hn. unfold range. replace (Z.to_nat n) with (S (Z.to_nat (n - 1))) by lia.
  simpl. f_equal. rewrite <- seq_shift, !map_map. apply map_ext. intros; lia.
Qed.

Lemma range_nil (n : Z) : n <= 0 -> range n = [].
Proof.
  intros Hn. unfold range. replace (Z.to_nat n) with 0%nat by lia. reflexivity.
Qed.

Lemma walk_diag_cells board m k d :
  wf (board, m, k) ->
  forall steps r c,
    0 <= r ->
    match d with To_right => 0 <= c | To_left => c < m end ->
    diag_len d m r c <= Z.of_nat steps ->
    walk_diag steps d board m r c
    = Ok (map (fun i => grid_get board (r + i) (diag_col d c i)) (range (diag_len d m r c))).
Proof.
  intros Hwf. induction steps as [|n IH]; intros r c Hr Hc Hlen; simpl.
  - rewrite range_nil by lia. reflexivity.
  - destruct (diag_guard d m r c) eqn:Hg.
    + assert (Hin : 0 <= r < m /\ 0 <= c < m).
      { destruct d; simpl in Hg; apply andb_true_iff in Hg as [H1 H2]; lia. }
      destruct Hin as [Hr' Hc'].
      rewrite (cell_at_wf _ _ _ _ _ Hwf Hr' Hc'). simpl.
      rewrite IH.
      * simpl. rewrite (range_cons (diag_len d m r c)) by (destruct d; simpl; lia).
        simpl. f_equal. f_equal.
        -- destruct d; simpl; f_equal; lia.
        -- rewrite map_map.
           replace (diag_len d m (r + 1) (diag_step d c)) with (diag_len d m r c - 1)
             by (destruct d; simpl; lia).
           apply map_ext. intros i. destruct d; simpl; f_equal; lia.
      * lia.
      * destruct d; simpl; lia.
      * destruct d; simpl in *; lia.
    + rewrite range_nil; [reflexivity|].
      destruct d; simpl in Hg; apply andb_false_iff in Hg; simpl; lia.
Qed.

Lemma diag_line board m k d r c :
  wf (board, m, k) -> 0 <= r ->
  match d with To_right => 0 <= c | To_left => c < m end ->
  diag_from d board m r c
  = Ok (map (fun i => grid_get board (r + i) (diag_col d c i)) (range (diag_len d m r c))).
Proof.
  intros Hwf Hr Hc. unfold diag_from. apply (walk_diag_cells board m k d Hwf); auto.
  destruct d; simpl; lia.
Qed.

(** ** Who has [k] in a row *)

Lemma winner_sound board m k p :
  wf (board, m, k) -> 1 <= k ->
  winner (board, m, k) = Ok (Some p) -> k_in_a_row board m k p.
Proof.
  intros Hwf Hk Hw. unfold winner in Hw.
  apply or_else_some in Hw as [Hw|[_ Hw]].
  { apply for_return_some in Hw as [r [Hr Hb]]. apply in_range in Hr.
    rewrite (row_line board m k r Hwf Hr) in Hb. simpl in Hb.
    apply line_scan_some in Hb as (s & Hs & Hsk & Hall); [|lia].
    exists r, s, 0, 1. split; [simpl; auto|]. intros i Hi.
    replace (r + i * 0) with r by lia. replace (s + i * 1) with (s + i) by lia.
    split; [lia|]. split; [lia|]. now apply Hall. }
  apply or_else_some in Hw as [Hw|[_ Hw]].
  { apply for_return_some in Hw as [c [Hc Hb]]. apply in_range in Hc.
    rewrite (col_line board m k c Hwf Hc) in Hb. simpl in Hb.
    apply line_scan_some in Hb as (s & Hs & Hsk & Hall); [|lia].
    exists s, c, 1, 0. split; [simpl; auto|]. intros i Hi.
    replace (c + i * 0) with c by lia. replace (s + i * 1) with (s + i) by lia.
    split; [lia|]. split; [lia|]. now apply Hall. }
  apply or_else_some in Hw as [Hw|[_ Hw]].
  { apply for_return_some in Hw as [c0 [Hc Hb]]. apply in_range in Hc.
    rewrite (diag_line board m k To_right 0 c0 Hwf) in Hb by lia. simpl in Hb.
    apply diag_scan_some in Hb as (s & Hs & Hsk & Hall); [|lia].
    exists s, (c0 + s), 1, 1. split; [simpl; auto|]. intros i Hi.
    specialize (Hall i Hi). simpl in Hall.
    replace (s + i * 1) with (s + i) by lia. replace (c0 + s + i * 1) with (c0 + (s + i)) by lia.
    split; [lia|]. split; [lia|]. exact Hall. }
  apply or_else_some in Hw as [Hw|[_ Hw]].
  { apply for_return_some in Hw as [r0 [Hr Hb]]. apply in_range_from in Hr.
    rewrite (diag_line board m k To_right r0 0 Hwf) in Hb by lia. simpl in Hb.
    apply diag_scan_some in Hb as (s & Hs & Hsk & Hall); [|lia].
    exists (r0 + s), s, 1, 1. split; [simpl; auto|]. intros i Hi.
    specialize (Hall i Hi). simpl in Hall.
    replace (r0 + s + i * 1) with (r0 + (s + i)) by lia. replace (s + i * 1) with (s + i) by lia.
    split; [lia|]. split; [lia|]. exact Hall. }
  apply or_else_some in Hw as [Hw|[_ Hw]].
  { apply for_return_some in Hw as [c0 [Hc Hb]]. apply in_range in Hc.
    rewrite (diag_line board m k To_left 0 c0 Hwf) in Hb by lia. simpl in Hb.
    apply diag_scan_some in Hb as (s & Hs & Hsk & Hall); [|lia].
    exists s, (c0 - s), 1, (-1). split; [simpl; auto|]. intros i Hi.
    specialize (Hall i Hi). simpl in Hall.
    replace (s + i * 1) with (s + i) by lia.
    replace (c0 - s + i * -1) with (c0 - (s + i)) by lia.
    split; [lia|]. split; [lia|]. exact Hall. }
  { apply for_return_some in Hw as [r0 [Hr Hb]]. apply in_range_from in Hr.
    rewrite (diag_line board m k To_left r0 (m - 1) Hwf) in Hb by lia. simpl in Hb.
    apply diag_scan_some in Hb as (s & Hs & Hsk & Hall); [|lia].
    exists (r0 + s), (m - 1 - s), 1, (-1). split; [simpl; auto|]. intros i Hi.
    specialize (Hall i Hi). simpl in Hall.
    replace (r0 + s + i * 1) with (r0 + (s + i)) by lia.
    replace (m - 1 - s + i * -1) with (m - 1 - (s + i)) by lia.
    split; [lia|]. split; [lia|]. exact Hall. }
Qed.

Lemma winner_complete board m k p :
  wf (board, m, k) -> 1 <= k ->
  k_in_a_row board m k p -> winner (board, m, k) <> Ok None.
Proof.
  intros Hwf Hk (r & c & dr & dc & Hdir & Hline) Hw.
  unfold winner in Hw.
  apply or_else_none in Hw as [Hrows Hw].
  apply or_else_none in Hw as [Hcols Hw].
  apply or_else_none in Hw as [Hd1 Hw].
  apply or_else_none in Hw as [Hd2 Hw].
  apply or_else_none in Hw as [Hd3 Hd4].
  destruct (Hline 0 ltac:(lia)) as (Hr0 & Hc0 & _).
  destruct (Hline (k - 1) ltac:(lia)) as (Hr1 & Hc1 & _).
  simpl in Hdir. destruct Hdir as [[= <- <-]|[[= <- <-]|[[= <- <-]|[[= <- <-]|[]]]]].
  - pose proof (for_return_none _ _ Hrows r ltac:(apply in_range; lia)) as Hb.
    cbv beta in Hb. rewrite (row_line board m k r Hwf) in Hb by lia. simpl in Hb.
    apply (line_scan_none _ m k p c) in Hb; try lia.
    apply Hb. intros i Hi. destruct (Hline i Hi) as (_ & _ & H).
    replace (r + i * 0) with r in H by lia. replace (c + i * 1) with (c + i) in H by lia.
    exact H.
  - pose proof (for_return_none _ _ Hcols c ltac:(apply in_range; lia)) as Hb.
    cbv beta in Hb. rewrite (col_line board m k c Hwf) in Hb by lia. simpl in Hb.
    apply (line_scan_none _ m k p r) in Hb; try lia.
    apply Hb. intros i Hi. destruct (Hline i Hi) as (_ & _ & H).
    replace (c + i * 0) with c in H by lia. replace (r + i * 1) with (r + i) in H by lia.
    exact H.
  - destruct (Z.le_gt_cases r c) as [Hrc|Hrc].
    + pose proof (for_return_none _ _ Hd1 (c - r) ltac:(apply in_range; lia)) as Hb.
      cbv beta in Hb. rewrite (diag_line board m k To_right 0 (c - r) Hwf) in Hb by lia.
      simpl in Hb. apply (diag_scan_none _ _ k p r) in Hb; try lia.
      apply Hb. intros i Hi. destruct (Hline i Hi) as (_ & _ & H).
      replace (r + i * 1) with (r + i) in H by lia.
      replace (c + i * 1) with (c - r + (r + i)) in H by lia. exact H.
    + pose proof (for_return_none _ _ Hd2 (r - c) ltac:(apply in_range_from; lia)) as Hb.
      cbv beta in Hb. rewrite (diag_line board m k To_right (r - c) 0 Hwf) in Hb by lia.
      simpl in Hb. apply (diag_scan_none _ _ k p c) in Hb; try lia.
      apply Hb. intros i Hi. destruct (Hline i Hi) as (_ & _ & H).
      replace (r + i * 1) with (r - c + (c + i)) in H by lia.
      replace (c + i * 1) with (c + i) in H by lia. exact H.
  - destruct (Z.le_gt_cases (r + c) (m - 1)) as [Hrc|Hrc].
    + pose proof (for_return_none _ _ Hd3 (r + c) ltac:(apply in_range; lia)) as Hb.
      cbv beta in Hb. rewrite (diag_line board m k To_left 0 (r + c) Hwf) in Hb by lia.
      simpl in Hb. apply (diag_scan_none _ _ k p r) in Hb; try lia.
      apply Hb. intros i Hi. destruct (Hline i Hi) as (_ & _ & H).
      replace (r + i * 1) with (r + i) in H by lia.
      replace (c + i * -1) with (r + c - (r + i)) in H by lia. exact H.
    + pose proof (for_return_none _ _ Hd4 (r + c - (m - 1)) ltac:(apply in_range_from; lia)) as Hb.
      cbv beta in Hb.
      rewrite (diag_line board m k To_left (r + c - (m - 1)) (m - 1) Hwf) in Hb by lia.
      simpl in Hb. apply (diag_scan_none _ _ k p (m - 1 - c)) in Hb; try lia.
      apply Hb. intros i Hi. destruct (Hline i Hi) as (_ & _ & H).
      replace (r + i * 1) with (r + c - (m - 1) + (m - 1 - c + i)) in H by lia.
      replace (c + i * -1) with (m - 1 - (m - 1 - c + i)) in H by lia. exact H.
Qed.

(** ** What [result] accepts *)

Lemma result_inv board m k r c s' :
  wf (board, m, k) -> result (board, m, k) (r, c) = Ok s' ->
  0 <= r < m /\ 0 <= c < m /\ grid_get board r c = None.
Proof.
  intros Hwf Hres. unfold result in Hres.
  destruct ((0 <=? r) && (r <? m) && (0 <=? c) && (c <? m)) eqn:Hb; simpl in Hres;
    [|discriminate].
  rewrite !andb_true_iff in Hb. destruct Hb as [[[H1 H2] H3] H4].
  assert (Hr : 0 <= r < m) by lia. assert (Hc : 0 <= c < m) by lia.
  rewrite (cell_at_wf _ _ _ _ _ Hwf Hr Hc) in Hres. simpl in Hres.
  destruct (grid_get board r c); simpl in Hres; [discriminate|]. auto.
Qed.

Lemma result_out_of_bounds board m k r c :
  ~ (0 <= r < m /\ 0 <= c < m) ->
  result (board, m, k) (r, c) = Err (ValueError "Action out of bounds").
Proof.
  intros Hb. unfold result.
  destruct ((0 <=? r) && (r <? m) && (0 <=? c) && (c <? m)) eqn:E; [|reflexivity].
  rewrite !andb_true_iff in E. exfalso. apply Hb. lia.
Qed.

Lemma result_occupied board m k r c p :
  wf (board, m, k) -> 0 <= r < m -> 0 <= c < m -> grid_get board r c = Some p ->
  result (board, m, k) (r, c) = Err (ValueError "Action not legal").
Proof.
  intros Hwf Hr Hc Hp. unfold result.
  replace ((0 <=? r) && (r <? m) && (0 <=? c) && (c <? m)) with true
    by (symmetry; rewrite !andb_true_iff; lia).
  simpl negb. cbv iota.
  rewrite (cell_at_wf _ _ _ _ _ Hwf Hr Hc), Hp. reflexivity.
Qed.

(** X4: on a well-formed state [result] accepts an action exactly when it
    is one of [actions(state)]; an action outside the grid raises
    [ValueError('Action out of bounds')], an action inside the grid that is
    not legal (its cell is occupied) raises
    [ValueError('Action not legal')]. *)
Theorem result_accepts_exactly_the_legal_actions board m k moves r c :
  wf (board, m, k) -> actions (board, m, k) = Ok moves ->
  (In (r, c) moves <-> exists s', result (board, m, k) (r, c) = Ok s') /\
  (~ (0 <= r < m /\ 0 <= c < m) ->
   result (board, m, k) (r, c) = Err (ValueError "Action out of bounds")) /\
  (0 <= r < m -> 0 <= c < m -> ~ In (r, c) moves ->
   result (board, m, k) (r, c) = Err (ValueError "Action not legal")).
Proof.
  intros Hwf Hacts.
  pose proof (actions_legal board m k moves (r, c) Hwf Hacts) as Hlegal. simpl in Hlegal.
  split; [split|split].
  - intros Hin. apply Hlegal in Hin as (Hr & Hc & Hn).
    destruct (result_legal board m k r c Hwf Hr Hc Hn) as (p & _ & Hres). eauto.
  - intros [s' Hres]. apply Hlegal. now apply (result_inv board m k r c s').
  - apply result_out_of_bounds.
  - intros Hr Hc Hnot. destruct (grid_get board r c) as [p|] eqn:Hg.
    + now apply (result_occupied board m k r c p).
    + exfalso. apply Hnot. apply Hlegal. auto.
Qed.

Lemma initial_state_wf m k : wf (initial_state m k).
Proof.
  unfold initial_state, wf. split.
  - now rewrite length_map, range_length.
  - apply Forall_forall. intros row Hrow. apply in_map_iff in Hrow as [r [<- _]].
    now rewrite length_map, range_length.
Qed.

Lemma result_accepts_exactly_the_legal_actions_witness :
  (In (1, 1) (coords 3) <-> exists s', result (initial_state 3 3) (1, 1) = Ok s') /\
  (~ (0 <= 1 < 3 /\ 0 <= 1 < 3) ->
   result (initial_state 3 3) (1, 1) = Err (ValueError "Action out of bounds")) /\
  (0 <= 1 < 3 -> 0 <= 1 < 3 -> ~ In (1, 1) (coords 3) ->
   result (initial_state 3 3) (1, 1) = Err (ValueError "Action not legal")).
Proof.
  apply (result_accepts_exactly_the_legal_actions (board_of (initial_state 3 3)) 3 3 (coords 3) 1 1).
  - exact (initial_state_wf 3 3).
  - reflexivity.
Defined.

(** ** What [result] changes *)

(** X5: a move that [result] accepts was made on an empty cell; the new
    state keeps [m] and [k], is well formed, holds the mark of the mover in
    the played cell, has every other cell unchanged and has one empty cell
    less. *)
Theorem result_changes_one_cell board m k r c s' :
  wf (board, m, k) -> result (board, m, k) (r, c) = Ok s' ->
  exists p board',
    player (board, m, k) = Ok p /\ s' = (board', m, k) /\ wf s' /\
    cell_at board r c = Ok None /\
    cell_at board' r c = Ok (Some p) /\
    (forall r' c', 0 <= r' < m -> 0 <= c' < m -> (r', c') <> (r, c) ->
                   cell_at board' r' c' = cell_at board r' c') /\
    S (empties s') = empties (board, m, k).
Proof.
  intros Hwf Hres.
  destruct (result_inv board m k r c s' Hwf Hres) as (Hr & Hc & Hn).
  destruct (result_legal board m k r c Hwf Hr Hc Hn) as (p & Hp & Hres').
  rewrite Hres' in Hres. injection Hres as <-.
  pose proof (place_wf board m k r c p Hwf) as Hwf'.
  exists p, (place board r c p). split; [exact Hp|]. split; [reflexivity|].
  split; [exact Hwf'|]. split; [|split; [|split]].
  - rewrite (cell_at_wf _ _ _ _ _ Hwf Hr Hc). now f_equal.
  - rewrite (cell_at_wf _ _ _ _ _ Hwf' Hr Hc). f_equal. now apply (place_get board m k).
  - intros r' c' Hr' Hc' Hne.
    rewrite (cell_at_wf _ _ _ _ _ Hwf' Hr' Hc'), (cell_at_wf _ _ _ _ _ Hwf Hr' Hc').
    f_equal. apply place_get_other; lia || exact Hne.
  - now apply place_empties.
Qed.

Lemma result_changes_one_cell_witness :
  exists p board',
    player (initial_state 3 3) = Ok p /\
    ([[None; None; None]; [None; Some X; None]; [None; None; None]], 3, 3) = (board', 3, 3) /\
    wf ([[None; None; None]; [None; Some X; None]; [None; None; None]], 3, 3) /\
    cell_at (board_of (initial_state 3 3)) 1 1 = Ok None /\
    cell_at board' 1 1 = Ok (Some p) /\
    (forall r' c', 0 <= r' < 3 -> 0 <= c' < 3 -> (r', c') <> (1, 1) ->
                   cell_at board' r' c' = cell_at (board_of (initial_state 3 3)) r' c') /\
    S (empties ([[None; None; None]; [None; Some X; None]; [None; None; None]], 3, 3))
    = empties (initial_state 3 3).
Proof.
  apply (result_changes_one_cell (board_of (initial_state 3 3)) 3 3 1 1).
  - exact (initial_state_wf 3 3).
  - reflexivity.
Defined.

(** ** Whose turn it is *)

(** X2: [player] returns X exactly when the number of marks on the grid
    is even, and every move that [result] accepts adds one mark and hands
    the turn to the other player. *)
Theorem players_alternate state a s' :
  wf state -> result state a = Ok s' ->
  exists p,
    player state = Ok p /\
    p = (if Nat.even (marks state) then X else O) /\
    marks s' = S (marks state) /\
    player s' = Ok (opponent p).
Proof.
  destruct state as [[board m] k], a as [r c]. intros Hwf Hres.
  destruct (result_inv board m k r c s' Hwf Hres) as (Hr & Hc & Hn).
  destruct (result_legal board m k r c Hwf Hr Hc Hn) as (p & Hp & Hres').
  rewrite Hres' in Hres. injection Hres as <-.
  pose proof (place_wf board m k r c p Hwf) as Hwf'.
  pose proof (place_marks board m k r c p Hwf Hr Hc Hn) as Hm.
  exists p. split; [exact Hp|].
  rewrite (player_wf board m k Hwf) in Hp. injection Hp as Hp.
  split; [now symmetry|]. split; [exact Hm|].
  rewrite (player_wf _ m k Hwf'), Hm, Nat.even_succ. unfold Nat.odd, marks. subst p.
  now destruct (Nat.even _).
Qed.

Lemma players_alternate_witness :
  exists p,
    player (initial_state 3 3) = Ok p /\
    p = (if Nat.even (marks (initial_state 3 3)) then X else O) /\
    marks ([[None; None; None]; [None; Some X; None]; [None; None; None]], 3, 3)
    = S (marks (initial_state 3 3)) /\
    player ([[None; None; None]; [None; Some X; None]; [None; None; None]], 3, 3)
    = Ok (opponent p).
Proof.
  apply (players_alternate (initial_state 3 3) (1, 1)).
  - exact (initial_state_wf 3 3).
  - reflexivity.
Defined.

(** ** The legal moves *)

(** X3: on a well-formed state [actions] returns exactly the empty cells,
    in the order of its scan, which is strictly increasing in the
    lexicographic order (so the final [sort] changes nothing and no cell is
    listed twice); their number is the number of empty cells, and the marks
    and the legal actions together make [m * m]. *)
Theorem actions_are_the_empty_cells_in_order board m k :
  wf (board, m, k) ->
  exists moves,
    actions (board, m, k) = Ok moves /\
    moves = filter (fun rc => is_none (grid_get board (fst rc) (snd rc))) (coords m) /\
    StronglySorted action_lt moves /\
    List.length moves = empties (board, m, k) /\
    (marks (board, m, k) + List.length moves = Z.to_nat m * Z.to_nat m)%nat.
Proof.
  intros Hwf. exists (empty_cells board m).
  split; [now apply actions_scan|]. split; [reflexivity|]. split; [|split].
  - apply strongly_sorted_filter, coords_sorted.
  - symmetry. now apply empties_as_cells.
  - rewrite <- (empties_as_cells board m k Hwf). now apply marks_empties.
Qed.

Lemma actions_are_the_empty_cells_in_order_witness :
  exists moves,
    actions one_winning_move = Ok moves /\
    moves = filter (fun rc => is_none (grid_get (board_of one_winning_move) (fst rc) (snd rc)))
                   (coords 3) /\
    StronglySorted action_lt moves /\
    List.length moves = empties one_winning_move /\
    (marks one_winning_move + List.length moves = Z.to_nat 3 * Z.to_nat 3)%nat.
Proof.
  apply (actions_are_the_empty_cells_in_order (board_of one_winning_move) 3 3).
  exact one_winning_move_wf.
Defined.

(** ** [terminal] and [utility] *)

Lemma scan_for_empty board m k (xs : list Action) :
  wf (board, m, k) ->
  (forall a, In a xs -> In a (coords m)) ->
  for_return xs (fun rc => x <- cell_at board (fst rc) (snd rc) ;;
                           Ok (if is_none x then Some false else None))
  = Ok (match filter (fun rc => is_none (grid_get board (fst rc) (snd rc))) xs with
        | [] => None
        | _ :: _ => Some false
        end).
Proof.
  intros Hwf. induction xs as [|x xs IH]; intros Hin; simpl; [reflexivity|].
  destruct (proj1 (in_coords m x) (Hin x (or_introl eq_refl))) as [Hr Hc].
  rewrite (cell_at_wf _ _ _ _ _ Hwf Hr Hc). simpl.
  destruct (is_none (grid_get board (fst x) (snd x))); [reflexivity|].
  apply IH. intros; apply Hin; now right.
Qed.

Lemma terminal_wf board m k w :
  wf (board, m, k) -> winner (board, m, k) = Ok w ->
  terminal (board, m, k)
  = Ok (match w with
        | Some _ => true
        | None => match empty_cells board m with [] => true | _ :: _ => false end
        end).
Proof.
  intros Hwf Hw. unfold terminal. rewrite Hw. simpl. destruct w as [p|]; [reflexivity|].
  rewrite (scan_for_empty board m k (coords m) Hwf) by auto. simpl.
  unfold empty_cells.
  now destruct (filter (fun rc => is_none (grid_get board (fst rc) (snd rc))) (coords m)).
Qed.

Lemma utility_wf board m k w :
  wf (board, m, k) -> winner (board, m, k) = Ok w ->
  utility (board, m, k)
  = Ok (match w with
        | Some X => Some 1
        | Some O => Some (-1)
        | None => match empty_cells board m with [] => Some 0 | _ :: _ => None end
        end).
Proof.
  intros Hwf Hw. unfold utility. rewrite Hw. simpl. destruct w as [[|]|]; try reflexivity.
  rewrite (terminal_wf board m k None Hwf Hw). simpl.
  now destruct (empty_cells board m).
Qed.

(** A state that is not terminal has a legal action. *)
Lemma running_game_has_moves state moves :
  wf state -> utility state = Ok None -> actions state = Ok moves -> moves <> [].
Proof.
  destruct state as [[board m] k]. intros Hwf Hu Hacts.
  destruct (winner_total _ Hwf) as [w Hw].
  rewrite (utility_wf board m k w Hwf Hw) in Hu.
  rewrite (actions_scan board m k Hwf) in Hacts. injection Hacts as <-.
  destruct w as [[|]|]; try discriminate.
  destruct (empty_cells board m); [discriminate|]. discriminate.
Qed.

(** X7: on a well-formed state, [terminal] is true exactly when [winner]
    names a player or no legal action is left; [utility] is [None] exactly
    when [terminal] is false, +1 exactly when X is the winner, -1 exactly
    when O is the winner, and 0 exactly when there is no winner and no
    legal action. *)
Theorem utility_is_none_while_the_game_goes_on board m k :
  wf (board, m, k) ->
  exists w moves t u,
    winner (board, m, k) = Ok w /\ actions (board, m, k) = Ok moves /\
    terminal (board, m, k) = Ok t /\ utility (board, m, k) = Ok u /\
    (t = true <-> (w <> None \/ moves = [])) /\
    (u = None <-> t = false) /\
    (u = Some 1 <-> w = Some X) /\
    (u = Some (-1) <-> w = Some O) /\
    (u = Some 0 <-> (w = None /\ moves = [])).
Proof.
  intros Hwf. destruct (winner_total _ Hwf) as [w Hw].
  eexists w, (empty_cells board m), _, _.
  split; [exact Hw|]. split; [now apply actions_scan|].
  split; [exact (terminal_wf board m k w Hwf Hw)|].
  split; [exact (utility_wf board m k w Hwf Hw)|].
  destruct w as [[|]|]; [| |destruct (empty_cells board m)];
    intuition (discriminate || congruence).
Qed.

Lemma full_draw_wf : wf full_draw.
Proof.
  unfold full_draw, wf. split; [reflexivity|]. repeat constructor.
Qed.

Lemma utility_is_none_while_the_game_goes_on_witness :
  exists w moves t u,
    winner full_draw = Ok w /\ actions full_draw = Ok moves /\
    terminal full_draw = Ok t /\ utility full_draw = Ok u /\
    (t = true <-> (w <> None \/ moves = [])) /\
    (u = None <-> t = false) /\
    (u = Some 1 <-> w = Some X) /\
    (u = Some (-1) <-> w = Some O) /\
    (u = Some 0 <-> (w = None /\ moves = [])).
Proof.
  apply (utility_is_none_while_the_game_goes_on (board_of full_draw) 3 3).
  exact full_draw_wf.
Defined.

(** ** The winner is who has [k] in a row *)

(** X6: with [k >= 1], on a well-formed state [winner] returns a player
    only if that player has [k] marks in a row (along a row, a column or
    one of the two diagonal directions, inside the grid), and it returns
    [None] exactly when neither player has [k] in a row. *)
Theorem winner_is_who_has_k_in_a_row board m k :
  wf (board, m, k) -> 1 <= k ->
  exists w,
    winner (board, m, k) = Ok w /\
    (forall p, w = Some p -> k_in_a_row board m k p) /\
    (w = None <-> forall p, ~ k_in_a_row board m k p).
Proof.
  intros Hwf Hk. destruct (winner_total _ Hwf) as [w Hw]. exists w.
  split; [exact Hw|]. split; [|split].
  - intros p ->. now apply winner_sound.
  - intros -> p Hp. now apply (winner_complete board m k p Hwf Hk Hp).
  - intros Hnone. destruct w as [p|]; [|reflexivity].
    destruct (Hnone p). now apply winner_sound.
Qed.

Lemma winner_is_who_has_k_in_a_row_witness :
  exists w,
    winner won_with_empties = Ok w /\
    (forall p, w = Some p -> k_in_a_row (board_of won_with_empties) 3 3 p) /\
    (w = None <-> forall p, ~ k_in_a_row (board_of won_with_empties) 3 3 p).
Proof.
  apply (winner_is_who_has_k_in_a_row (board_of won_with_empties) 3 3).
  - exact won_with_empties_wf.
  - lia.
Defined.

(** ** Degenerate line lengths *)

Lemma no_line_longer_than_the_board board m k p :
  0 <= m < k -> ~ k_in_a_row board m k p.
Proof.
  intros Hk (r & c & dr & dc & Hdir & Hline).
  destruct (Hline 0 ltac:(lia)) as (Hr0 & Hc0 & _).
  destruct (Hline (k - 1) ltac:(lia)) as (Hr1 & Hc1 & _).
  simpl in Hdir. destruct Hdir as [[= <- <-]|[[= <- <-]|[[= <- <-]|[[= <- <-]|[]]]]]; lia.
Qed.

Lemma foldM_unchanged {A S} (body : S -> A -> Res S) (xs : list A) :
  (forall acc x, In x xs -> body acc x = Ok acc) ->
  forall acc, foldM body xs acc = Ok acc.
Proof.
  induction xs as [|x xs IH]; intros Hbody acc; simpl; [reflexivity|].
  rewrite (Hbody acc x (or_introl eq_refl)). simpl.
  apply IH. intros; apply Hbody; now right.
Qed.

Lemma eval_line_no_window m k acc line : m < k -> eval_line m k acc line = Ok acc.
Proof.
  intros Hk. unfold eval_line. rewrite range_nil by lia. reflexivity.
Qed.

Lemma eval_diag_short (f : Z -> Cell) n k acc :
  0 <= n < k -> eval_diag k acc (map f (range n)) = Ok acc.
Proof.
  intros Hk. unfold eval_diag. rewrite len_map_range.
  destruct (Z.max 0 n >=? k) eqn:E; [lia|reflexivity].
Qed.

Lemma eval_diag_loop_short board m k d (starts : list Z) (row_of col_of : Z -> Z) :
  wf (board, m, k) -> 0 <= m < k ->
  (forall s, In s starts ->
             0 <= row_of s /\
             match d with To_right => 0 <= col_of s | To_left => col_of s < m end) ->
  forall acc,
    foldM (fun acc s => diag <- diag_from d board m (row_of s) (col_of s) ;;
                        eval_diag k acc diag) starts acc = Ok acc.
Proof.
  intros Hwf Hk Hst. apply foldM_unchanged. intros acc s Hs.
  destruct (Hst s Hs) as [Hr Hc].
  rewrite (diag_line board m k d _ _ Hwf Hr Hc). simpl.
  destruct (Z.le_gt_cases (diag_len d m (row_of s) (col_of s)) 0) as [Hn|Hn].
  - rewrite range_nil by exact Hn. unfold eval_diag. simpl.
    unfold len. simpl List.length. rewrite Z.geb_leb.
    destruct (k <=? Z.of_nat 0) eqn:E; [apply Z.leb_le in E; simpl in E; lia|reflexivity].
  - apply eval_diag_short. destruct d; simpl in *; lia.
Qed.

Lemma no_winner_when_k_exceeds_m board m k :
  wf (board, m, k) -> 0 <= m < k -> winner (board, m, k) = Ok None.
Proof.
  intros Hwf Hk.
  destruct (winner_total _ Hwf) as [[p|] Hw]; [|exact Hw].
  destruct (no_line_longer_than_the_board board m k p Hk).
  apply winner_sound; [exact Hwf|lia|exact Hw].
Qed.

(** X10: when the line length [k] exceeds the size [m] of the grid,
    [winner] is [None] on every well-formed state: nobody can win,
    [utility] is [None] or 0, and it is 0 exactly when no legal action is
    left. *)
Theorem nobody_wins_when_k_exceeds_m board m k :
  wf (board, m, k) -> 0 <= m < k ->
  winner (board, m, k) = Ok None /\
  (utility (board, m, k) = Ok None \/ utility (board, m, k) = Ok (Some 0)) /\
  (utility (board, m, k) = Ok (Some 0) <-> actions (board, m, k) = Ok []).
Proof.
  intros Hwf Hk.
  pose proof (no_winner_when_k_exceeds_m board m k Hwf Hk) as Hw.
  split; [exact Hw|].
  rewrite (utility_wf board m k None Hwf Hw), (actions_scan board m k Hwf).
  destruct (empty_cells board m); split; auto; split; intros; congruence.
Qed.

Lemma nobody_wins_when_k_exceeds_m_witness :
  winner (initial_state 2 3) = Ok None /\
  (utility (initial_state 2 3) = Ok None \/ utility (initial_state 2 3) = Ok (Some 0)) /\
  (utility (initial_state 2 3) = Ok (Some 0) <-> actions (initial_state 2 3) = Ok []).
Proof.
  apply (nobody_wins_when_k_exceeds_m (board_of (initial_state 2 3)) 2 3).
  - exact (initial_state_wf 2 3).
  - lia.
Defined.

(** X13: when the line length [k] exceeds the size [m] of the grid there
    is no window to score: [evaluate] returns 0.0 through its guard
    [windows == 0], for either perspective, and does not divide. *)
Theorem evaluate_is_zero_without_windows board m k perspective :
  wf (board, m, k) -> 0 <= m < k -> evaluate (board, m, k) perspective = Ok float_zero.
Proof.
  intros Hwf Hk. unfold evaluate.
  rewrite (foldM_unchanged (fun acc r => row <- py_index board r ;; eval_line m k acc row)).
  2:{ intros acc r Hr. apply in_range in Hr.
      rewrite (row_line board m k r Hwf Hr). simpl. apply eval_line_no_window. lia. }
  simpl.
  rewrite (foldM_unchanged (fun acc c => col <- mapM (fun r => cell_at board r c) (range m) ;;
                                         eval_line m k acc col)).
  2:{ intros acc c Hc. apply in_range in Hc.
      rewrite (col_line board m k c Hwf Hc). simpl. apply eval_line_no_window. lia. }
  simpl.
  rewrite (eval_diag_loop_short board m k To_right (range m) (fun _ => 0) (fun s => s) Hwf Hk)
    by (intros s Hs; apply in_range in Hs; lia).
  simpl.
  rewrite (eval_diag_loop_short board m k To_right (range_from 1 m) (fun s => s) (fun _ => 0)
             Hwf Hk)
    by (intros s Hs; apply in_range_from in Hs; lia).
  simpl.
  rewrite (eval_diag_loop_short board m k To_left (range m) (fun _ => 0) (fun s => s) Hwf Hk)
    by (intros s Hs; apply in_range in Hs; lia).
  simpl.
  rewrite (eval_diag_loop_short board m k To_left (range_from 1 m) (fun s => s)
             (fun _ => m - 1) Hwf Hk)
    by (intros s Hs; apply in_range_from in Hs; lia).
  reflexivity.
Qed.

Lemma evaluate_is_zero_without_windows_witness :
  evaluate (initial_state 2 3) O = Ok float_zero.
Proof.
  apply (evaluate_is_zero_without_windows (board_of (initial_state 2 3)) 2 3 O).
  - exact (initial_state_wf 2 3).
  - lia.
Defined.

(** X11: the line length is not validated: with [k = 0] (and [m >= 1])
    the first window of the first row is empty and counts as uniform, so
    [winner] returns X on every well-formed state, the empty board
    included; the state is terminal with utility +1. *)
Theorem k_zero_makes_X_the_winner board m :
  wf (board, m, 0) -> 1 <= m ->
  winner (board, m, 0) = Ok (Some X) /\
  terminal (board, m, 0) = Ok true /\
  utility (board, m, 0) = Ok (Some 1).
Proof.
  intros Hwf Hm.
  assert (Hw : winner (board, m, 0) = Ok (Some X)).
  { unfold winner. rewrite (range_cons m) by lia. simpl for_return.
    rewrite (row_line board m 0 0 Hwf) by lia. simpl rbind.
    unfold line_scan. rewrite (range_cons (m - 0 + 1)) by lia. simpl for_return.
    rewrite (py_slice_map_range _ m 0 0) by lia. reflexivity. }
  split; [exact Hw|]. split.
  - now rewrite (terminal_wf board m 0 _ Hwf Hw).
  - now rewrite (utility_wf board m 0 _ Hwf Hw).
Qed.

Lemma k_zero_makes_X_the_winner_witness :
  winner (initial_state 3 0) = Ok (Some X) /\
  terminal (initial_state 3 0) = Ok true /\
  utility (initial_state 3 0) = Ok (Some 1).
Proof.
  apply (k_zero_makes_X_the_winner (board_of (initial_state 3 0)) 3).
  - exact (initial_state_wf 3 0).
  - lia.
Defined.

(** ** The initial state *)

Lemma nth_all_none (n : nat) (l : list Cell) :
  (forall x, In x l -> x = None) -> nth n l None = None.
Proof.
  intros H. destruct (nth_in_or_default n l None) as [Hin|Heq]; [now apply H|exact Heq].
Qed.

Lemma grid_all_none (board : Board) r c :
  (forall row, In row board -> forall x, In x row -> x = None) -> grid_get board r c = None.
Proof.
  intros H. unfold grid_get. apply nth_all_none. intros x Hx.
  destruct (nth_in_or_default (Z.to_nat r) board []) as [Hin|Heq].
  - exact (H _ Hin x Hx).
  - rewrite Heq in Hx. destruct Hx.
Qed.

Lemma initial_state_cells m k r c : grid_get (board_of (initial_state m k)) r c = None.
Proof.
  apply grid_all_none. intros row Hrow x Hx.
  unfold board_of, initial_state in Hrow. cbn [fst] in Hrow.
  apply in_map_iff in Hrow as [r' [<- _]].
  now apply in_map_iff in Hx as [c' [<- _]].
Qed.

Lemma filter_all {A} (p : A -> bool) (l : list A) :
  (forall x, In x l -> p x = true) -> filter p l = l.
Proof.
  induction l as [|x l IH]; intros H; simpl; [reflexivity|].
  rewrite (H x (or_introl eq_refl)). f_equal. apply IH. intros; apply H; now right.
Qed.

(** X1: for every size [m >= 1] and line length [k >= 1],
    [initial_state(m, k)] is a well-formed [m] x [m] grid whose cells are
    all empty; X is to move, the legal actions are all [m * m] cells in
    row-major order, nobody has won and the game is not over ([terminal] is
    false and [utility] is [None]). *)
Theorem initial_state_starts_the_game m k :
  1 <= m -> 1 <= k ->
  wf (initial_state m k) /\
  (forall r c, 0 <= r < m -> 0 <= c < m ->
               cell_at (board_of (initial_state m k)) r c = Ok None) /\
  player (initial_state m k) = Ok X /\
  actions (initial_state m k) = Ok (coords m) /\
  len (coords m) = m * m /\
  winner (initial_state m k) = Ok None /\
  terminal (initial_state m k) = Ok false /\
  utility (initial_state m k) = Ok None.
Proof.
  intros Hm Hk.
  set (board := board_of (initial_state m k)).
  change (initial_state m k) with (board, m, k).
  pose proof (initial_state_wf m k : wf (board, m, k)) as Hwf.
  assert (Hcells : empty_cells board m = coords m).
  { apply filter_all. intros rc _. unfold board. now rewrite initial_state_cells. }
  assert (Hw : winner (board, m, k) = Ok None).
  { destruct (winner_total _ Hwf) as [[p|] Hw]; [|exact Hw].
    apply (winner_sound _ m k p Hwf Hk) in Hw as (r & c & dr & dc & _ & Hline).
    destruct (Hline 0 ltac:(lia)) as (_ & _ & Hcell).
    unfold board in Hcell. rewrite initial_state_cells in Hcell. discriminate. }
  pose proof (coords_length m) as Hlen.
  assert (Hne : exists a l, coords m = a :: l).
  { destruct (coords m) as [|a l]; [simpl in Hlen; nia|eauto]. }
  destruct Hne as (a & l & Hne).
  split; [exact Hwf|]. split; [|split; [|split; [|split; [|split; [|split]]]]].
  - intros r c Hr Hc. rewrite (cell_at_wf _ m k r c Hwf Hr Hc). f_equal.
    apply initial_state_cells.
  - rewrite (player_wf _ m k Hwf).
    pose proof (marks_empties _ m k Hwf) as Hme.
    rewrite (empties_as_cells _ m k Hwf), Hcells, Hlen in Hme.
    replace (marks (board, m, k)) with 0%nat by lia. reflexivity.
  - rewrite (actions_scan _ m k Hwf). now f_equal.
  - unfold len. rewrite Hlen. nia.
  - exact Hw.
  - rewrite (terminal_wf _ m k None Hwf Hw). now rewrite Hcells, Hne.
  - rewrite (utility_wf _ m k None Hwf Hw). now rewrite Hcells, Hne.
Qed.

Lemma initial_state_starts_the_game_witness :
  wf (initial_state 3 3) /\
  (forall r c, 0 <= r < 3 -> 0 <= c < 3 ->
               cell_at (board_of (initial_state 3 3)) r c = Ok None) /\
  player (initial_state 3 3) = Ok X /\
  actions (initial_state 3 3) = Ok (coords 3) /\
  len (coords 3) = 3 * 3 /\
  winner (initial_state 3 3) = Ok None /\
  terminal (initial_state 3 3) = Ok false /\
  utility (initial_state 3 3) = Ok None.
Proof.
  apply (initial_state_starts_the_game 3 3); lia.
Defined.

(** ** Legal play *)

Lemma result_keeps_marks board m k r c p r' c' q :
  wf (board, m, k) -> 0 <= r < m -> 0 <= c < m -> grid_get board r c = None ->
  0 <= r' -> 0 <= c' ->
  grid_get board r' c' = Some q -> grid_get (place board r c p) r' c' = Some q.
Proof.
  intros Hwf Hr Hc Hn Hr' Hc' Hq.
  rewrite place_get_other; try lia; [exact Hq|].
  intros [= -> ->]. congruence.
Qed.

Lemma k_in_a_row_stays board m k r c p q :
  wf (board, m, k) -> 0 <= r < m -> 0 <= c < m -> grid_get board r c = None ->
  k_in_a_row board m k q -> k_in_a_row (place board r c p) m k q.
Proof.
  intros Hwf Hr Hc Hn (r0 & c0 & dr & dc & Hdir & Hline).
  exists r0, c0, dr, dc. split; [exact Hdir|]. intros i Hi.
  destruct (Hline i Hi) as (H1 & H2 & H3). split; [exact H1|]. split; [exact H2|].
  apply (result_keeps_marks board m k); auto; lia.
Qed.

(** X8: playing on after a win does not undo it: if [winner] names [p]
    and [result] accepts a further move (with [k >= 1]), then [p] still has
    [k] in a row in the new state, [winner] still names a player (it may
    be the other one, see [winner_can_change_hands]) and [utility] is that
    player's +1 or -1. *)
Theorem a_won_game_stays_won board m k p a s' :
  wf (board, m, k) -> 1 <= k ->
  winner (board, m, k) = Ok (Some p) -> result (board, m, k) a = Ok s' ->
  k_in_a_row (board_of s') m k p /\
  exists q, winner s' = Ok (Some q) /\ utility s' = Ok (Some (match q with X => 1 | O => -1 end)).
Proof.
  intros Hwf Hk Hw Hres. destruct a as [r c].
  destruct (result_inv board m k r c s' Hwf Hres) as (Hr & Hc & Hn).
  destruct (result_legal board m k r c Hwf Hr Hc Hn) as (p' & _ & Hres').
  rewrite Hres' in Hres. injection Hres as <-.
  pose proof (place_wf board m k r c p' Hwf) as Hwf'.
  assert (Hline : k_in_a_row (place board r c p') m k p).
  { apply (k_in_a_row_stays board m k); auto. now apply winner_sound. }
  split; [exact Hline|].
  destruct (winner_total _ Hwf') as [[q|] Hw'].
  - exists q. split; [exact Hw'|]. rewrite (utility_wf _ m k _ Hwf' Hw'). now destruct q.
  - destruct (winner_complete _ m k p Hwf' Hk Hline Hw').
Qed.

Lemma late_reply_wf : wf late_reply.
Proof.
  unfold late_reply, wf. split; [reflexivity|]. repeat constructor.
Qed.

Lemma a_won_game_stays_won_witness :
  k_in_a_row (board_of ([[Some O; Some O; Some O]; [Some X; Some X; Some X]; [None; None; None]],
                        3, 3)) 3 3 X /\
  exists q, winner ([[Some O; Some O; Some O]; [Some X; Some X; Some X]; [None; None; None]], 3, 3)
            = Ok (Some q) /\
            utility ([[Some O; Some O; Some O]; [Some X; Some X; Some X]; [None; None; None]], 3, 3)
            = Ok (Some (match q with X => 1 | O => -1 end)).
Proof.
  apply (a_won_game_stays_won (board_of late_reply) 3 3 X (0, 2)).
  - exact late_reply_wf.
  - lia.
  - reflexivity.
  - reflexivity.
Defined.

(** The winner that [winner] names can change: in [late_reply] X has won;
    O, to move, completes the top row, which is scanned first. *)
Lemma winner_can_change_hands :
  winner late_reply = Ok (Some X) /\
  player late_reply = Ok O /\
  (s' <- result late_reply (0, 2) ;; winner s') = Ok (Some O).
Proof.
  repeat apply conj; vm_compute; reflexivity.
Qed.

Lemma legal_play_from moves :
  forall board0 m k s,
    wf (board0, m, k) -> play_moves moves (board0, m, k) = Ok s ->
    exists board,
      s = (board, m, k) /\ wf s /\
      marks s = (marks (board0, m, k) + List.length moves)%nat /\
      NoDup moves /\
      (forall a, In a moves ->
                 0 <= fst a < m /\ 0 <= snd a < m /\ grid_get board0 (fst a) (snd a) = None) /\
      (forall r c, 0 <= r -> 0 <= c ->
         (grid_get board r c <> None <-> (grid_get board0 r c <> None \/ In (r, c) moves))).
Proof.
  unfold play_moves.
  induction moves as [|a moves IH]; intros board0 m k s Hwf Hplay; simpl in Hplay.
  - injection Hplay as <-. exists board0. split; [reflexivity|]. split; [exact Hwf|].
    split; [simpl; lia|]. split; [constructor|]. split; [intros a []|].
    intros r c _ _. simpl. tauto.
  - destruct (result (board0, m, k) a) as [s1|e] eqn:Hres; simpl in Hplay; [|discriminate].
    destruct a as [r c].
    destruct (result_inv board0 m k r c s1 Hwf Hres) as (Hr & Hc & Hn).
    destruct (result_legal board0 m k r c Hwf Hr Hc Hn) as (p & _ & Hres').
    rewrite Hres' in Hres. injection Hres as <-.
    pose proof (place_wf board0 m k r c p Hwf) as Hwf1.
    destruct (IH _ m k s Hwf1 Hplay) as (board & -> & Hwfs & Hmarks & Hnd & Hempty & Hcells).
    assert (Hnotin : ~ In (r, c) moves).
    { intros Hin. destruct (Hempty _ Hin) as (_ & _ & He). simpl in He.
      rewrite (place_get board0 m k r c p Hwf Hr Hc) in He. discriminate. }
    exists board. split; [reflexivity|]. split; [exact Hwfs|]. split; [|split; [|split]].
    + rewrite Hmarks, (place_marks board0 m k r c p Hwf Hr Hc Hn). simpl. lia.
    + now constructor.
    + intros b [<-|Hb]; [simpl; auto|].
      destruct (Hempty b Hb) as (Hbr & Hbc & He). split; [exact Hbr|]. split; [exact Hbc|].
      rewrite <- He. symmetry. apply place_get_other; try lia.
      intros Heq. apply Hnotin. rewrite <- Heq. now destruct b.
    + intros r' c' Hr' Hc'. rewrite (Hcells r' c' Hr' Hc'). simpl.
      destruct (Z.eq_dec r' r) as [->|Hrr]; [destruct (Z.eq_dec c' c) as [->|Hcc]|].
      * rewrite (place_get board0 m k r c p Hwf Hr Hc). split; intros _; [auto|].
        left. discriminate.
      * rewrite place_get_other by (try lia; congruence).
        split; intros [H|H]; auto. destruct H as [[= ?]|H]; [congruence|auto].
      * rewrite place_get_other by (try lia; congruence).
        split; intros [H|H]; auto. destruct H as [[= ? ?]|H]; [congruence|auto].
Qed.

Lemma initial_state_marks m k : marks (initial_state m k) = 0%nat.
Proof.
  pose proof (initial_state_wf m k) as Hwf.
  pose proof (marks_empties (board_of (initial_state m k)) m k Hwf) as Hme.
  rewrite (empties_as_cells (board_of (initial_state m k)) m k Hwf) in Hme.
  replace (empty_cells (board_of (initial_state m k)) m) with (coords m) in Hme.
  - rewrite coords_length in Hme. change (board_of (initial_state m k), m, k)
      with (initial_state m k) in Hme. lia.
  - symmetry. apply filter_all. intros rc _. now rewrite initial_state_cells.
Qed.

(** X9: in any sequence of moves that [result] accepts in turn from
    [initial_state(m, k)] no cell is played twice; after [n] moves the
    state is well formed, the grid holds [n] marks, [n] and the number of
    empty cells make [m * m] (so no game has more than [m * m] moves), X is
    to move exactly when [n] is even, and the empty cells are exactly the
    cells that were not played. *)
Theorem legal_play_fills_one_cell_per_move m k moves s :
  play_moves moves (initial_state m k) = Ok s ->
  wf s /\
  NoDup moves /\
  marks s = List.length moves /\
  (List.length moves + empties s = Z.to_nat m * Z.to_nat m)%nat /\
  player s = Ok (if Nat.even (List.length moves) then X else O) /\
  (forall r c, 0 <= r < m -> 0 <= c < m ->
               (cell_at (board_of s) r c = Ok None <-> ~ In (r, c) moves)).
Proof.
  intros Hplay.
  destruct (legal_play_from moves (board_of (initial_state m k)) m k s
              (initial_state_wf m k) Hplay)
    as (board & -> & Hwf & Hmarks & Hnd & _ & Hcells).
  change (board_of (initial_state m k), m, k) with (initial_state m k) in Hmarks.
  rewrite initial_state_marks, Nat.add_0_l in Hmarks.
  split; [exact Hwf|]. split; [exact Hnd|]. split; [exact Hmarks|]. split; [|split].
  - pose proof (marks_empties board m k Hwf). lia.
  - rewrite (player_wf board m k Hwf). now rewrite Hmarks.
  - intros r c Hr Hc. unfold board_of. simpl.
    rewrite (cell_at_wf board m k r c Hwf Hr Hc).
    specialize (Hcells r c ltac:(lia) ltac:(lia)). rewrite initial_state_cells in Hcells.
    split.
    + intros [= Hn] Hin. apply (proj2 Hcells); [now right|exact Hn].
    + intros Hnot. f_equal. destruct (grid_get board r c) as [q|] eqn:Hq; [|reflexivity].
      exfalso. destruct (proj1 Hcells ltac:(discriminate)) as [H|H]; [now apply H|auto].
Qed.

Lemma legal_play_fills_one_cell_per_move_witness :
  wf one_winning_move /\
  NoDup [(2, 2); (1, 1); (2, 0); (1, 0); (1, 2); (0, 2)] /\
  marks one_winning_move = List.length [(2, 2); (1, 1); (2, 0); (1, 0); (1, 2); (0, 2)] /\
  (List.length [(2, 2); (1, 1); (2, 0); (1, 0); (1, 2); (0, 2)] + empties one_winning_move
   = Z.to_nat 3 * Z.to_nat 3)%nat /\
  player one_winning_move
  = Ok (if Nat.even (List.length [(2, 2); (1, 1); (2, 0); (1, 0); (1, 2); (0, 2)])
        then X else O) /\
  (forall r c, 0 <= r < 3 -> 0 <= c < 3 ->
               (cell_at (board_of one_winning_move) r c = Ok None
                <-> ~ In (r, c) [(2, 2); (1, 1); (2, 0); (1, 0); (1, 2); (0, 2)])).
Proof.
  apply (legal_play_fills_one_cell_per_move 3 3
           [(2, 2); (1, 1); (2, 0); (1, 0); (1, 2); (0, 2)] one_winning_move).
  vm_compute. reflexivity.
Defined.

(** ** States that are not well formed *)

Lemma py_index_error {A} (l : list A) (i : Z) e : py_index l i = Err e -> e = IndexError.
Proof.
  unfold py_index.
  destruct ((0 <=? (if i <? 0 then i + len l else i))
            && ((if i <? 0 then i + len l else i) <? len l)); [|now intros [= <-]].
  destruct (nth_error l _); [discriminate|now intros [= <-]].
Qed.

Lemma cell_at_error board r c e : cell_at board r c = Err e -> e = IndexError.
Proof.
  unfold cell_at. destruct (py_index board r) as [row|e'] eqn:E; simpl.
  - apply py_index_error.
  - intros [= <-]. now apply (py_index_error board r).
Qed.

Lemma foldM_first_error {A S} (body : S -> A -> Res S) (cell : A -> Res Cell)
      (step : S -> A -> Cell -> S) (xs : list A) :
  (forall acc x, body acc x = (c <- cell x ;; Ok (step acc x c))) ->
  (forall x e, cell x = Err e -> e = IndexError) ->
  (exists x e, In x xs /\ cell x = Err e) ->
  forall acc, foldM body xs acc = Err IndexError.
Proof.
  intros Hbody Hcell. induction xs as [|x xs IH]; intros (y & e & Hy & He) acc.
  - destruct Hy.
  - simpl. rewrite Hbody. destruct (cell x) as [c|e'] eqn:Hc; simpl.
    + apply IH. destruct Hy as [<-|Hy]; [congruence|eauto].
    + now rewrite (Hcell x e' Hc).
Qed.

(** X25: the state is not validated: if a cell [(r, c)] inside the
    [m] x [m] range is missing from the board (a row is missing or too
    short), [player] and [actions] raise [IndexError], and so does
    [result] for the action [(r, c)]. *)
Theorem missing_cell_raises_index_error board m k r c e :
  0 <= r < m -> 0 <= c < m -> cell_at board r c = Err e ->
  player (board, m, k) = Err IndexError /\
  actions (board, m, k) = Err IndexError /\
  result (board, m, k) (r, c) = Err IndexError.
Proof.
  intros Hr Hc He.
  assert (Hin : exists x e, In x (coords m) /\ cell_at board (fst x) (snd x) = Err e).
  { exists (r, c), e. split; [apply in_coords; simpl; lia|exact He]. }
  split; [|split].
  - unfold player.
    rewrite (foldM_first_error _ (fun rc => cell_at board (fst rc) (snd rc))
               (fun n _ x => if is_none x then n else n + 1) (coords m)); auto.
    intros x e'. apply cell_at_error.
  - unfold actions.
    rewrite (foldM_first_error _ (fun rc => cell_at board (fst rc) (snd rc))
               (fun acc rc x => if is_none x then acc ++ [rc] else acc) (coords m)); auto.
    intros x e'. apply cell_at_error.
  - unfold result.
    replace ((0 <=? r) && (r <? m) && (0 <=? c) && (c <? m)) with true
      by (symmetry; rewrite !andb_true_iff; lia).
    simpl negb. cbv iota. rewrite He. simpl. f_equal. now apply (cell_at_error board r c).
Qed.

Lemma missing_cell_raises_index_error_witness :
  player ([[None; None]; [None]], 2, 2) = Err IndexError /\
  actions ([[None; None]; [None]], 2, 2) = Err IndexError /\
  result ([[None; None]; [None]], 2, 2) (1, 1) = Err IndexError.
Proof.
  apply (missing_cell_raises_index_error [[None; None]; [None]] 2 2 1 1 IndexError).
  - lia.
  - lia.
  - reflexivity.
Defined.

(* ================================================================= *)
(** * Further properties of the heuristic *)

(** ** Conversion of an integer *)

Lemma digits2_pos_iter (p q : positive) :
  digits2_pos (Pos.iter xO p q) = (digits2_pos p + q)%positive.
Proof.
  induction q as [|q IH] using Pos.peano_ind.
  - simpl. now rewrite Pos.add_1_r.
  - rewrite Pos.iter_succ. simpl. rewrite IH. now rewrite Pos.add_succ_r.
Qed.

Lemma digits2_pos_pow (p : positive) : 2 ^ (Z.pos (digits2_pos p) - 1) <= Z.pos p.
Proof.
  induction p as [p IH|p IH|]; simpl digits2_pos.
  - rewrite Pos2Z.inj_succ.
    replace (Z.succ (Z.pos (digits2_pos p)) - 1) with (Z.succ (Z.pos (digits2_pos p) - 1)) by lia.
    rewrite Z.pow_succ_r by lia. lia.
  - rewrite Pos2Z.inj_succ.
    replace (Z.succ (Z.pos (digits2_pos p)) - 1) with (Z.succ (Z.pos (digits2_pos p) - 1)) by lia.
    rewrite Z.pow_succ_r by lia. lia.
  - simpl. lia.
Qed.

Lemma digits2_pos_small (p : positive) : Z.pos p < 2 ^ 53 -> Z.pos (digits2_pos p) <= 53.
Proof.
  intros H. pose proof (digits2_pos_pow p) as Hd.
  destruct (Z_le_gt_dec (Z.pos (digits2_pos p)) 53) as [|Hgt]; [assumption|exfalso].
  assert (2 ^ 53 <= 2 ^ (Z.pos (digits2_pos p) - 1)) by (apply Z.pow_le_mono_r; lia).
  lia.
Qed.

(** An integer below 2^53 is a float: its conversion is exact and finite. *)
Lemma binary_round_small (s : bool) (p : positive) :
  Z.pos p < 2 ^ 53 ->
  exists m e, binary_round prec emax s p 0 = S754_finite s m e.
Proof.
  intros H. apply digits2_pos_small in H.
  unfold binary_round.
  set (d := digits2_pos p) in *.
  assert (Hf : fexp prec emax (Z.pos d + 0) = Z.pos d - 53).
  { unfold fexp, emin, prec, emax. lia. }
  rewrite Hf. unfold shl_align.
  assert (Haux : forall mz, Z.pos (digits2_pos mz) = 53 ->
             binary_round_aux prec emax s (Z.pos mz) (Z.pos d - 53) loc_Exact
             = S754_finite s mz (Z.pos d - 53)).
  { intros mz Hmz. unfold binary_round_aux, shr_fexp. simpl Zdigits2. rewrite Hmz.
    match goal with
    | |- context [shr ?r ?e ?n] =>
        replace n with 0 by (unfold fexp, emin, prec, emax; lia)
    end.
    cbn [shr shr_record_of_loc shr_m loc_of_shr_record round_nearest_even Zdigits2].
    rewrite Hmz.
    match goal with
    | |- context [shr ?r ?e ?n] =>
        replace n with 0 by (unfold fexp, emin, prec, emax; lia)
    end.
    cbn [shr shr_record_of_loc shr_m].
    destruct (Z.pos d - 53 <=? emax - prec) eqn:E; [reflexivity|].
    apply Z.leb_gt in E. unfold emax, prec in E. lia. }
  destruct (Z.pos d - 53 - 0) as [|q|q] eqn:E.
  - exists p, (Z.pos d - 53).
    replace (binary_round_aux prec emax s (Z.pos p) 0 loc_Exact)
      with (binary_round_aux prec emax s (Z.pos p) (Z.pos d - 53) loc_Exact)
      by (f_equal; lia).
    apply Haux. fold d. lia.
  - lia.
  - eexists _, _. apply Haux. rewrite digits2_pos_iter. fold d. lia.
Qed.

Lemma float_of_small_int (n : Z) :
  0 < n < 2 ^ 53 -> exists m e, float_of_int n = Ok (S754_finite false m e).
Proof.
  intros Hn. destruct n as [|p|p]; try lia.
  unfold float_of_int, binary_normalize.
  destruct (binary_round_small false p) as (m & e & ->); [lia|]. eauto.
Qed.

(** The powers of ten up to [10 ** 308], and their opposites, convert. *)
Lemma powers_convert :
  forallb (fun n => converts (10 ^ n) && converts (- 10 ^ n)) (range (max_power + 1)) = true.
Proof. vm_compute. reflexivity. Qed.

Lemma float_of_power (n : Z) :
  0 <= n <= max_power ->
  (exists f, float_of_int (10 ^ n) = Ok f) /\ (exists f, float_of_int (- 10 ^ n) = Ok f).
Proof.
  intros Hn. pose proof powers_convert as H.
  rewrite forallb_forall in H. specialize (H n).
  assert (Hin : In n (range (max_power + 1))) by (apply in_range; lia).
  apply H in Hin. apply andb_true_iff in Hin as [H1 H2]. unfold converts in H1, H2.
  split.
  - destruct (float_of_int (10 ^ n)); [eauto|discriminate].
  - destruct (float_of_int (- 10 ^ n)); [eauto|discriminate].
Qed.

(** ** Negation *)

Lemma binary_round_aux_opp (s : bool) (m e : Z) (l : location) :
  binary_round_aux prec emax (negb s) m e l = SFopp (binary_round_aux prec emax s m e l).
Proof.
  unfold binary_round_aux.
  destruct (shr_fexp prec emax m e l) as [mrs' e'].
  destruct (shr_fexp prec emax _ e' loc_Exact) as [mrs'' e''].
  destruct (shr_m mrs''); try reflexivity.
  destruct (e'' <=? emax - prec); reflexivity.
Qed.

Lemma binary_round_opp (s : bool) (p : positive) (e : Z) :
  binary_round prec emax (negb s) p e = SFopp (binary_round prec emax s p e).
Proof.
  unfold binary_round. destruct (shl_align _ _ _) as [mz ez]. apply binary_round_aux_opp.
Qed.

Lemma binary_normalize_opp (n e : Z) :
  n <> 0 ->
  binary_normalize prec emax (- n) e false = SFopp (binary_normalize prec emax n e false).
Proof.
  intros Hn. destruct n as [|p|p]; [contradiction| |]; simpl.
  - apply (binary_round_opp false).
  - apply (binary_round_opp true).
Qed.

Lemma SFopp_involutive (x : float) : SFopp (SFopp x) = x.
Proof. destruct x; simpl; try reflexivity; now rewrite negb_involutive. Qed.

Lemma float_of_int_opp (n : Z) (f : float) :
  n <> 0 -> float_of_int n = Ok f -> float_of_int (- n) = Ok (float_neg f).
Proof.
  intros Hn. unfold float_of_int. rewrite (binary_normalize_opp n 0 Hn).
  destruct (binary_normalize prec emax n 0 false); simpl; intros [= <-]; try reflexivity.
Qed.

(** ** Opposite floats *)

Lemma opposite_neg (x : float) : opposite x (float_neg x).
Proof. now left. Qed.

Lemma opposite_zeros (s s' : bool) : opposite (S754_zero s) (S754_zero s').
Proof. right. now split. Qed.

(** Adding opposite floats to opposite floats gives opposite floats. *)
Lemma float_add_opposite (t t' y : float) :
  opposite t t' -> y <> S754_infinity false -> y <> S754_infinity true ->
  opposite (float_add t y) (float_add t' (float_neg y)).
Proof.
  unfold float_add, float_neg. intros [->|[Hz Hz']] Hp Hn.
  - destruct t as [sx|sx| |sx mx ex], y as [sy|[|]| |sy my ey]; simpl;
      try contradiction; try (now apply opposite_neg); try (now apply opposite_zeros).
    + destruct sx, sy; simpl; now apply opposite_zeros.
    + set (A := Z.pos (fst (shl_align mx ex (Z.min ex ey)))).
      set (B := Z.pos (fst (shl_align my ey (Z.min ex ey)))).
      replace (cond_Zopp (negb sx) A + cond_Zopp (negb sy) B)
        with (- (cond_Zopp sx A + cond_Zopp sy B))
        by (destruct sx, sy; unfold cond_Zopp; simpl negb; cbv iota; lia).
      destruct (Z.eq_dec (cond_Zopp sx A + cond_Zopp sy B) 0) as [->|Hne].
      * simpl. now apply opposite_zeros.
      * left. now apply binary_normalize_opp.
  - destruct t as [sx| | |]; try discriminate. destruct t' as [sx'| | |]; try discriminate.
    destruct y as [sy|[|]| |sy my ey]; simpl;
      try contradiction; try (now apply opposite_neg).
    destruct sx, sx', sy; simpl; now apply opposite_zeros.
Qed.

(** Adding [0.0] to opposite floats gives opposite floats. *)
Lemma float_add_zero_opposite (t t' : float) :
  opposite t t' -> opposite (float_add t float_zero) (float_add t' float_zero).
Proof.
  unfold float_add, float_zero. intros [->|[Hz Hz']].
  - destruct t as [sx|sx| |sx mx ex]; simpl; try (now apply opposite_neg).
    destruct sx; simpl; now apply opposite_zeros.
  - destruct t as [sx| | |]; try discriminate. destruct t' as [sx'| | |]; try discriminate.
    destruct sx, sx'; simpl; now apply opposite_zeros.
Qed.

(** Dividing opposite floats by a float that is neither a zero nor an
    infinity gives opposite floats. *)
Lemma float_div_opposite (t t' y : float) :
  opposite t t' -> float_is_zero y = false ->
  y <> S754_infinity false -> y <> S754_infinity true ->
  opposite (SFdiv prec emax t y) (SFdiv prec emax t' y).
Proof.
  intros [->|[Hz Hz']] Hy Hp Hn.
  - destruct t as [sx|sx| |sx mx ex], y as [sy|[|]| |sy my ey]; simpl in *;
      try discriminate; try contradiction; try (now apply opposite_neg);
      try (now apply opposite_zeros).
    + left. simpl. now rewrite <- negb_xorb_l.
    + destruct (SFdiv_core_binary prec emax (Z.pos mx) ex (Z.pos my) ey) as [[mz ez] lz].
      left. rewrite <- negb_xorb_l. apply binary_round_aux_opp.
  - destruct t as [sx| | |]; try discriminate. destruct t' as [sx'| | |]; try discriminate.
    destruct y as [sy|[|]| |sy my ey]; simpl in *;
      try discriminate; try contradiction; try (now apply opposite_neg);
      now apply opposite_zeros.
Qed.

(** Opposite floats are equal to opposite numbers. *)
Lemma float_value_opposite (x y : float) :
  opposite x y -> float_value y = number_opp (float_value x).
Proof.
  intros [->|[Hz Hz']].
  - destruct x as [s|[|]| |s m e]; try reflexivity.
    unfold float_neg, SFopp, float_value, number_opp. f_equal.
    assert (Hn : (if negb s then Z.neg m else Z.pos m) = - (if s then Z.neg m else Z.pos m))
      by (destruct s; reflexivity).
    rewrite Hn. destruct e as [|p|p].
    + reflexivity.
    + rewrite Z.mul_opp_l. reflexivity.
    + exact (Qred_opp (_ # _)).
  - destruct x; try discriminate. destruct y; try discriminate. reflexivity.
Qed.

(** The conversion of an integer never gives an infinity. *)
Lemma float_of_int_finite (n : Z) (f : float) :
  float_of_int n = Ok f -> f <> S754_infinity false /\ f <> S754_infinity true.
Proof.
  unfold float_of_int.
  destruct (binary_normalize prec emax n 0 false); intros [= <-]; split; discriminate.
Qed.

(** ** Exchanging the two marks *)

Lemma rbind_map {A B} (f : A -> B) (m : Res A) :
  (x <- m ;; Ok (f x)) = match m with Ok x => Ok (f x) | Err e => Err e end.
Proof. now destruct m. Qed.

Lemma py_index_map {A B} (f : A -> B) (l : list A) (i : Z) :
  py_index (map f l) i = (x <- py_index l i ;; Ok (f x)).
Proof.
  unfold py_index, len. rewrite length_map.
  destruct ((0 <=? (if i <? 0 then i + Z.of_nat (List.length l) else i))
            && ((if i <? 0 then i + Z.of_nat (List.length l) else i)
                <? Z.of_nat (List.length l))); [|reflexivity].
  rewrite nth_error_map. now destruct (nth_error l _).
Qed.

Lemma py_slice_map {A B} (f : A -> B) (l : list A) (a b : Z) :
  py_slice (map f l) a b = map f (py_slice l a b).
Proof.
  unfold py_slice, len. now rewrite length_map, skipn_map, firstn_map.
Qed.

Lemma cell_at_swap board r c :
  cell_at (map (map swap_cell) board) r c = (x <- cell_at board r c ;; Ok (swap_cell x)).
Proof.
  unfold cell_at. rewrite py_index_map.
  destruct (py_index board r) as [row|e]; simpl; [|reflexivity].
  apply py_index_map.
Qed.

Lemma mapM_swap board c (xs : list Z) :
  mapM (fun r => cell_at (map (map swap_cell) board) r c) xs
  = (col <- mapM (fun r => cell_at board r c) xs ;; Ok (map swap_cell col)).
Proof.
  induction xs as [|x xs IH]; simpl; [reflexivity|].
  rewrite cell_at_swap. destruct (cell_at board x c) as [y|e]; simpl; [|reflexivity].
  rewrite IH. destruct (mapM (fun r => cell_at board r c) xs); reflexivity.
Qed.

Lemma walk_diag_swap board m d steps :
  forall r c,
    walk_diag steps d (map (map swap_cell) board) m r c
    = (diag <- walk_diag steps d board m r c ;; Ok (map swap_cell diag)).
Proof.
  induction steps as [|n IH]; intros r c; simpl; [reflexivity|].
  destruct (diag_guard d m r c); [|reflexivity].
  rewrite cell_at_swap. destruct (cell_at board r c) as [x|e]; simpl; [|reflexivity].
  rewrite IH. destruct (walk_diag n d board m (r + 1) (diag_step d c)); reflexivity.
Qed.

Lemma count_mark_swap p w : count_mark p (map swap_cell w) = count_mark (opponent p) w.
Proof.
  unfold count_mark, len. f_equal.
  induction w as [|x w IH]; simpl; [reflexivity|].
  replace (cell_is p (swap_cell x)) with (cell_is (opponent p) x)
    by (now destruct x as [[|]|], p).
  destruct (cell_is (opponent p) x); simpl; now rewrite IH.
Qed.

Lemma count_mark_nonneg p w : 0 <= count_mark p w.
Proof. unfold count_mark, len. lia. Qed.

(** The value of a window after the exchange: [0.0] as before, or the
    opposite integer. *)
Lemma window_value_swap w :
  (window_value w = Float float_zero /\ window_value (map swap_cell w) = Float float_zero) \/
  (exists n, n <> 0 /\ window_value w = Int n /\ window_value (map swap_cell w) = Int (- n)).
Proof.
  unfold window_value. rewrite !count_mark_swap. simpl opponent.
  pose proof (count_mark_nonneg X w) as Hx. pose proof (count_mark_nonneg O w) as Ho.
  destruct (count_mark X w >? 0) eqn:Ex, (count_mark O w >? 0) eqn:Eo; simpl.
  - now left.
  - right. exists (10 ^ count_mark X w). split; [|now split].
    apply Z.pow_nonzero; lia.
  - right. exists (- 10 ^ count_mark O w). split; [|split; [reflexivity|]].
    + assert (10 ^ count_mark O w <> 0) by (apply Z.pow_nonzero; lia). lia.
    + now rewrite Z.opp_involutive.
  - now left.
Qed.

Lemma mirrored_add_window acc acc' w r :
  mirrored acc acc' -> add_window acc w = Ok r ->
  exists r', add_window acc' (map swap_cell w) = Ok r' /\ mirrored r r'.
Proof.
  intros [Ht Hw]. unfold add_window, float_add_number.
  destruct (window_value_swap w) as [[-> ->]|(n & Hn & -> & ->)]; simpl.
  - intros [= <-]. eexists. split; [reflexivity|]. split; simpl; [|now rewrite Hw].
    now apply float_add_zero_opposite.
  - destruct (float_of_int n) as [y|e] eqn:Ey; simpl; [|discriminate].
    intros [= <-]. rewrite (float_of_int_opp n y Hn Ey). simpl.
    eexists. split; [reflexivity|]. split; simpl; [|now rewrite Hw].
    destruct (float_of_int_finite n y Ey). now apply float_add_opposite.
Qed.

Lemma foldM_related {A S} (R : S -> S -> Prop) (body body' : S -> A -> Res S) (xs : list A) :
  (forall acc acc' x r, R acc acc' -> body acc x = Ok r ->
                        exists r', body' acc' x = Ok r' /\ R r r') ->
  forall acc acc' r, R acc acc' -> foldM body xs acc = Ok r ->
                     exists r', foldM body' xs acc' = Ok r' /\ R r r'.
Proof.
  intros Hbody. induction xs as [|x xs IH]; intros acc acc' r HR Hrun; simpl in *.
  - injection Hrun as <-. eauto.
  - destruct (body acc x) as [r1|e] eqn:E; simpl in Hrun; [|discriminate].
    destruct (Hbody _ _ _ _ HR E) as (r1' & -> & HR1). simpl. now apply (IH r1).
Qed.

Lemma windows_mirrored (k : Z) (line : list Cell) (xs : list Z) acc acc' r :
  mirrored acc acc' ->
  foldM (fun acc s => add_window acc (py_slice line s (s + k))) xs acc = Ok r ->
  exists r',
    foldM (fun acc s => add_window acc (py_slice (map swap_cell line) s (s + k))) xs acc'
    = Ok r' /\ mirrored r r'.
Proof.
  apply foldM_related. clear. intros acc acc' s r HR Hrun.
  rewrite py_slice_map. now apply (mirrored_add_window acc).
Qed.

Lemma eval_line_mirrored m k line acc acc' r :
  mirrored acc acc' -> eval_line m k acc line = Ok r ->
  exists r', eval_line m k acc' (map swap_cell line) = Ok r' /\ mirrored r r'.
Proof. apply windows_mirrored. Qed.

Lemma eval_diag_mirrored k diag acc acc' r :
  mirrored acc acc' -> eval_diag k acc diag = Ok r ->
  exists r', eval_diag k acc' (map swap_cell diag) = Ok r' /\ mirrored r r'.
Proof.
  intros HR. unfold eval_diag, len. rewrite length_map.
  destruct (Z.of_nat (List.length diag) >=? k).
  - now apply windows_mirrored.
  - intros [= <-]. eauto.
Qed.

Lemma diag_loop_mirrored board m k d (starts : list Z) (row_of col_of : Z -> Z) acc acc' r :
  mirrored acc acc' ->
  foldM (fun acc s => diag <- diag_from d board m (row_of s) (col_of s) ;;
                      eval_diag k acc diag) starts acc = Ok r ->
  exists r',
    foldM (fun acc s => diag <- diag_from d (map (map swap_cell) board) m (row_of s) (col_of s) ;;
                        eval_diag k acc diag) starts acc' = Ok r' /\ mirrored r r'.
Proof.
  apply foldM_related. clear. intros acc acc' s r HR Hrun.
  unfold diag_from in *. rewrite walk_diag_swap.
  destruct (walk_diag (Z.to_nat m) d board m (row_of s) (col_of s)) as [diag|e];
    simpl in *; [|discriminate].
  now apply (eval_diag_mirrored k diag acc).
Qed.

(** The quotient of opposite totals by the number of windows. *)
Lemma float_div_int_opposite (t t' : float) (n : Z) (x : float) :
  opposite t t' -> float_div_int t n = Ok x ->
  exists x', float_div_int t' n = Ok x' /\ opposite x x'.
Proof.
  intros Ht. unfold float_div_int.
  destruct (float_of_int n) as [y|e] eqn:Ey; simpl; [|discriminate].
  destruct (float_is_zero y) eqn:Ez; [discriminate|].
  intros [= <-]. eexists. split; [reflexivity|].
  destruct (float_of_int_finite n y Ey). now apply float_div_opposite.
Qed.

(** X12: the heuristic is antisymmetric.  Whenever [evaluate(state, 'X')]
    returns, [evaluate(state, 'O')] returns the opposite number, and so
    does [evaluate] on the state in which the X and the O marks of the
    grid are exchanged. *)
Theorem evaluate_is_antisymmetric board m k x :
  evaluate (board, m, k) X = Ok x ->
  exists x' y,
    evaluate (board, m, k) O = Ok x' /\
    float_value x' = number_opp (float_value x) /\
    evaluate (swap_marks (board, m, k)) X = Ok y /\
    float_value y = number_opp (float_value x).
Proof.
  intros Hx.
  unfold swap_marks. unfold evaluate in *.
  peel Hx a1 E1.
  destruct (@foldM_related Z tally mirrored
              (fun acc r => row <- py_index board r ;; eval_line m k acc row)
              (fun acc r => row <- py_index (map (map swap_cell) board) r ;; eval_line m k acc row)
              (range m)) with (acc := (float_zero, 0)) (acc' := (float_zero, 0)) (r := a1)
    as (b1 & -> & R1).
  { clear. intros acc acc' r res HR Hrun. rewrite py_index_map.
    destruct (py_index board r) as [row|e]; simpl in *; [|discriminate].
    now apply (eval_line_mirrored m k row acc). }
  { split; simpl; [apply opposite_zeros|reflexivity]. }
  { exact E1. }
  simpl.
  peel Hx a2 E2.
  destruct (@foldM_related Z tally mirrored
              (fun acc c => col <- mapM (fun r => cell_at board r c) (range m) ;;
                            eval_line m k acc col)
              (fun acc c => col <- mapM (fun r => cell_at (map (map swap_cell) board) r c)
                                        (range m) ;;
                            eval_line m k acc col)
              (range m)) with (acc := a1) (acc' := b1) (r := a2)
    as (b2 & -> & R2).
  { clear. intros acc acc' c res HR Hrun. rewrite mapM_swap.
    destruct (mapM _ (range m)) as [col|e]; simpl in *; [|discriminate].
    now apply (eval_line_mirrored m k col acc). }
  { exact R1. }
  { exact E2. }
  simpl.
  peel Hx a3 E3.
  destruct (diag_loop_mirrored board m k To_right (range m) (fun _ => 0) (fun s => s)
              a2 b2 a3 R2 E3) as (b3 & -> & R3).
  simpl.
  peel Hx a4 E4.
  destruct (diag_loop_mirrored board m k To_right (range_from 1 m) (fun s => s) (fun _ => 0)
              a3 b3 a4 R3 E4) as (b4 & -> & R4).
  simpl.
  peel Hx a5 E5.
  destruct (diag_loop_mirrored board m k To_left (range m) (fun _ => 0) (fun s => s)
              a4 b4 a5 R4 E5) as (b5 & -> & R5).
  simpl.
  peel Hx a6 E6.
  destruct (diag_loop_mirrored board m k To_left (range_from 1 m) (fun s => s) (fun _ => m - 1)
              a5 b5 a6 R5 E6) as (b6 & -> & R6).
  simpl.
  destruct a6 as [total windows], b6 as [total' windows']. destruct R6 as [Ht Hw].
  simpl in Ht, Hw. subst windows'.
  destruct (windows =? 0).
  - injection Hx as <-. exists float_zero, float_zero. repeat split; reflexivity.
  - peel Hx score Es. injection Hx as <-.
    destruct (float_div_int_opposite total total' windows score Ht Es) as (score' & -> & Hs).
    simpl. exists (float_neg score), score'. split; [reflexivity|].
    split; [apply float_value_opposite, opposite_neg|].
    split; [reflexivity|]. now apply float_value_opposite.
Qed.

Lemma evaluate_is_antisymmetric_witness :
  exists x' y,
    evaluate one_winning_move O = Ok x' /\
    float_value x' = number_opp (Fin 10%Q) /\
    evaluate (swap_marks one_winning_move) X = Ok y /\
    float_value y = number_opp (Fin 10%Q).
Proof.
  apply (evaluate_is_antisymmetric (board_of one_winning_move) 3 3
           (S754_finite false 5629499534213120 (-49))).
  vm_compute. reflexivity.
Defined.

(** ** The heuristic on the boards of at most 308 x 308 cells *)

Lemma count_mark_le p w : count_mark p w <= len w.
Proof.
  unfold count_mark, len. pose proof (filter_length_le (cell_is p) w). lia.
Qed.

Lemma py_slice_len {A} (l : list A) (a b : Z) : len (py_slice l a b) <= len l.
Proof.
  unfold py_slice, len. rewrite length_firstn, length_skipn. lia.
Qed.

Lemma len_range (n : Z) : len (range n) = Z.max 0 n.
Proof. unfold len. rewrite range_length. lia. Qed.

Lemma len_range_from (a b : Z) : len (range_from a b) = Z.max 0 (b - a).
Proof. unfold len, range_from. rewrite length_map, length_seq. lia. Qed.

(** A window of at most 308 cells is added to the total without an
    exception. *)
Lemma add_window_total acc w :
  len w <= max_power -> exists t, add_window acc w = Ok (t, snd acc + 1).
Proof.
  intros Hw. unfold add_window, float_add_number, window_value.
  pose proof (count_mark_nonneg X w). pose proof (count_mark_le X w).
  pose proof (count_mark_nonneg O w). pose proof (count_mark_le O w).
  destruct ((count_mark X w >? 0) && (count_mark O w >? 0)); simpl; [eauto|].
  destruct (count_mark X w >? 0).
  { destruct (float_of_power (count_mark X w)) as [[f ->] _]; [lia|]. simpl. eauto. }
  destruct (count_mark O w >? 0).
  { destruct (float_of_power (count_mark O w)) as [_ [f ->]]; [lia|]. simpl. eauto. }
  simpl. eauto.
Qed.

Lemma windows_total (k : Z) (line : list Cell) (xs : list Z) :
  len line <= max_power ->
  forall acc, exists t,
    foldM (fun acc s => add_window acc (py_slice line s (s + k))) xs acc
    = Ok (t, snd acc + len xs).
Proof.
  intros Hl. induction xs as [|x xs IH]; intros acc; simpl.
  - exists (fst acc). unfold len. simpl. rewrite Z.add_0_r. now destruct acc.
  - destruct (add_window_total acc (py_slice line x (x + k))) as [t ->].
    { pose proof (py_slice_len line x (x + k)). lia. }
    simpl. destruct (IH (t, snd acc + 1)) as [t' ->]. exists t'.
    f_equal. f_equal. unfold len. simpl List.length. simpl snd. lia.
Qed.

Lemma eval_line_total m k acc line :
  len line <= max_power ->
  exists t, eval_line m k acc line = Ok (t, snd acc + Z.max 0 (m - k + 1)).
Proof.
  intros Hl. unfold eval_line. rewrite <- len_range. now apply windows_total.
Qed.

Lemma eval_diag_total k acc diag :
  len diag <= max_power ->
  exists acc', eval_diag k acc diag = Ok acc' /\
               snd acc <= snd acc' <= snd acc + Z.max 0 (len diag - k + 1).
Proof.
  intros Hl. unfold eval_diag. destruct (len diag >=? k).
  - destruct (windows_total k diag (range (len diag - k + 1)) Hl acc) as [t ->].
    eexists. split; [reflexivity|]. simpl. rewrite len_range. lia.
  - exists acc. split; [reflexivity|]. lia.
Qed.

(** A loop that adds at most [c] windows per round. *)
Lemma foldM_counted {A} (body : tally -> A -> Res tally) (xs : list A) (c : Z) :
  0 <= c ->
  (forall acc x, In x xs ->
                 exists acc', body acc x = Ok acc' /\ snd acc <= snd acc' <= snd acc + c) ->
  forall acc, exists r, foldM body xs acc = Ok r /\ snd acc <= snd r <= snd acc + c * len xs.
Proof.
  intros Hc. induction xs as [|x xs IH]; intros Hbody acc; simpl.
  - exists acc. split; [reflexivity|]. unfold len. simpl. lia.
  - destruct (Hbody acc x (or_introl eq_refl)) as (acc' & -> & Hacc'). simpl.
    destruct (IH (fun a y Hy => Hbody a y (or_intror Hy)) acc') as (r & -> & Hr).
    exists r. split; [reflexivity|]. unfold len in *. simpl List.length. nia.
Qed.

Lemma eval_diag_loop_total board m k d (starts : list Z) (row_of col_of : Z -> Z) :
  wf (board, m, k) -> 0 <= k -> m <= max_power ->
  (forall s, In s starts ->
             0 <= row_of s /\
             match d with To_right => 0 <= col_of s | To_left => col_of s < m end) ->
  forall acc, exists r,
      foldM (fun acc s => diag <- diag_from d board m (row_of s) (col_of s) ;;
                          eval_diag k acc diag) starts acc = Ok r /\
      snd acc <= snd r <= snd acc + (Z.max 0 m + 1) * len starts.
Proof.
  intros Hwf Hk Hm Hst. apply foldM_counted; [lia|]. intros acc s Hs.
  destruct (Hst s Hs) as [Hr Hc].
  rewrite (diag_line board m k d _ _ Hwf Hr Hc). simpl.
  set (diag := map _ _).
  assert (Hlen : len diag <= Z.max 0 m).
  { unfold diag. rewrite len_map_range. unfold diag_len. destruct d; cbn beta iota in Hc; lia. }
  destruct (eval_diag_total k acc diag) as (acc' & -> & Hacc'); [unfold max_power in *; lia|].
  exists acc'. split; [reflexivity|]. lia.
Qed.

(** On a well-formed board of at most 308 x 308 cells, with [k >= 0],
    [evaluate] returns: no window holds more than 308 marks, so every
    power of ten converts to a float, and the number of windows is far
    below 2^53. *)
Lemma evaluate_total board m k perspective :
  wf (board, m, k) -> 0 <= k -> m <= max_power ->
  exists x, evaluate (board, m, k) perspective = Ok x.
Proof.
  intros Hwf Hk Hm. unfold evaluate.
  set (c := Z.max 0 m + 1).
  destruct (foldM_counted (fun acc r => row <- py_index board r ;; eval_line m k acc row)
                          (range m) c ltac:(lia)) with (acc := (float_zero, 0))
    as (acc1 & -> & H1).
  { intros acc r Hr. apply in_range in Hr.
    destruct (wf_row _ _ _ _ Hwf Hr) as [-> Hlen]. simpl.
    destruct (eval_line_total m k acc (nth (Z.to_nat r) board [])) as [t ->].
    { unfold len. rewrite Hlen. unfold max_power in *. lia. }
    eexists. split; [reflexivity|]. simpl. lia. }
  simpl.
  destruct (foldM_counted (fun acc c => col <- mapM (fun r => cell_at board r c) (range m) ;;
                                        eval_line m k acc col)
                          (range m) c ltac:(lia)) with (acc := acc1)
    as (acc2 & -> & H2).
  { intros acc c0 Hc. apply in_range in Hc.
    rewrite (col_line board m k c0 Hwf Hc). simpl.
    destruct (eval_line_total m k acc (map (fun r => grid_get board r c0) (range m))) as [t ->].
    { rewrite len_map_range. unfold max_power in *. lia. }
    eexists. split; [reflexivity|]. simpl. lia. }
  simpl.
  destruct (eval_diag_loop_total board m k To_right (range m) (fun _ => 0) (fun s => s)
                                 Hwf Hk Hm) with (acc := acc2) as (acc3 & -> & H3).
  { intros s Hs. apply in_range in Hs. lia. }
  simpl.
  destruct (eval_diag_loop_total board m k To_right (range_from 1 m) (fun s => s) (fun _ => 0)
                                 Hwf Hk Hm) with (acc := acc3) as (acc4 & -> & H4).
  { intros s Hs. apply in_range_from in Hs. lia. }
  simpl.
  destruct (eval_diag_loop_total board m k To_left (range m) (fun _ => 0) (fun s => s)
                                 Hwf Hk Hm) with (acc := acc4) as (acc5 & -> & H5).
  { intros s Hs. apply in_range in Hs. lia. }
  simpl.
  destruct (eval_diag_loop_total board m k To_left (range_from 1 m) (fun s => s)
                                 (fun _ => m - 1) Hwf Hk Hm) with (acc := acc5)
    as ([total windows] & -> & H6).
  { intros s Hs. apply in_range_from in Hs. lia. }
  simpl. destruct (Z.eqb_spec windows 0) as [|Hw]; [eauto|].
  rewrite len_range in *. rewrite len_range_from in *. simpl in *.
  assert (Hwin : 0 < windows < 2 ^ 53).
  { unfold max_power in Hm. split; [lia|].
    apply (Z.le_lt_trans _ (6 * (309 * 308))); [|reflexivity].
    assert (c * Z.max 0 m <= 309 * 308) by (unfold c; nia).
    assert (c * Z.max 0 (m - 1) <= 309 * 308) by (unfold c; nia).
    lia. }
  unfold float_div_int.
  destruct (float_of_small_int windows Hwin) as (mw & ew & ->). simpl. eauto.
Qed.

(** The bound is sharp: [10 ** 308] converts to a float and [10 ** 309]
    does not; adding [10 ** 308] to itself gives [inf], without an
    exception; on [long_row] the first window holds 309 X marks and
    [evaluate] raises [OverflowError], which the probe of [_order_moves]
    catches: the action gets the neutral score. *)
Lemma evaluate_overflows_beyond_the_bound :
  float_of_int (10 ^ 308) = Ok (S754_finite false 5010420900022432 971) /\
  float_of_int (10 ^ 309) = Err OverflowError /\
  float_add_number (S754_finite false 5010420900022432 971) (Int (10 ^ 308))
  = Ok (S754_infinity false) /\
  evaluate long_row X = Err OverflowError /\
  priority result (fun s => evaluate s X) long_row true (1, 0) = (2, Fin 0%Q, (1, 0)).
Proof.
  repeat apply conj; vm_compute; reflexivity.
Qed.

(** ** The heuristic never returns a NaN *)

Lemma shr_1_nonneg mrs : 0 <= shr_m mrs -> 0 <= shr_m (shr_1 mrs).
Proof.
  destruct mrs as [m r s]. simpl. destruct m as [|[p|p|]|[p|p|]]; simpl; lia.
Qed.

Lemma iter_shr_1_nonneg (p : positive) :
  forall mrs, 0 <= shr_m mrs -> 0 <= shr_m (iter_pos shr_1 p mrs).
Proof.
  induction p as [p IH|p IH|]; intros mrs H; simpl.
  - apply IH, IH. now apply shr_1_nonneg.
  - now apply IH, IH.
  - now apply shr_1_nonneg.
Qed.

Lemma shr_fexp_nonneg (m e : Z) (l : location) :
  0 <= m -> 0 <= shr_m (fst (shr_fexp prec emax m e l)).
Proof.
  intros Hm. unfold shr_fexp, shr.
  assert (H0 : 0 <= shr_m (shr_record_of_loc m l)) by (destruct l as [|[| |]]; exact Hm).
  destruct (fexp prec emax (Zdigits2 m + e) - e); simpl; try exact H0.
  now apply iter_shr_1_nonneg.
Qed.

Lemma binary_round_aux_number (s : bool) (m e : Z) (l : location) :
  0 <= m -> is_number (binary_round_aux prec emax s m e l).
Proof.
  intros Hm. unfold binary_round_aux, is_number.
  pose proof (shr_fexp_nonneg m e l Hm) as H1.
  destruct (shr_fexp prec emax m e l) as [mrs' e']. simpl in H1.
  assert (H2 : 0 <= round_nearest_even (shr_m mrs') (loc_of_shr_record mrs')).
  { unfold round_nearest_even. destruct (loc_of_shr_record mrs') as [|[| |]]; try lia.
    destruct (Z.even (shr_m mrs')); lia. }
  pose proof (shr_fexp_nonneg _ e' loc_Exact H2) as H3.
  destruct (shr_fexp prec emax _ e' loc_Exact) as [mrs'' e'']. simpl in H3.
  destruct (shr_m mrs''); try discriminate; [|lia].
  destruct (e'' <=? emax - prec); discriminate.
Qed.

Lemma binary_normalize_number (n e : Z) (s : bool) :
  is_number (binary_normalize prec emax n e s).
Proof.
  destruct n as [|p|p]; simpl; [discriminate| |];
    unfold binary_round; destruct (shl_align _ _ _) as [mz ez];
    now apply binary_round_aux_number.
Qed.

(** The conversion of an integer gives a zero or a finite number. *)
Lemma float_of_int_is_finite (n : Z) (f : float) : float_of_int n = Ok f -> is_finite f = true.
Proof.
  unfold float_of_int. pose proof (binary_normalize_number n 0 false) as H.
  destruct (binary_normalize prec emax n 0 false); intros [= <-];
    [reflexivity|now destruct H|reflexivity].
Qed.

Lemma float_add_number_total (x y : float) :
  is_number x -> is_finite y = true -> is_number (float_add x y).
Proof.
  unfold is_number, float_add. intros Hx Hy.
  destruct x as [sx|sx| |sx mx ex], y as [sy|sy| |sy my ey]; simpl in *;
    try discriminate; try contradiction.
  - destruct sx, sy; discriminate.
  - apply binary_normalize_number.
Qed.

Lemma float_div_number (x y : float) :
  is_number x -> is_finite y = true -> float_is_zero y = false ->
  is_number (SFdiv prec emax x y).
Proof.
  unfold is_number. intros Hx Hy Hz.
  destruct x as [sx|sx| |sx mx ex], y as [sy|sy| |sy my ey]; simpl in *;
    try discriminate; try contradiction.
  unfold SFdiv_core_binary.
  set (m' := match _ with Z.pos _ => _ | _ => _ end).
  assert (Hm' : 0 <= m').
  { unfold m'. destruct (ex - ey - _) eqn:E; try lia. apply Z.shiftl_nonneg. lia. }
  pose proof (Z_div_mod m' (Z.pos my) ltac:(lia)) as Hdiv.
  destruct (Z.div_eucl m' (Z.pos my)) as [q r].
  apply binary_round_aux_number. nia.
Qed.

Lemma foldM_invariant {A S} (P : S -> Prop) (body : S -> A -> Res S) (xs : list A) :
  (forall acc x r, P acc -> body acc x = Ok r -> P r) ->
  forall acc r, P acc -> foldM body xs acc = Ok r -> P r.
Proof.
  intros Hbody. induction xs as [|x xs IH]; intros acc r HP Hrun; simpl in Hrun.
  - now injection Hrun as <-.
  - destruct (body acc x) as [acc'|e] eqn:E; simpl in Hrun; [|discriminate].
    exact (IH acc' r (Hbody _ _ _ HP E) Hrun).
Qed.

Lemma add_window_number acc w r :
  is_number (fst acc) -> add_window acc w = Ok r -> is_number (fst r).
Proof.
  intros Hacc. unfold add_window, float_add_number.
  destruct (window_value w) as [n|f] eqn:Ev; simpl.
  - destruct (float_of_int n) as [y|e] eqn:Ey; simpl; [|discriminate].
    intros [= <-]. simpl. apply float_add_number_total; [exact Hacc|].
    exact (float_of_int_is_finite n y Ey).
  - intros [= <-]. simpl. apply float_add_number_total; [exact Hacc|].
    unfold window_value in Ev.
    destruct ((count_mark X w >? 0) && (count_mark O w >? 0)); [now injection Ev as <-|].
    destruct (count_mark X w >? 0); [discriminate|].
    destruct (count_mark O w >? 0); [discriminate|]. now injection Ev as <-.
Qed.

Lemma eval_line_number m k acc line r :
  is_number (fst acc) -> eval_line m k acc line = Ok r -> is_number (fst r).
Proof.
  unfold eval_line. apply (foldM_invariant (fun acc => is_number (fst acc))).
  intros a s r'. apply add_window_number.
Qed.

Lemma eval_diag_number k acc diag r :
  is_number (fst acc) -> eval_diag k acc diag = Ok r -> is_number (fst r).
Proof.
  unfold eval_diag. destruct (len diag >=? k).
  - apply (foldM_invariant (fun acc => is_number (fst acc))).
    intros a s r'. apply add_window_number.
  - now intros H [= <-].
Qed.

Lemma diag_loop_number board m k d (starts : list Z) (row_of col_of : Z -> Z) acc r :
  is_number (fst acc) ->
  foldM (fun acc s => diag <- diag_from d board m (row_of s) (col_of s) ;;
                      eval_diag k acc diag) starts acc = Ok r ->
  is_number (fst r).
Proof.
  apply (foldM_invariant (fun acc => is_number (fst acc))).
  intros a s r' Ha Hrun.
  destruct (diag_from d board m (row_of s) (col_of s)) as [diag|e]; simpl in Hrun;
    [|discriminate].
  exact (eval_diag_number k a diag r' Ha Hrun).
Qed.

(** Whatever the state, a float that [evaluate] returns is a number: no
    step of the computation gives a NaN. *)
Lemma evaluate_is_a_number state perspective x :
  evaluate state perspective = Ok x -> is_number x.
Proof.
  destruct state as [[board m] k]. unfold evaluate. intros Hx.
  peel Hx a1 E1.
  apply (foldM_invariant (fun acc => is_number (fst acc))) in E1; [| |discriminate].
  2:{ intros a r r' Ha Hrun.
      destruct (py_index board r) as [row|e]; simpl in Hrun; [|discriminate].
      exact (eval_line_number m k a row r' Ha Hrun). }
  peel Hx a2 E2.
  apply (foldM_invariant (fun acc => is_number (fst acc))) in E2; [| |exact E1].
  2:{ intros a c r' Ha Hrun.
      destruct (mapM _ (range m)) as [col|e]; simpl in Hrun; [|discriminate].
      exact (eval_line_number m k a col r' Ha Hrun). }
  peel Hx a3 E3. apply diag_loop_number in E3; [|exact E2].
  peel Hx a4 E4. apply diag_loop_number in E4; [|exact E3].
  peel Hx a5 E5. apply diag_loop_number in E5; [|exact E4].
  peel Hx a6 E6. apply diag_loop_number in E6; [|exact E5].
  destruct a6 as [total windows]. simpl in E6.
  destruct (windows =? 0); [injection Hx as <-; discriminate|].
  unfold float_div_int in Hx.
  destruct (float_of_int windows) as [y|e] eqn:Ey; simpl in Hx; [|discriminate].
  destruct (float_is_zero y) eqn:Ez; [discriminate|].
  assert (Hs : is_number (SFdiv prec emax total y)).
  { apply float_div_number; [exact E6| |exact Ez]. exact (float_of_int_is_finite _ _ Ey). }
  injection Hx as <-. destruct perspective; [exact Hs|].
  unfold is_number, float_neg in *. destruct (SFdiv prec emax total y); try discriminate.
  now destruct Hs.
Qed.

(* ================================================================= *)
(** * Further properties of the searches *)

(** ** The centre comes first *)

Lemma geometric_band_range m a : 0 <= geometric_band m a <= 3.
Proof.
  destruct a as [r c]. unfold geometric_band.
  destruct ((r =? m / 2) && (c =? m / 2)); [lia|].
  destruct (((r =? 0) || (r =? m - 1)) && ((c =? 0) || (c =? m - 1))); [lia|].
  destruct (((r =? 0) || (r =? m - 1)) || ((c =? 0) || (c =? m - 1))); lia.
Qed.

Lemma geometric_band_centre m a : geometric_band m a = 0 <-> a = (m / 2, m / 2).
Proof.
  destruct a as [r c]. unfold geometric_band.
  destruct ((r =? m / 2) && (c =? m / 2)) eqn:E.
  - apply andb_true_iff in E as [H1 H2]. apply Z.eqb_eq in H1, H2. subst. tauto.
  - split.
    + destruct (((r =? 0) || (r =? m - 1)) && ((c =? 0) || (c =? m - 1))); [lia|].
      destruct (((r =? 0) || (r =? m - 1)) || ((c =? 0) || (c =? m - 1))); lia.
    + intros [= -> ->]. rewrite !Z.eqb_refl in E. discriminate.
Qed.

(** X14: whenever the centre cell [(m // 2, m // 2)] is a legal action,
    [_order_moves] puts it first, with or without the heuristic probe. *)
Theorem order_moves_puts_the_centre_first board m k flag moves :
  actions (board, m, k) = Ok moves -> In (m / 2, m / 2) moves ->
  exists rest, _order_moves (board, m, k) flag = Ok ((m / 2, m / 2) :: rest).
Proof.
  intros Hacts Hin. unfold _order_moves, _order_moves_with. rewrite Hacts. simpl.
  set (key := priority result (fun s => evaluate s X) (board, m, k) flag).
  pose proof (sort_by_key_perm key moves) as Hperm.
  pose proof (sort_by_key_sorted key moves) as Hsorted.
  destruct (sort_by_key key moves) as [|h rest].
  { apply Permutation_sym, Permutation_nil in Hperm. subst moves. destruct Hin. }
  exists rest. f_equal. f_equal.
  apply (Permutation_in _ Hperm) in Hin. destruct Hin as [Hh|Hin]; [exact Hh|].
  apply StronglySorted_inv in Hsorted as [_ Hall]. rewrite Forall_forall in Hall.
  specialize (Hall _ Hin). unfold key_le, key in Hall. rewrite !priority_key in Hall.
  apply geometric_band_centre.
  pose proof (geometric_band_range m h) as Hr.
  pose proof (proj2 (geometric_band_centre m (m / 2, m / 2)) eq_refl) as Hc.
  rewrite Hc in Hall. unfold key_ltb in Hall.
  destruct (Z.eqb_spec 0 (geometric_band m h)) as [Heq|Hne]; [now symmetry|].
  simpl in Hall. apply Z.ltb_ge in Hall. lia.
Qed.

Lemma order_moves_puts_the_centre_first_witness :
  exists rest, _order_moves (initial_state 3 3) true = Ok ((3 / 2, 3 / 2) :: rest).
Proof.
  apply (order_moves_puts_the_centre_first (board_of (initial_state 3 3)) 3 3 true (coords 3)).
  - reflexivity.
  - vm_compute. tauto.
Defined.

(** ** The ordering is sorted by the key *)

Lemma strongly_sorted_nodup (l : list Action) : StronglySorted action_lt l -> NoDup l.
Proof.
  induction 1 as [|a l Hs IH Ha]; constructor; [|exact IH].
  intros Hin. rewrite Forall_forall in Ha. specialize (Ha a Hin).
  exact (action_lt_asym a a Ha Ha).
Qed.

Lemma scan_nodup (board : Board) (xs : list Action) :
  forall acc r,
    foldM (fun acc rc => x <- cell_at board (fst rc) (snd rc) ;;
                         Ok (if is_none x then acc ++ [rc] else acc)) xs acc = Ok r ->
    NoDup (acc ++ xs) -> NoDup r.
Proof.
  induction xs as [|x xs IH]; intros acc r Hrun Hnd; simpl in Hrun.
  - injection Hrun as <-. now rewrite app_nil_r in Hnd.
  - destruct (cell_at board (fst x) (snd x)) as [c|e]; simpl in Hrun; [|discriminate].
    apply (IH _ _ Hrun). destruct (is_none c).
    + now rewrite <- app_assoc.
    + now apply NoDup_remove_1 in Hnd.
Qed.

(** [actions] lists no action twice, whatever the state. *)
Lemma actions_nodup state moves : actions state = Ok moves -> NoDup moves.
Proof.
  destruct state as [[board m] k]. unfold actions. intros H.
  peel H scanned E. injection H as <-.
  apply (Permutation_NoDup (Permutation_sym (sort_actions_perm scanned))).
  apply (scan_nodup board (coords m) [] scanned E). simpl.
  apply strongly_sorted_nodup, coords_sorted.
Qed.

(** A list without repetition, sorted by keys that end with the action
    itself, is strictly ascending in the order of the keys. *)
Lemma sort_by_key_strict (key : Action -> Key) (l : list Action) :
  (forall a, snd (key a) = a) -> NoDup l ->
  StronglySorted (fun a b => key_lt (key a) (key b)) (sort_by_key key l).
Proof.
  intros Hkey Hnd.
  pose proof (sort_by_key_sorted key l) as Hs.
  pose proof (Permutation_NoDup (sort_by_key_perm key l) Hnd) as Hnd'.
  induction Hs as [|a r Hs IH Ha]; constructor.
  - apply IH. now apply NoDup_cons_iff in Hnd'.
  - apply NoDup_cons_iff in Hnd' as [Hnotin _].
    rewrite Forall_forall in *. intros b Hb. specialize (Ha b Hb). unfold key_le in Ha.
    destruct (key_ltb (key a) (key b)) eqn:E; [now apply key_ltb_lt|exfalso].
    assert (Hab : a = b).
    { rewrite <- (Hkey a), <- (Hkey b). apply key_lt_total; rewrite <- key_ltb_lt; congruence. }
    apply Hnotin. now rewrite Hab.
Qed.

Lemma strongly_sorted_impl {A} (R R' : A -> A -> Prop) (l : list A) :
  (forall a b, R a b -> R' a b) -> StronglySorted R l -> StronglySorted R' l.
Proof.
  intros HR. induction 1 as [|a l Hs IH Ha]; constructor; [exact IH|].
  rewrite Forall_forall in *. intros b Hb. apply HR. now apply Ha.
Qed.

Lemma probe_score_is_a_number state flag a :
  is_number (probe_score result (fun s => evaluate s X) state flag a).
Proof.
  unfold probe_score. destruct flag; [|discriminate].
  destruct (result state a) as [s'|e]; [|discriminate].
  destruct (evaluate s' X) as [x|e] eqn:Ex; [|discriminate].
  exact (evaluate_is_a_number s' X x Ex).
Qed.

(** C7: for every state and flag, [_order_moves] raises exactly when
    [actions] does; otherwise it returns a permutation of [actions(state)]
    in strictly ascending order of the key (band, negated probe score,
    action): of two actions of the list the earlier has the smaller band
    (0 for the centre, 1 for a corner, 2 for another border cell, 3
    elsewhere), or the same band and the smaller negated probe score, or
    the same band, an equal score and the smaller action.  The probe score
    is the float that [evaluate] returns for the successor (never a NaN),
    and the constant 0.0 when the flag is unset or the probe raised; two
    calls with the same arguments return the same list. *)
Theorem C7_order_moves_sorted_permutation board m k flag :
  let state := (board, m, k) in
  let probe := probe_score result (fun s => evaluate s X) state flag in
  let key := fun a => (geometric_band m a, float_value (float_neg (probe a)), a) in
  (forall a, priority result (fun s => evaluate s X) state flag a = key a) /\
  (forall a, probe_score result (fun s => evaluate s X) state false a = float_zero) /\
  (forall a, is_number (probe a)) /\
  (forall l1 l2, _order_moves state flag = Ok l1 -> _order_moves state flag = Ok l2 -> l1 = l2) /\
  match actions state with
  | Err e => _order_moves state flag = Err e
  | Ok moves =>
      exists l, _order_moves state flag = Ok l /\
                Permutation moves l /\
                StronglySorted (fun a b => key_lt (key a) (key b)) l
  end.
Proof.
  intros state probe key.
  assert (Hkey : forall a, priority result (fun s => evaluate s X) state flag a = key a).
  { intros a. apply priority_key. }
  split; [exact Hkey|]. split; [reflexivity|].
  split; [intros a; apply probe_score_is_a_number|]. split; [congruence|].
  unfold _order_moves, _order_moves_with.
  destruct (actions state) as [moves|e] eqn:Hacts; simpl; [|reflexivity].
  eexists. split; [reflexivity|]. split; [apply sort_by_key_perm|].
  assert (Hs : StronglySorted
                 (fun a b => key_lt (priority result (fun s => evaluate s X) state flag a)
                                    (priority result (fun s => evaluate s X) state flag b))
                 (sort_by_key (priority result (fun s => evaluate s X) state flag) moves)).
  { apply sort_by_key_strict.
    - intros a. now rewrite Hkey.
    - exact (actions_nodup state moves Hacts). }
  revert Hs. apply strongly_sorted_impl. intros a b. now rewrite !Hkey.
Qed.

(** ** The probe of a legal action *)

(** The default heuristic returns on the well-formed states of a game of
    at most 308 x 308 cells. *)
Lemma default_eval_total s m k :
  wf s -> game_of s = (m, k) -> 0 <= k -> m <= max_power -> exists x, default_eval s = Ok x.
Proof.
  destruct s as [[board m'] k']. unfold game_of. simpl. intros Hwf [= -> ->] Hk Hm.
  now apply evaluate_total.
Qed.

(** X24: on a well-formed board of at most 308 x 308 cells (and with
    [k >= 0]) the probe of [_order_moves] does not fail for any legal
    action: [result] accepts the action and [evaluate] scores the
    successor, so the key of the action carries the negated score and the
    [except] branch is not taken. *)
Theorem probe_succeeds_on_legal_actions board m k moves a :
  wf (board, m, k) -> 0 <= k -> m <= max_power ->
  actions (board, m, k) = Ok moves -> In a moves ->
  exists s' x,
    result (board, m, k) a = Ok s' /\
    evaluate s' X = Ok x /\
    priority result (fun s => evaluate s X) (board, m, k) true a
    = (geometric_band m a, float_value (float_neg x), a).
Proof.
  intros Hwf Hk Hm Hacts Ha.
  destruct (result_of_action _ moves a Hwf Hacts Ha) as (s' & Hres & Hwf' & _).
  destruct (default_eval_total s' m k Hwf' (result_game _ _ _ Hres) Hk Hm) as [x Hx].
  exists s', x. split; [exact Hres|]. split; [exact Hx|].
  rewrite priority_key. unfold probe_score. unfold default_eval in Hx.
  now rewrite Hres, Hx.
Qed.

Lemma probe_succeeds_on_legal_actions_witness :
  exists s' x,
    result one_winning_move (2, 1) = Ok s' /\
    evaluate s' X = Ok x /\
    priority result (fun s => evaluate s X) one_winning_move true (2, 1)
    = (geometric_band 3 (2, 1), float_value (float_neg x), (2, 1)).
Proof.
  apply (probe_succeeds_on_legal_actions (board_of one_winning_move) 3 3
           [(0, 0); (0, 1); (2, 1)] (2, 1)).
  - exact one_winning_move_wf.
  - lia.
  - unfold max_power. lia.
  - vm_compute. reflexivity.
  - simpl. tauto.
Defined.

(** ** The values of [minimax] are utilities *)

Lemma utility_range state u : wf state -> utility state = Ok (Some u) -> -1 <= u <= 1.
Proof.
  destruct state as [[board m] k]. intros Hwf Hu.
  destruct (winner_total _ Hwf) as [w Hw].
  rewrite (utility_wf board m k w Hwf Hw) in Hu.
  destruct w as [[|]|]; [| |destruct (empty_cells board m)]; injection Hu as <- || discriminate; lia.
Qed.

Lemma fold_max_utility (g : Action -> ext Z) moves :
  (forall a, In a moves -> is_utility (g a)) ->
  forall v0, (v0 = NegInf /\ moves <> []) \/ is_utility v0 ->
             is_utility (fold_left (fun v a => ext_max v (g a)) moves v0).
Proof.
  induction moves as [|b moves IH]; intros Hg v0 Hv0; simpl.
  - destruct Hv0 as [[_ Hne]|Hv0]; [now destruct Hne|exact Hv0].
  - apply IH; [intros; apply Hg; now right|]. right.
    destruct (Hg b (or_introl eq_refl)) as (u & Hu & Hr).
    destruct (ext_max_cases v0 (g b)) as [[_ ->]|[Hge ->]]; [now exists u|].
    destruct Hv0 as [[-> _]|Hv0]; [rewrite Hu in Hge; discriminate|exact Hv0].
Qed.

Lemma fold_min_utility (g : Action -> ext Z) moves :
  (forall a, In a moves -> is_utility (g a)) ->
  forall v0, (v0 = PosInf /\ moves <> []) \/ is_utility v0 ->
             is_utility (fold_left (fun v a => ext_min v (g a)) moves v0).
Proof.
  induction moves as [|b moves IH]; intros Hg v0 Hv0; simpl.
  - destruct Hv0 as [[_ Hne]|Hv0]; [now destruct Hne|exact Hv0].
  - apply IH; [intros; apply Hg; now right|]. right.
    destruct (Hg b (or_introl eq_refl)) as (u & Hu & Hr).
    destruct (ext_min_cases v0 (g b)) as [[_ ->]|[Hge ->]]; [now exists u|].
    destruct Hv0 as [[-> _]|Hv0]; [rewrite Hu in Hge; discriminate|exact Hv0].
Qed.

(** Every node of [minimax] has a utility as its value. *)
Lemma MM_value_range fuel :
  forall s, wf s -> (empties s < fuel)%nat ->
            is_utility (value_of NegInf (MM.max_value fuel s)) /\
            is_utility (value_of NegInf (MM.min_value fuel s)).
Proof.
  induction fuel as [|f IH]; intros s Hwf Hfuel; [lia|].
  destruct (utility_total s Hwf) as [[u|] Hu].
  - destruct (MM_value_terminal f s u Hu) as [-> ->].
    pose proof (utility_range s u Hwf Hu). split; exists u; auto.
  - destruct (actions_total s Hwf) as [moves Hacts].
    pose proof (running_game_has_moves s moves Hwf Hu Hacts) as Hne.
    destruct (MM_value_node f s moves Hwf Hfuel Hu Hacts) as [-> ->].
    assert (Hkids : forall a, In a moves ->
                      is_utility (child_value (MM.min_value f) s a) /\
                      is_utility (child_value (MM.max_value f) s a)).
    { intros a Ha. destruct (result_of_action s moves a Hwf Hacts Ha) as (s' & Hres & Hwf' & He).
      unfold child_value, succ_state. rewrite Hres.
      destruct (IH s' Hwf' ltac:(lia)) as [H1 H2]. auto. }
    split.
    + apply fold_max_utility; [intros a Ha; apply (Hkids a Ha)|auto].
    + apply fold_min_utility; [intros a Ha; apply (Hkids a Ha)|auto].
Qed.

(** ** What [minimax] returns *)

Lemma ext_ltb_Fin (a b : Z) : @ext_ltb Z _ (Fin a) (Fin b) = (a <? b).
Proof. reflexivity. Qed.

(** X15: on a well-formed state that is not terminal, with a recursion
    budget of at least the number of empty cells, [minimax] returns a
    utility (-1, 0 or 1) and a legal action; the value is the value that
    the recursive evaluator gives to the successor of that action, it is
    the largest (X to move) or the smallest (O to move) of the values of
    the successors of all legal actions, and among the actions of that
    value the one returned is the smallest. *)
Theorem minimax_returns_the_smallest_optimal_action fuel state sink :
  wf state -> (empties state <= fuel)%nat -> utility state = Ok None ->
  exists p moves u a c,
    player state = Ok p /\ actions state = Ok moves /\
    minimax fuel state sink = Ok ((Fin u, Some a), c) /\
    -1 <= u <= 1 /\
    In a moves /\
    minimax_value_of_move p fuel state a = Fin u /\
    forall b, In b moves ->
      exists s' w,
        result state b = Ok s' /\
        (forall i, exists i', MM_child p fuel s' i = Ok (Fin w, i')) /\
        minimax_value_of_move p fuel state b = Fin w /\
        match p with X => w <= u | O => u <= w end /\
        (w = u -> action_ltb b a = false).
Proof.
  intros Hwf Hfuel Hu.
  destruct (player_total state Hwf) as [p Hp].
  destruct (actions_total state Hwf) as [moves Hacts].
  pose proof (running_game_has_moves state moves Hwf Hu Hacts) as Hne.
  assert (Hsteady : children_steady (MM_child p fuel) state moves).
  { apply (children_steady_of _ fuel state moves Hwf Hacts Hfuel).
    intros s' Hwf' He. destruct (MM_steady fuel s' Hwf' He) as [H1 H2].
    destruct p; assumption. }
  assert (Hkids : forall b, In b moves ->
            exists s' w, result state b = Ok s' /\
              (forall i, exists i', MM_child p fuel s' i = Ok (Fin w, i')) /\
              minimax_value_of_move p fuel state b = Fin w /\ -1 <= w <= 1).
  { intros b Hb. destruct (result_of_action state moves b Hwf Hacts Hb) as (s' & Hres & Hwf' & He).
    destruct (MM_value_range fuel s' Hwf' ltac:(lia)) as [Hmax Hmin].
    assert (Hval : is_utility (value_of NegInf (MM_child p fuel s'))) by (destruct p; assumption).
    destruct Hval as (w & Hw & Hr). exists s', w. split; [exact Hres|]. split; [|split].
    - intros i. destruct (Hsteady b Hb) as (s'' & Hres' & Hst).
      assert (s'' = s') by congruence. subst s''.
      rewrite (steady_run NegInf _ Hst i), Hw. eauto.
    - unfold minimax_value_of_move, succ_state. now rewrite Hres.
    - exact Hr. }
  exists p, moves.
  unfold minimax, mbind, lift. rewrite Hp.
  destruct moves as [|m0 moves0]; [now destruct Hne|].
  destruct p; rewrite Hacts.
  - rewrite (plain_top_max_scored (MM.min_value fuel) state (m0 :: moves0) Hsteady).
    unfold child_value. unfold minimax_value_of_move in *. simpl MM_child in *.
    set (g := fun b => value_of NegInf (MM.min_value fuel (succ_state state b))).
    change (fun a => (a, value_of NegInf (MM.min_value fuel (succ_state state a))))
      with (fun b => (b, g b)).
    change (forall b, In b (m0 :: moves0) ->
              exists s' w, result state b = Ok s' /\
                (forall i, exists i', MM.min_value fuel s' i = Ok (Fin w, i')) /\
                g b = Fin w /\ -1 <= w <= 1) in Hkids.
    destruct (pick_first_max (map (fun b => (b, g b)) moves0) m0 (g m0)) as (v & a & Hpk).
    change ((m0, g m0) :: map (fun b => (b, g b)) moves0)
      with (map (fun b => (b, g b)) (m0 :: moves0)) in Hpk.
    destruct (pick_max_spec _ _ _ _ _ Hpk) as (H1 & H2 & H3).
    destruct H2 as [[[=] _]|(a' & [= <-] & Hin)].
    apply in_map_iff in Hin as (a' & Heq & Ha). injection Heq as -> <-.
    destruct (Hkids a Ha) as (_ & u & _ & _ & Hgu & Hr).
    rewrite Hgu in Hpk, H1, H3.
    exists u, a. eexists. rewrite Hpk. split; [reflexivity|]. split; [reflexivity|].
    split; [reflexivity|]. split; [exact Hr|]. split; [exact Ha|]. split; [exact Hgu|].
    intros b Hb. destruct (Hkids b Hb) as (s' & w & Hres & Hrun & Hw & Hrw).
    assert (Hin : In (b, Fin w) (map (fun b => (b, g b)) (m0 :: moves0))).
    { apply in_map_iff. exists b. split; [now rewrite Hw|exact Hb]. }
    exists s', w. split; [exact Hres|]. split; [exact Hrun|]. split; [exact Hw|]. split.
    + specialize (H1 b (Fin w) Hin). rewrite ext_ltb_Fin in H1. lia.
    + intros ->. destruct (H3 b (Fin u) Hin (ext_eqb_refl _)) as (a' & [= <-] & Hlt). exact Hlt.
  - rewrite (plain_top_min_scored (MM.max_value fuel) state (m0 :: moves0) Hsteady).
    unfold child_value. unfold minimax_value_of_move in *. simpl MM_child in *.
    set (g := fun b => value_of NegInf (MM.max_value fuel (succ_state state b))).
    change (fun a => (a, value_of NegInf (MM.max_value fuel (succ_state state a))))
      with (fun b => (b, g b)).
    change (forall b, In b (m0 :: moves0) ->
              exists s' w, result state b = Ok s' /\
                (forall i, exists i', MM.max_value fuel s' i = Ok (Fin w, i')) /\
                g b = Fin w /\ -1 <= w <= 1) in Hkids.
    destruct (pick_first_min (map (fun b => (b, g b)) moves0) m0 (g m0)) as (v & a & Hpk).
    change ((m0, g m0) :: map (fun b => (b, g b)) moves0)
      with (map (fun b => (b, g b)) (m0 :: moves0)) in Hpk.
    destruct (pick_min_spec _ _ _ _ _ Hpk) as (H1 & H2 & H3).
    destruct H2 as [[[=] _]|(a' & [= <-] & Hin)].
    apply in_map_iff in Hin as (a' & Heq & Ha). injection Heq as -> <-.
    destruct (Hkids a Ha) as (_ & u & _ & _ & Hgu & Hr).
    rewrite Hgu in Hpk, H1, H3.
    exists u, a. eexists. rewrite Hpk. split; [reflexivity|]. split; [reflexivity|].
    split; [reflexivity|]. split; [exact Hr|]. split; [exact Ha|]. split; [exact Hgu|].
    intros b Hb. destruct (Hkids b Hb) as (s' & w & Hres & Hrun & Hw & Hrw).
    assert (Hin : In (b, Fin w) (map (fun b => (b, g b)) (m0 :: moves0))).
    { apply in_map_iff. exists b. split; [now rewrite Hw|exact Hb]. }
    exists s', w. split; [exact Hres|]. split; [exact Hrun|]. split; [exact Hw|]. split.
    + specialize (H1 b (Fin w) Hin). rewrite ext_ltb_Fin in H1. lia.
    + intros ->. destruct (H3 b (Fin u) Hin (ext_eqb_refl _)) as (a' & [= <-] & Hlt). exact Hlt.
Qed.

Lemma minimax_returns_the_smallest_optimal_action_witness :
  exists p moves u a c,
    player one_winning_move = Ok p /\ actions one_winning_move = Ok moves /\
    minimax 3 one_winning_move None = Ok ((Fin u, Some a), c) /\
    -1 <= u <= 1 /\
    In a moves /\
    minimax_value_of_move p 3 one_winning_move a = Fin u /\
    forall b, In b moves ->
      exists s' w,
        result one_winning_move b = Ok s' /\
        (forall i, exists i', MM_child p 3 s' i = Ok (Fin w, i')) /\
        minimax_value_of_move p 3 one_winning_move b = Fin w /\
        match p with X => w <= u | O => u <= w end /\
        (w = u -> action_ltb b a = false).
Proof.
  apply (minimax_returns_the_smallest_optimal_action 3 one_winning_move None).
  - exact one_winning_move_wf.
  - vm_compute. lia.
  - vm_compute. reflexivity.
Defined.

(** ** Every search answers a running game with a legal action *)

Section LegalAnswer.
Context {A : Type} `{NumberLaws A}.
Variable child : BoardMeta -> ext A -> ext A -> M (ext A).
Variable state : BoardMeta.

Lemma ab_top_max_answers m0 moves i v a i' :
  ab_top_max child state (m0 :: moves) NegInf None NegInf PosInf i = Ok ((v, a), i') ->
  exists a', a = Some a' /\ In a' (m0 :: moves).
Proof.
  intros Hrun. apply ab_top_max_traced in Hrun as (trace & _ & Hmap & Hpick).
  destruct trace as [|[b w] trace]; [discriminate|].
  destruct (pick_first_max trace b w) as (v' & a' & Hpk).
  rewrite Hpk in Hpick. injection Hpick as <- <-.
  destruct (pick_max_spec _ _ _ _ _ Hpk) as (_ & H2 & _).
  destruct H2 as [[[=] _]|(a'' & [= <-] & Hin)].
  exists a'. split; [reflexivity|]. rewrite <- Hmap.
  apply in_map_iff. now exists (a', v').
Qed.

Lemma ab_top_min_answers m0 moves i v a i' :
  ab_top_min child state (m0 :: moves) PosInf None NegInf PosInf i = Ok ((v, a), i') ->
  exists a', a = Some a' /\ In a' (m0 :: moves).
Proof.
  intros Hrun. apply ab_top_min_traced in Hrun as (trace & _ & Hmap & Hpick).
  destruct trace as [|[b w] trace]; [discriminate|].
  destruct (pick_first_min trace b w) as (v' & a' & Hpk).
  rewrite Hpk in Hpick. injection Hpick as <- <-.
  destruct (pick_min_spec _ _ _ _ _ Hpk) as (_ & H2 & _).
  destruct H2 as [[[=] _]|(a'' & [= <-] & Hin)].
  exists a'. split; [reflexivity|]. rewrite <- Hmap.
  apply in_map_iff. now exists (a', v').
Qed.
End LegalAnswer.

Lemma minimax_ab_answers fuel state sink ord moves :
  wf state -> (empties state <= fuel)%nat -> actions state = Ok moves -> moves <> [] ->
  exists v a c, minimax_ab fuel state sink ord = Ok ((v, Some a), c) /\ In a moves.
Proof.
  intros Hwf Hfuel Hacts Hne.
  destruct (minimax_ab_run fuel state sink ord Hwf Hfuel)
    as (p & moves' & [v a] & n & Hp & _ & Hrun & _).
  destruct (order_moves_perm state ord moves Hacts) as (l & Hord & Hperm).
  pose proof Hrun as Hloop. unfold minimax_ab, mbind, lift in Hloop. rewrite Hp in Hloop.
  destruct l as [|m0 l].
  { apply Permutation_sym, Permutation_nil in Hperm. contradiction. }
  assert (Ha : exists a', a = Some a' /\ In a' (m0 :: l)).
  { destruct p; rewrite Hord in Hloop.
    - now apply ab_top_max_answers in Hloop.
    - now apply ab_top_min_answers in Hloop. }
  destruct Ha as (a' & -> & Ha). exists v, a', (mkInstrument n).
  split; [exact Hrun|]. now apply (Permutation_in _ (Permutation_sym Hperm)).
Qed.

Lemma search_answers fuel state depth eval_fn sink ord moves :
  (forall s, wf s -> game_of s = game_of state -> exists x, eval_fn s = Ok x) ->
  wf state -> (empties state <= fuel)%nat -> actions state = Ok moves -> moves <> [] ->
  exists v a c, search fuel state depth eval_fn sink ord = Ok ((v, Some a), c) /\ In a moves.
Proof.
  intros Heval Hwf Hfuel Hacts Hne.
  destruct (search_run fuel state depth eval_fn sink ord Heval Hwf Hfuel)
    as (p & moves' & [v a] & n & Hp & _ & Hrun & _).
  destruct (order_moves_perm state ord moves Hacts) as (l & Hord & Hperm).
  pose proof Hrun as Hloop. unfold search, mbind, lift in Hloop. rewrite Hp in Hloop.
  destruct l as [|m0 l].
  { apply Permutation_sym, Permutation_nil in Hperm. contradiction. }
  assert (Ha : exists a', a = Some a' /\ In a' (m0 :: l)).
  { destruct p; rewrite Hord in Hloop.
    - now apply ab_top_max_answers in Hloop.
    - now apply ab_top_min_answers in Hloop. }
  destruct Ha as (a' & -> & Ha). exists v, a', (mkInstrument n).
  split; [exact Hrun|]. now apply (Permutation_in _ (Permutation_sym Hperm)).
Qed.



(** ** A depth budget that is never exhausted *)

Lemma Qltb_inject (a b : Z) : Qltb (inject_Z a) (inject_Z b) = (a <? b).
Proof.
  unfold Qltb, Qcompare, inject_Z. simpl. now rewrite !Z.mul_1_r.
Qed.

Lemma Qle_bool_inject (a b : Z) : Qle_bool (inject_Z a) (inject_Z b) = (a <=? b).
Proof.
  unfold Qle_bool, inject_Z. simpl. now rewrite !Z.mul_1_r.
Qed.

Lemma Qeq_bool_inject (a b : Z) : Qeq_bool (inject_Z a) (inject_Z b) = (a =? b).
Proof.
  destruct (Z.eqb_spec a b) as [->|Hne].
  - apply Qeq_bool_iff. reflexivity.
  - apply Qeq_bool_neq'. intros H. apply Hne. now apply inject_Z_injective.
Qed.

Lemma ext_ltb_float (x y : ext Z) : ext_ltb (as_float x) (as_float y) = ext_ltb x y.
Proof. destruct x, y; simpl; try reflexivity. apply Qltb_inject. Qed.

Lemma ext_leb_float (x y : ext Z) : ext_leb (as_float x) (as_float y) = ext_leb x y.
Proof. destruct x, y; simpl; try reflexivity. apply Qle_bool_inject. Qed.

Lemma ext_eqb_float (x y : ext Z) : ext_eqb (as_float x) (as_float y) = ext_eqb x y.
Proof. destruct x, y; simpl; try reflexivity. apply Qeq_bool_inject. Qed.

Lemma ext_max_float (x y : ext Z) : ext_max (as_float x) (as_float y) = as_float (ext_max x y).
Proof. unfold ext_max. rewrite ext_ltb_float. now destruct (ext_ltb x y). Qed.

Lemma ext_min_float (x y : ext Z) : ext_min (as_float x) (as_float y) = as_float (ext_min x y).
Proof. unfold ext_min. rewrite ext_ltb_float. now destruct (ext_ltb y x). Qed.

Lemma improves_max_float val a bv ba :
  improves_max (as_float val) a (as_float bv) ba = improves_max val a bv ba.
Proof. unfold improves_max. now rewrite ext_ltb_float, ext_eqb_float. Qed.

Lemma improves_min_float val a bv ba :
  improves_min (as_float val) a (as_float bv) ba = improves_min val a bv ba.
Proof. unfold improves_min. now rewrite ext_ltb_float, ext_eqb_float. Qed.

Section FloatLoops.
Variable child : BoardMeta -> ext Z -> ext Z -> M (ext Z).
Variable child' : BoardMeta -> ext Q -> ext Q -> M (ext Q).
Variable s : BoardMeta.

Lemma ab_loop_max_float moves :
  (forall a s', In a moves -> result s a = Ok s' ->
                forall al be i, child' s' (as_float al) (as_float be) i
                                = float_node (child s' al be i)) ->
  forall v al be i,
    ab_loop_max child' s moves (as_float v) (as_float al) (as_float be) i
    = float_node (ab_loop_max child s moves v al be i).
Proof.
  induction moves as [|a moves IH]; intros Hc v al be i; simpl; [reflexivity|].
  unfold mbind, lift. destruct (result s a) as [s'|e] eqn:Hres; [|reflexivity].
  rewrite (Hc a s' (or_introl eq_refl) Hres).
  destruct (child s' al be i) as [[w i1]|e]; simpl; [|reflexivity].
  rewrite ext_max_float, ext_leb_float.
  destruct (ext_leb be (ext_max v w)); [reflexivity|].
  rewrite ext_max_float. apply IH. intros b s'' Hb. apply Hc. now right.
Qed.

Lemma ab_loop_min_float moves :
  (forall a s', In a moves -> result s a = Ok s' ->
                forall al be i, child' s' (as_float al) (as_float be) i
                                = float_node (child s' al be i)) ->
  forall v al be i,
    ab_loop_min child' s moves (as_float v) (as_float al) (as_float be) i
    = float_node (ab_loop_min child s moves v al be i).
Proof.
  induction moves as [|a moves IH]; intros Hc v al be i; simpl; [reflexivity|].
  unfold mbind, lift. destruct (result s a) as [s'|e] eqn:Hres; [|reflexivity].
  rewrite (Hc a s' (or_introl eq_refl) Hres).
  destruct (child s' al be i) as [[w i1]|e]; simpl; [|reflexivity].
  rewrite ext_min_float, ext_leb_float.
  destruct (ext_leb (ext_min v w) al); [reflexivity|].
  rewrite ext_min_float. apply IH. intros b s'' Hb. apply Hc. now right.
Qed.

Lemma ab_top_max_float moves :
  (forall a s', In a moves -> result s a = Ok s' ->
                forall al be i, child' s' (as_float al) (as_float be) i
                                = float_node (child s' al be i)) ->
  forall bv ba al be i,
    ab_top_max child' s moves (as_float bv) ba (as_float al) (as_float be) i
    = float_answer (ab_top_max child s moves bv ba al be i).
Proof.
  induction moves as [|a moves IH]; intros Hc bv ba al be i; simpl; [reflexivity|].
  unfold mbind, lift. destruct (result s a) as [s'|e] eqn:Hres; [|reflexivity].
  rewrite (Hc a s' (or_introl eq_refl) Hres).
  destruct (child s' al be i) as [[w i1]|e]; simpl; [|reflexivity].
  rewrite improves_max_float.
  destruct (improves_max w a bv ba); rewrite ext_max_float;
    apply IH; intros b s'' Hb; apply Hc; now right.
Qed.

Lemma ab_top_min_float moves :
  (forall a s', In a moves -> result s a = Ok s' ->
                forall al be i, child' s' (as_float al) (as_float be) i
                                = float_node (child s' al be i)) ->
  forall bv ba al be i,
    ab_top_min child' s moves (as_float bv) ba (as_float al) (as_float be) i
    = float_answer (ab_top_min child s moves bv ba al be i).
Proof.
  induction moves as [|a moves IH]; intros Hc bv ba al be i; simpl; [reflexivity|].
  unfold mbind, lift. destruct (result s a) as [s'|e] eqn:Hres; [|reflexivity].
  rewrite (Hc a s' (or_introl eq_refl) Hres).
  destruct (child s' al be i) as [[w i1]|e]; simpl; [|reflexivity].
  rewrite improves_min_float.
  destruct (improves_min w a bv ba); rewrite ext_min_float;
    apply IH; intros b s'' Hb; apply Hc; now right.
Qed.
End FloatLoops.

(** A state without empty cell is terminal. *)
Lemma full_board_is_terminal state :
  wf state -> empties state = 0%nat -> utility state <> Ok None.
Proof.
  destruct state as [[board m] k]. intros Hwf He Hu.
  destruct (winner_total _ Hwf) as [w Hw].
  rewrite (utility_wf board m k w Hwf Hw) in Hu.
  rewrite (empties_as_cells board m k Hwf) in He.
  destruct w as [[|]|]; try discriminate.
  destruct (empty_cells board m); [discriminate|]. simpl in He. discriminate.
Qed.

(** The successors that the ordered moves lead to. *)
Lemma ordered_successor s ord l a s' :
  wf s -> _order_moves s ord = Ok l -> In a l -> result s a = Ok s' ->
  wf s' /\ S (empties s') = empties s.
Proof.
  intros Hwf Hord Ha Hres.
  destruct (actions_total s Hwf) as [moves Hacts].
  destruct (order_moves_perm s ord moves Hacts) as (l' & Hord' & Hperm).
  assert (l' = l) by congruence. subst l'.
  apply (Permutation_in _ (Permutation_sym Hperm)) in Ha.
  destruct (result_of_action s moves a Hwf Hacts Ha) as (s'' & Hres' & Hwf' & He).
  assert (s'' = s') by congruence. subst s''. auto.
Qed.

Lemma DL_float eval_fn ord fuel :
  forall s d, wf s -> (d < 0 \/ Z.of_nat (empties s) <= d) ->
    forall al be i,
      DL.max_value eval_fn ord fuel s (as_float al) (as_float be) d i
      = float_node (AB.max_value ord fuel s al be i) /\
      DL.min_value eval_fn ord fuel s (as_float al) (as_float be) d i
      = float_node (AB.min_value ord fuel s al be i).
Proof.
  induction fuel as [|f IH]; intros s d Hwf Hd al be i; [split; reflexivity|].
  rewrite DL_max_value_eq, DL_min_value_eq, AB_max_value_eq, AB_min_value_eq.
  unfold mbind, do_tick, lift.
  destruct (utility s) as [[u|]|e] eqn:Hu; [split; reflexivity| |split; reflexivity].
  assert (Hd0 : (d =? 0) = false).
  { apply Z.eqb_neq. intros ->. destruct Hd as [Hd|Hd]; [lia|].
    apply (full_board_is_terminal s Hwf); [lia|exact Hu]. }
  rewrite Hd0.
  destruct (_order_moves s ord) as [l|e] eqn:Hord; [|split; reflexivity].
  assert (Hkids : forall a s', In a l -> result s a = Ok s' ->
            wf s' /\ (d - 1 < 0 \/ Z.of_nat (empties s') <= d - 1)).
  { intros a s' Ha Hres.
    destruct (ordered_successor s ord l a s' Hwf Hord Ha Hres) as [Hwf' He].
    split; [exact Hwf'|]. lia. }
  split.
  - change (@NegInf Q) with (as_float NegInf).
    apply (ab_loop_max_float (AB.min_value ord f)
             (fun s' al be => DL.min_value eval_fn ord f s' al be (d - 1)) s l).
    intros a s' Ha Hres al' be' j. destruct (Hkids a s' Ha Hres) as [Hwf' Hd'].
    apply (IH s' (d - 1) Hwf' Hd').
  - change (@PosInf Q) with (as_float PosInf).
    apply (ab_loop_min_float (AB.max_value ord f)
             (fun s' al be => DL.max_value eval_fn ord f s' al be (d - 1)) s l).
    intros a s' Ha Hres al' be' j. destruct (Hkids a s' Ha Hres) as [Hwf' Hd'].
    apply (IH s' (d - 1) Hwf' Hd').
Qed.

(** X18: when the depth budget is at least the number of empty cells, or
    is zero or negative (the children are then entered with a negative
    budget, which never reaches 0), [search] never calls [eval_fn]: on
    every well-formed state, for every [eval_fn], sink, ordering setting
    and recursion budget, its outcome is the outcome of [minimax_ab] with
    the value read as a float: same action, same node count, same
    exception. *)
Theorem search_deep_enough_is_minimax_ab fuel state depth eval_fn sink ord :
  wf state -> (depth <= 0 \/ Z.of_nat (empties state) <= depth) ->
  search fuel state depth eval_fn sink ord = float_answer (minimax_ab fuel state sink ord).
Proof.
  intros Hwf Hd. unfold search, minimax_ab, mbind, lift.
  destruct (player state) as [p|e]; [|reflexivity].
  assert (Hkids : forall l, _order_moves state ord = Ok l ->
            forall a s', In a l -> result state a = Ok s' ->
              wf s' /\ (depth - 1 < 0 \/ Z.of_nat (empties s') <= depth - 1)).
  { intros l Hord a s' Ha Hres.
    destruct (ordered_successor state ord l a s' Hwf Hord Ha Hres) as [Hwf' He].
    split; [exact Hwf'|]. lia. }
  destruct p; destruct (_order_moves state ord) as [l|e] eqn:Hord; try reflexivity.
  - change (@NegInf Q) with (as_float NegInf). change (@PosInf Q) with (as_float PosInf).
    apply (ab_top_max_float (AB.min_value ord fuel)
             (fun s' al be => DL.min_value eval_fn ord fuel s' al be (depth - 1)) state l).
    intros a s' Ha Hres al be j. destruct (Hkids l eq_refl a s' Ha Hres) as [Hwf' Hd'].
    apply (DL_float eval_fn ord fuel s' (depth - 1) Hwf' Hd').
  - change (@NegInf Q) with (as_float NegInf). change (@PosInf Q) with (as_float PosInf).
    apply (ab_top_min_float (AB.max_value ord fuel)
             (fun s' al be => DL.max_value eval_fn ord fuel s' al be (depth - 1)) state l).
    intros a s' Ha Hres al be j. destruct (Hkids l eq_refl a s' Ha Hres) as [Hwf' Hd'].
    apply (DL_float eval_fn ord fuel s' (depth - 1) Hwf' Hd').
Qed.

Lemma search_deep_enough_is_minimax_ab_witness :
  search 3 one_winning_move 3 default_eval None true
  = float_answer (minimax_ab 3 one_winning_move None true).
Proof.
  apply (search_deep_enough_is_minimax_ab 3 one_winning_move 3 default_eval None true).
  - exact one_winning_move_wf.
  - right. vm_compute. discriminate.
Defined.

(** ** The values and the node counts of the exhaustive searches *)

(** X16: on every well-formed state, with a recursion budget of at least
    the number of empty cells, [minimax] and [minimax_ab] under both
    settings of [use_ordering] return the same value. *)
Theorem minimax_ab_returns_the_minimax_value fuel state sink :
  wf state -> (empties state <= fuel)%nat ->
  exists v a a1 a2 c c1 c2,
    minimax fuel state sink = Ok ((v, a), c) /\
    minimax_ab fuel state sink true = Ok ((v, a1), c1) /\
    minimax_ab fuel state sink false = Ok ((v, a2), c2).
Proof.
  intros Hwf Hfuel.
  destruct (minimax_ab_value_is_minimax_value fuel state true sink sink Hwf Hfuel)
    as (v & a & a1 & c & c1 & Hmm & H1).
  destruct (minimax_ab_value_is_minimax_value fuel state false sink sink Hwf Hfuel)
    as (v' & a' & a2 & c' & c2 & Hmm' & H2).
  assert (v' = v) by congruence. subst v'.
  exists v, a, a1, a2, c, c1, c2. auto.
Qed.

Lemma minimax_ab_returns_the_minimax_value_witness :
  exists v a a1 a2 c c1 c2,
    minimax 3 one_winning_move None = Ok ((v, a), c) /\
    minimax_ab 3 one_winning_move None true = Ok ((v, a1), c1) /\
    minimax_ab 3 one_winning_move None false = Ok ((v, a2), c2).
Proof.
  apply (minimax_ab_returns_the_minimax_value 3 one_winning_move None).
  - exact one_winning_move_wf.
  - vm_compute. lia.
Defined.

(** X17: on every well-formed state, with a recursion budget of at least
    the number of empty cells, the node count that [minimax_ab] leaves in
    the sink is at most the node count of [minimax], under both settings
    of [use_ordering]. *)
Theorem pruning_visits_no_more_nodes_than_minimax fuel state sink :
  wf state -> (empties state <= fuel)%nat ->
  exists r r1 r2 c c1 c2,
    minimax fuel state sink = Ok (r, c) /\
    minimax_ab fuel state sink true = Ok (r1, c1) /\
    minimax_ab fuel state sink false = Ok (r2, c2) /\
    0 <= node_count c1 <= node_count c /\
    0 <= node_count c2 <= node_count c.
Proof.
  intros Hwf Hfuel.
  destruct (minimax_run fuel state sink Hwf Hfuel) as (p & moves & r & Hp & Hacts & Hmm).
  destruct (minimax_ab_run fuel state sink true Hwf Hfuel)
    as (p1 & moves1 & r1 & n1 & Hp1 & Hacts1 & H1 & Hn1).
  destruct (minimax_ab_run fuel state sink false Hwf Hfuel)
    as (p2 & moves2 & r2 & n2 & Hp2 & Hacts2 & H2 & Hn2).
  assert (p1 = p) by congruence. assert (moves1 = moves) by congruence.
  assert (p2 = p) by congruence. assert (moves2 = moves) by congruence. subst.
  exists r, r1, r2. eexists _, _, _. split; [exact Hmm|]. split; [exact H1|].
  split; [exact H2|]. simpl. lia.
Qed.

Lemma pruning_visits_no_more_nodes_than_minimax_witness :
  exists r r1 r2 c c1 c2,
    minimax 3 one_winning_move None = Ok (r, c) /\
    minimax_ab 3 one_winning_move None true = Ok (r1, c1) /\
    minimax_ab 3 one_winning_move None false = Ok (r2, c2) /\
    0 <= node_count c1 <= node_count c /\
    0 <= node_count c2 <= node_count c.
Proof.
  apply (pruning_visits_no_more_nodes_than_minimax 3 one_winning_move None).
  - exact one_winning_move_wf.
  - vm_compute. lia.
Defined.

(** ** The recursion that the searches need *)

(** X19: a recursion budget equal to the number of empty cells is enough
    for [minimax], for [minimax_ab] and for [search] at any depth budget:
    on every well-formed state the three searches return, [search] with
    every evaluation function that returns on the well-formed states of
    the game, as the default heuristic does on the boards of at most
    308 x 308 cells. *)
Theorem recursion_is_bounded_by_the_empty_cells state depth eval_fn sink ord :
  wf state ->
  (forall s, wf s -> game_of s = game_of state -> exists x, eval_fn s = Ok x) ->
  (exists r c, minimax (empties state) state sink = Ok (r, c)) /\
  (exists r c, minimax_ab (empties state) state sink ord = Ok (r, c)) /\
  (exists r c, search (empties state) state depth eval_fn sink ord = Ok (r, c)).
Proof.
  intros Hwf Heval. apply searches_return; [exact Heval|exact Hwf|lia].
Qed.

Lemma recursion_is_bounded_by_the_empty_cells_witness :
  (exists r c, minimax (empties one_winning_move) one_winning_move None = Ok (r, c)) /\
  (exists r c, minimax_ab (empties one_winning_move) one_winning_move None true = Ok (r, c)) /\
  (exists r c, search (empties one_winning_move) one_winning_move 0 default_eval None true
               = Ok (r, c)).
Proof.
  apply (recursion_is_bounded_by_the_empty_cells one_winning_move 0 default_eval None true).
  - exact one_winning_move_wf.
  - intros s Hs Hg. apply (default_eval_total s 3 3 Hs Hg); [lia|unfold max_power; lia].
Defined.

(** X20: with a depth budget [depth >= 1], [search] returns within [depth]
    nested calls, however many cells are empty, with every evaluation
    function that returns on the well-formed states of the game, as the
    default heuristic does on the boards of at most 308 x 308 cells. *)
Theorem positive_depth_bounds_the_recursion state depth eval_fn sink ord :
  wf state -> 1 <= depth ->
  (forall s, wf s -> game_of s = game_of state -> exists x, eval_fn s = Ok x) ->
  exists r c, search (Z.to_nat depth) state depth eval_fn sink ord = Ok (r, c).
Proof.
  intros Hwf Hd Heval. apply search_within_depth; [exact Heval|exact Hwf|lia].
Qed.

Lemma positive_depth_bounds_the_recursion_witness :
  exists r c, search (Z.to_nat 1) (initial_state 3 3) 1 default_eval None true = Ok (r, c).
Proof.
  apply (positive_depth_bounds_the_recursion (initial_state 3 3) 1 default_eval None true).
  - exact (initial_state_wf 3 3).
  - lia.
  - intros s Hs Hg. apply (default_eval_total s 3 3 Hs Hg); [lia|unfold max_power; lia].
Defined.

(* ================================================================= *)
(** * The callers of the searches *)

(** ** The agent of [play.py] *)

(** X22: the move of the agent in [human_vs_agent], which is computed
    only after [utility(state)] was found to be [None]: the search returns
    an action (not [None]) that [result] accepts; the new state is well
    formed and has one empty cell less.  This holds without a depth (the
    agent runs [minimax_ab]) on every board, and with a depth (the agent
    runs [search] with the default heuristic) on the boards of at most
    308 x 308 cells with [k >= 0], on which the heuristic returns. *)
Theorem agent_move_is_legal fuel m k depth state :
  wf state -> (empties state <= fuel)%nat -> utility state = Ok None ->
  (depth <> None -> 0 <= snd (game_of state) /\ fst (game_of state) <= max_power) ->
  exists a s',
    agent_move fuel m k depth state = Ok (Some a) /\
    result state a = Ok s' /\ wf s' /\ S (empties s') = empties state.
Proof.
  intros Hwf Hfuel Hu Hsize.
  destruct (actions_total state Hwf) as [moves Hacts].
  pose proof (running_game_has_moves state moves Hwf Hu Hacts) as Hne.
  assert (Hab : exists a, agent_move fuel m k depth state = Ok (Some a) /\ In a moves).
  { unfold agent_move. destruct depth as [d|].
    - destruct Hsize as [Hk Hm]; [discriminate|].
      assert (Heval : forall s, wf s -> game_of s = game_of state ->
                                exists x, default_eval s = Ok x).
      { intros s Hs Hg.
        apply (default_eval_total s (fst (game_of state)) (snd (game_of state)) Hs); auto. }
      destruct (search_answers fuel state d default_eval None true moves
                               Heval Hwf Hfuel Hacts Hne) as (v & a & c & Hrun & Ha).
      unfold default_eval in Hrun. rewrite Hrun. simpl. eauto.
    - destruct (minimax_ab_answers fuel state None true moves Hwf Hfuel Hacts Hne)
        as (v & a & c & Hrun & Ha).
      rewrite Hrun. simpl. destruct ((m =? 3) && (k =? 3)); eauto. }
  destruct Hab as (a & Hrun & Ha).
  destruct (result_of_action state moves a Hwf Hacts Ha) as (s' & Hres & Hwf' & He).
  exists a, s'. auto.
Qed.

Lemma agent_move_is_legal_witness :
  exists a s',
    agent_move 9 3 3 (Some 2) (initial_state 3 3) = Ok (Some a) /\
    result (initial_state 3 3) a = Ok s' /\ wf s' /\
    S (empties s') = empties (initial_state 3 3).
Proof.
  apply (agent_move_is_legal 9 3 3 (Some 2) (initial_state 3 3)).
  - exact (initial_state_wf 3 3).
  - vm_compute. lia.
  - vm_compute. reflexivity.
  - intros _. unfold max_power. simpl. lia.
Defined.

(** ** The benchmark *)

Lemma minimax_ab_any_sink fuel state i ord :
  minimax_ab fuel state (Some i) ord = minimax_ab fuel state None ord.
Proof. reflexivity. Qed.

(** The report of the benchmark, given the outcomes of its three runs. *)
Lemma bench_report fuel v1 a1 c1 v2 a2 c2 v3 a3 c3 :
  minimax fuel (initial_state 3 3) (Some Instrument_new) = Ok ((v1, a1), c1) ->
  minimax_ab fuel (initial_state 3 3) None false = Ok ((v2, a2), c2) ->
  minimax_ab fuel (initial_state 3 3) None true = Ok ((v3, a3), c3) ->
  bench_empty_3x3 fuel
  = Ok [(node_count c1, v1, a1); (node_count c2, v2, a2); (node_count c3, v3, a3)].
Proof.
  intros H1 H2 H3. unfold bench_empty_3x3. rewrite H1. cbn [rbind].
  rewrite (minimax_ab_any_sink fuel (initial_state 3 3) (reset c1) false), H2. cbn [rbind].
  rewrite (minimax_ab_any_sink fuel (initial_state 3 3) (reset c2) true), H3. reflexivity.
Qed.

Lemma Ok_inj {A} (x y : A) : Ok x = Ok y -> x = y.
Proof. now intros [= ->]. Qed.

(** X23: the three runs of [bench_empty_3x3] on its one, shared
    [Instrument] report the value 0 (a draw); [minimax_ab] reports the
    action (0,0) and 7274 nodes without ordering, 7434 nodes with
    ordering, and [minimax] reports at least 7434 nodes: the counter is
    reset by each search, so no run counts the nodes of the run before. *)
Theorem bench_runs_agree_on_the_draw :
  exists n1 a1,
    bench_empty_3x3 9
    = Ok [(n1, Fin 0, a1); (7274, Fin 0, Some (0, 0)); (7434, Fin 0, Some (0, 0))] /\
    7434 <= n1.
Proof.
  destruct empty_board_node_counts as [Htrue Hfalse].
  assert (Hwf : wf (initial_state 3 3)) by apply initial_state_wf.
  assert (Hfuel : (empties (initial_state 3 3) <= 9)%nat) by (vm_compute; lia).
  destruct (minimax_ab_value_is_minimax_value 9 (initial_state 3 3) true
              (Some Instrument_new) None Hwf Hfuel) as (v & a & a' & c & c' & Hmm & Hab).
  pose proof (Ok_inj _ _ (eq_trans (eq_sym Htrue) Hab)) as Hv.
  destruct (pruning_never_visits_more 9 (initial_state 3 3) true (Some Instrument_new) None
              Hwf Hfuel) as (r & c1 & r' & c1' & Hmm' & Hab' & Hle).
  pose proof (Ok_inj _ _ (eq_trans (eq_sym Htrue) Hab')) as Hc.
  pose proof (Ok_inj _ _ (eq_trans (eq_sym Hmm) Hmm')) as Hm.
  injection Hv as <- _ _. injection Hc as _ <-. injection Hm as _ <-.
  exists (node_count c), a. split; [|exact Hle].
  exact (bench_report 9 _ _ _ _ _ _ _ _ _ Hmm Hfalse Htrue).
Qed.
